(** * TradingView-Screener-ts: the query builder, verified over a shallow embedding

    The development follows [src/query.ts] (the class [Query], the
    combinators [And] and [Or]), the leaf constructors of [src/column.ts]
    and the wire types of [src/types/models.ts].

    JavaScript objects and arrays are mutable and passed by reference, so the
    embedding keeps an explicit store: a heap of cells addressed by location,
    values that are either primitives or references into the heap, and the
    builder methods in state-passing style over that heap.  A builder is the
    pair of its two fields, [query] (a reference to the request document)
    and [url].  A method returns [None] where the JavaScript would raise a
    [TypeError], or where the state leaves the fragment modelled here
    (named properties of arrays, prototypes).

    Numbers are modelled by the integers and strings by [string].  An object
    keeps its own properties in insertion order; integer-like keys, which an
    engine enumerates first, stay where they were inserted.

    The HTTP transport is a collaborator of the builder: what [axios.post]
    answers is an input of the model, not a part of it. *)

From Stdlib Require Import ZArith Ascii Lia.
From stdpp Require Import base option list strings pretty.

Local Open Scope Z_scope.

(** ** Values, cells and the heap *)

Abbreviation loc := nat.

Inductive val : Type :=
  | VUndef
  | VNull
  | VBool (b : bool)
  | VNum (n : Z)
  | VStr (s : string)
  | VRef (l : loc).

(** Own properties of an object, in insertion order. *)
Abbreviation props := (list (string * val)).

Inductive obj : Type :=
  | OArr (elems : list val)
  | OObj (fields : props).

Abbreviation heap := (list obj).

Global Instance val_eq_dec : EqDecision val.
Proof. solve_decision. Defined.

Global Instance obj_eq_dec : EqDecision obj.
Proof. solve_decision. Defined.

(** [new] of an object or array literal: the next free location. *)
Definition alloc (o : obj) (h : heap) : loc * heap :=
  (length h, h ++ [o]).

(** JavaScript truthiness, as used by [!x] and [x || y]. *)
Definition truthy (v : val) : bool :=
  match v with
  | VUndef | VNull => false
  | VBool b => b
  | VNum n => negb (n =? 0)
  | VStr s => negb (String.eqb s EmptyString)
  | VRef _ => true
  end.

(** *** Own properties *)

Fixpoint get_own {V} (k : string) (ps : list (string * V)) : option V :=
  match ps with
  | [] => None
  | (k', v) :: ps' => if String.eqb k k' then Some v else get_own k ps'
  end.

(** [CreateDataProperty]: overwrite in place, or append a new own property. *)
Fixpoint define {V} (k : string) (v : V) (ps : list (string * V))
  : list (string * V) :=
  match ps with
  | [] => [(k, v)]
  | (k', v') :: ps' =>
      if String.eqb k k' then (k, v) :: ps' else (k', v') :: define k v ps'
  end.

(** Reading [o.k]: a missing property reads as [undefined]. *)
Definition read (k : string) (ps : props) : val :=
  default VUndef (get_own k ps).

(** [v.k] for a value [v]; reading a property of [undefined] or [null]
    throws, and properties of other primitives or of arrays are outside the
    fragment. *)
Definition get_prop (h : heap) (v : val) (k : string) : option val :=
  match v with
  | VRef l =>
      match h !! l with
      | Some (OObj ps) => Some (read k ps)
      | _ => None
      end
  | _ => None
  end.

(** [v.k = x] for a fixed identifier [k] of the source. *)
Definition set_prop (v : val) (k : string) (x : val) (h : heap) : option heap :=
  match v with
  | VRef l =>
      match h !! l with
      | Some (OObj ps) => Some (<[l := OObj (define k x ps)]> h)
      | _ => None
      end
  | _ => None
  end.

(** Writing [a[i] = x] on an array: in range it overwrites, out of range the
    array grows and the skipped slots are holes, which read as [undefined]. *)
Definition arr_set (a : list val) (i : nat) (x : val) : list val :=
  if decide (i < length a)%nat then <[i := x]> a
  else a ++ replicate (i - length a) VUndef ++ [x].

(** [v[i] = x] where [v] is expected to hold an array.  On a plain object the
    index is an ordinary key; on a primitive, strict-mode code throws. *)
Definition set_index (v : val) (i : nat) (x : val) (h : heap) : option heap :=
  match v with
  | VRef l =>
      match h !! l with
      | Some (OArr a) => Some (<[l := OArr (arr_set a i x)]> h)
      | Some (OObj ps) => Some (<[l := OObj (define (pretty i) x ps)]> h)
      | None => None
      end
  | _ => None
  end.

(** [[...v]]: a fresh array with the elements of the array [v]. *)
Definition spread (h : heap) (v : val) : option (list val) :=
  match v with
  | VRef l =>
      match h !! l with
      | Some (OArr a) => Some a
      | _ => None
      end
  | _ => None
  end.

(** ** [String.prototype.replace] with a string pattern

    Only the first occurrence of the pattern is replaced, and the
    replacement text is expanded by [GetSubstitution]: [$$] stands for a
    dollar sign, [$&] for the matched text, [$`] and [$'] for the text before
    and after the match.  A string pattern has no capture groups, so [$1],
    [$<name>] and a lone [$] are copied literally. *)

Fixpoint find_first (pat s : string) : option (string * string) :=
  if String.prefix pat s
  then Some (EmptyString, String.substring (String.length pat)
                            (String.length s - String.length pat)%nat s)
  else
    match s with
    | EmptyString => None
    | String c s' =>
        match find_first pat s' with
        | Some (before, after) => Some (String c before, after)
        | None => None
        end
    end.

Fixpoint GetSubstitution (matched before after repl : string) : string :=
  match repl with
  | EmptyString => EmptyString
  | String "$"%char (String "$"%char r) =>
      String "$"%char (GetSubstitution matched before after r)
  | String "$"%char (String "&"%char r) =>
      matched +:+ GetSubstitution matched before after r
  | String "$"%char (String "`"%char r) =>
      before +:+ GetSubstitution matched before after r
  | String "$"%char (String "'"%char r) =>
      after +:+ GetSubstitution matched before after r
  | String c r => String c (GetSubstitution matched before after r)
  end.

Definition replace (s pat repl : string) : string :=
  match find_first pat s with
  | None => s
  | Some (before, after) =>
      before +:+ GetSubstitution pat before after repl +:+ after
  end.

(** The replacement text holds none of the four two-character patterns. *)
Fixpoint pattern_free (s : string) : bool :=
  match s with
  | EmptyString => true
  | String "$"%char (String c _ as s') =>
      negb (Ascii.eqb c "$" || Ascii.eqb c "&" || Ascii.eqb c "`" || Ascii.eqb c "'")
      && pattern_free s'
  | String _ s' => pattern_free s'
  end.

(** ** A state monad over the heap *)

Definition M (A : Type) : Type := heap → option (A * heap).

Definition ret {A} (a : A) : M A := λ h, Some (a, h).

Definition bind {A B} (m : M A) (k : A → M B) : M B :=
  λ h, match m h with
       | Some (a, h') => k a h'
       | None => None
       end.

Notation "x ←ₘ m ; k" := (bind m (λ x, k))
  (at level 100, m at next level, right associativity,
   format "x  ←ₘ  m ;  '/' k").
Notation "m ;ₘ k" := (bind m (λ _, k))
  (at level 100, right associativity, format "m  ;ₘ  '/' k").

Definition new (o : obj) : M val :=
  λ h, let '(l, h') := alloc o h in Some (VRef l, h').

Definition getM (v : val) (k : string) : M val :=
  λ h, match get_prop h v k with Some x => Some (x, h) | None => None end.

Definition setM (v : val) (k : string) (x : val) : M unit :=
  λ h, match set_prop v k x h with Some h' => Some (tt, h') | None => None end.

Definition set_indexM (v : val) (i : nat) (x : val) : M unit :=
  λ h, match set_index v i x h with Some h' => Some (tt, h') | None => None end.

Definition spreadM (v : val) : M (list val) :=
  λ h, match spread h v with Some a => Some (a, h) | None => None end.

(** ** Module constants of [query.ts] *)

(** [DEFAULT_RANGE] is one shared array, created when the module is loaded:
    it lives in the first cell of the heap. *)
Definition DEFAULT_RANGE : val := VRef 0%nat.

Definition module_heap : heap := [OArr [VNum 0; VNum 50]].

Definition URL : string := "https://scanner.tradingview.com/{market}/scan".

(** ** Filter expressions: [Column] and the combinators [And], [Or] *)

Record Column : Type := { name : string }.

(** [Column.extractName], on an argument that is a [Column] or any value. *)
Inductive operand : Type :=
  | OfColumn (c : Column)
  | OfValue (v : val).

Definition extractName (o : operand) : val :=
  match o with
  | OfColumn c => VStr (name c)
  | OfValue v => v
  end.

(** The comparison methods [gt], [gte], [lt], [lte], [eq], [ne], [crosses],
    [like], ... all build [{ left: this.name, operation: op, right:
    extractName(other) }]. *)
Definition compare (op : string) (this : Column) (other : operand) : M val :=
  new (OObj [("left", VStr (name this)); ("operation", VStr op);
             ("right", extractName other)]).

Definition Column_gt := compare "greater".
Definition Column_gte := compare "egreater".
Definition Column_lt := compare "less".
Definition Column_lte := compare "eless".
Definition Column_eq := compare "equal".
Definition Column_ne := compare "nequal".

Inductive LogicalOperator : Type := OpAnd | OpOr.

Definition operator_name (o : LogicalOperator) : string :=
  match o with OpAnd => "and" | OpOr => "or" end.

(** ['left' in expr]: [in] throws on a primitive; an array has no such key. *)
Definition has_left (h : heap) (expr : val) : option bool :=
  match expr with
  | VRef l =>
      match h !! l with
      | Some (OObj ps) => Some (bool_decide (is_Some (get_own "left" ps)))
      | Some (OArr _) => Some false
      | None => None
      end
  | _ => None
  end.

(** The loop of [implAndOrChaining]: one operand per expression. *)
Fixpoint wrap_operands (expressions : list val) : M (list val) :=
  match expressions with
  | [] => ret []
  | expr :: rest =>
      isLeaf ←ₘ (λ h, match has_left h expr with
                      | Some b => Some (b, h) | None => None end);
      operand ←ₘ (if isLeaf : bool then new (OObj [("expression", expr)])
                  else ret expr);
      operands ←ₘ wrap_operands rest;
      ret (operand :: operands)
  end.

Definition implAndOrChaining (expressions : list val)
    (operator : LogicalOperator) : M val :=
  operands ←ₘ wrap_operands expressions;
  arr ←ₘ new (OArr operands);
  inner ←ₘ new (OObj [("operator", VStr (operator_name operator));
                      ("operands", arr)]);
  new (OObj [("operation", inner)]).

Definition And (expressions : list val) : M val :=
  implAndOrChaining expressions OpAnd.

Definition Or (expressions : list val) : M val :=
  implAndOrChaining expressions OpOr.

(** ** The builder: class [Query] *)

Record Query : Type := { query : val; url : string }.

Definition set_url (u : string) (this : Query) : Query :=
  {| query := query this; url := u |}.

(** [constructor()] *)
Definition Query_new : M Query :=
  markets ←ₘ new (OArr [VStr "america"]);
  types ←ₘ new (OArr []);
  squery ←ₘ new (OObj [("types", types)]);
  tickers ←ₘ new (OArr []);
  symbols ←ₘ new (OObj [("query", squery); ("tickers", tickers)]);
  options ←ₘ new (OObj [("lang", VStr "en")]);
  columns ←ₘ new (OArr [VStr "name"; VStr "close"; VStr "volume";
                        VStr "market_cap_basic"]);
  sort ←ₘ new (OObj [("sortBy", VStr "Value.Traded");
                     ("sortOrder", VStr "desc")]);
  dr ←ₘ spreadM DEFAULT_RANGE;
  range ←ₘ new (OArr dr);
  q ←ₘ new (OObj [("markets", markets); ("symbols", symbols);
                  ("options", options); ("columns", columns);
                  ("sort", sort); ("range", range)]);
  ret {| query := q; url := "https://scanner.tradingview.com/america/scan" |}.

(** An argument of [select] or [orderBy]: [Column | string]. *)
Inductive column_arg : Type :=
  | ACol (c : Column)
  | AStr (s : string).

Definition column_name (col : column_arg) : string :=
  match col with
  | ACol c => name c
  | AStr s => s
  end.

Definition select (columns : list column_arg) (this : Query) : M Query :=
  arr ←ₘ new (OArr (map (λ col, VStr (column_name col)) columns));
  setM (query this) "columns" arr ;ₘ
  ret this.

(** [where(...expressions)]: the rest parameters are copied into a new
    array; the expressions themselves stay shared with the caller. *)
Definition where_ (expressions : list val) (this : Query) : M Query :=
  arr ←ₘ new (OArr expressions);
  setM (query this) "filter" arr ;ₘ
  ret this.

Definition where2 (operation : val) (this : Query) : M Query :=
  inner ←ₘ getM operation "operation";
  setM (query this) "filter2" inner ;ₘ
  ret this.

(** [orderBy(column, ascending = true, nullsFirst = false)]: an omitted
    argument is [None]. *)
Definition orderBy (column : column_arg) (ascending nullsFirst : option bool)
    (this : Query) : M Query :=
  let ascending := default true ascending in
  let nullsFirst := default false nullsFirst in
  sortDict ←ₘ new (OObj [("sortBy", VStr (column_name column));
                         ("sortOrder",
                          VStr (if ascending then "asc" else "desc"));
                         ("nullsFirst", VBool nullsFirst)]);
  setM (query this) "sort" sortDict ;ₘ
  ret this.

(** [if (!this.query.range) this.query.range = [...DEFAULT_RANGE];] *)
Definition init_range (this : Query) : M unit :=
  r ←ₘ getM (query this) "range";
  if truthy r then ret tt
  else
    dr ←ₘ spreadM DEFAULT_RANGE;
    fresh ←ₘ new (OArr dr);
    setM (query this) "range" fresh.

Definition limit (limit : Z) (this : Query) : M Query :=
  init_range this ;ₘ
  r ←ₘ getM (query this) "range";
  set_indexM r 1 (VNum limit) ;ₘ
  ret this.

Definition offset (offset : Z) (this : Query) : M Query :=
  init_range this ;ₘ
  r ←ₘ getM (query this) "range";
  set_indexM r 0 (VNum offset) ;ₘ
  ret this.

Definition setMarkets (markets : list string) (this : Query) : M Query :=
  match markets with
  | [market] =>
      let this := set_url (replace URL "{market}" market) this in
      arr ←ₘ new (OArr [VStr market]);
      setM (query this) "markets" arr ;ₘ
      ret this
  | _ =>
      let this := set_url (replace URL "{market}" "global") this in
      arr ←ₘ new (OArr (map VStr markets));
      setM (query this) "markets" arr ;ₘ
      ret this
  end.

(** [if (!this.query.symbols) this.query.symbols = {};] *)
Definition init_symbols (this : Query) : M unit :=
  s ←ₘ getM (query this) "symbols";
  if truthy s then ret tt
  else
    fresh ←ₘ new (OObj []);
    setM (query this) "symbols" fresh.

Definition setTickers (tickers : list string) (this : Query) : M Query :=
  init_symbols this ;ₘ
  s ←ₘ getM (query this) "symbols";
  arr ←ₘ new (OArr (map VStr tickers));
  setM s "tickers" arr ;ₘ
  setMarkets [] this.

Definition setIndex (indexes : list string) (this : Query) : M Query :=
  setM (query this) "preset" (VStr "index_components_market_pages") ;ₘ
  init_symbols this ;ₘ
  s ←ₘ getM (query this) "symbols";
  arr ←ₘ new (OArr (map VStr indexes));
  setM s "symbolset" arr ;ₘ
  setMarkets [] this.

(** [(this.query as any)[key] = value].  The key [__proto__] reaches the
    inherited accessor and would change the prototype, which the model does
    not follow. *)
Definition setProperty (key : string) (value : val) (this : Query) : M Query :=
  if String.eqb key "__proto__" then (λ _, None)
  else setM (query this) key value ;ₘ ret this.

Definition getUrl (this : Query) : string := url this.

(** ** Reading a builder state *)

(** The own properties of the request document [this.query]. *)
Definition document (h : heap) (this : Query) : option props :=
  match query this with
  | VRef q =>
      match h !! q with
      | Some (OObj ps) => Some ps
      | _ => None
      end
  | _ => None
  end.

(** The elements of the array held in field [k] of the document. *)
Definition array_field (h : heap) (this : Query) (k : string)
  : option (list val) :=
  v ← get_prop h (query this) k; spread h v.

(** A field that is unset, or set to an object: the declared type of
    [symbols]. *)
Definition optional_object (h : heap) (v : val) : Prop :=
  truthy v = false ∨ ∃ l ps, v = VRef l ∧ h !! l = Some (OObj ps).

(** A field that is unset, or set to a pair: the declared type of [range]. *)
Definition optional_pair (h : heap) (v : val) : Prop :=
  truthy v = false ∨ ∃ l a b, v = VRef l ∧ h !! l = Some (OArr [a; b]).

(** A builder as [new Query()] leaves it, in the heap of the freshly loaded
    module. *)
Definition new_Query_state : Query * heap :=
  default ({| query := VUndef; url := EmptyString |}, []) (Query_new module_heap).

(** ** JSON

    [JSON.stringify] followed by [JSON.parse] goes through a text; the model
    keeps the tree that the text denotes. *)

Local Set Warnings "-register-all".

Inductive json : Type :=
  | JNull
  | JBool (b : bool)
  | JNum (n : Z)
  | JStr (s : string)
  | JArr (items : list json)
  | JObj (members : list (string * json)).

(** [JSON.stringify(v)] as a tree.  The outer [None] is the [TypeError] on a
    circular structure (the fuel bounds the nesting depth that is followed);
    the inner [None] is the result [undefined], which an array prints as
    [null] and an object leaves out. *)
Fixpoint to_json (fuel : nat) (h : heap) (v : val) : option (option json) :=
  match v with
  | VUndef => Some None
  | VNull => Some (Some JNull)
  | VBool b => Some (Some (JBool b))
  | VNum n => Some (Some (JNum n))
  | VStr s => Some (Some (JStr s))
  | VRef l =>
      match fuel with
      | O => None
      | S fuel' =>
          match h !! l with
          | None => None
          | Some (OArr vs) =>
              items ← mapM (λ v, default JNull <$> to_json fuel' h v) vs;
              Some (Some (JArr items))
          | Some (OObj ps) =>
              members ← mapM (λ kv, pair kv.1 <$> to_json fuel' h kv.2) ps;
              Some (Some (JObj (omap (λ kj, pair kj.1 <$> kj.2) members)))
          end
      end
  end.

(** Running [f] on the elements of a list, left to right. *)
Definition seqM {A B} (f : A → M B) : list A → M (list B) :=
  fix go (l : list A) : M (list B) :=
    match l with
    | [] => ret []
    | x :: l' => y ←ₘ f x; ys ←ₘ go l'; ret (y :: ys)
    end.

(** [JSON.parse] of the text of a tree: every array and object is a newly
    allocated cell; a repeated key keeps its last value. *)
Fixpoint parse (j : json) : M val :=
  match j with
  | JNull => ret VNull
  | JBool b => ret (VBool b)
  | JNum n => ret (VNum n)
  | JStr s => ret (VStr s)
  | JArr items =>
      vs ←ₘ seqM parse items;
      new (OArr vs)
  | JObj members =>
      ps ←ₘ seqM (λ kj, v ←ₘ parse kj.2; ret (kj.1, v)) members;
      new (OObj (foldl (λ acc kv, define kv.1 kv.2 acc) [] ps))
  end.

(** [JSON.parse(JSON.stringify(v))]; [JSON.parse(undefined)] throws. *)
Definition json_clone (fuel : nat) (v : val) : M val :=
  λ h, match to_json fuel h v with
       | Some (Some j) => parse j h
       | _ => None
       end.

Definition copy (fuel : nat) (this : Query) : M Query :=
  newQuery ←ₘ Query_new;
  q ←ₘ json_clone fuel (query this);
  ret {| query := q; url := url this |}.

Definition getQuery (fuel : nat) (this : Query) : M val :=
  json_clone fuel (query this).

(** The locations a value leads to, through any number of cells. *)
Definition children (o : obj) : list val :=
  match o with
  | OArr vs => vs
  | OObj ps => ps.*2
  end.

Inductive reach (h : heap) : val → loc → Prop :=
  | reach_here l o : h !! l = Some o → reach h (VRef l) l
  | reach_step l o v l' :
      h !! l = Some o → v ∈ children o → reach h v l' → reach h (VRef l) l'.






(** The JSON of the operands and composites that [implAndOrChaining]
    builds. *)
Definition expression_json (leaf : json) : json :=
  JObj [("expression", leaf)].

Definition comparison_json (operator : string) (operands : list json) : json :=
  JObj [("operator", JStr operator); ("operands", JArr operands)].

Definition operation_json (operator : string) (operands : list json) : json :=
  JObj [("operation", comparison_json operator operands)].

(** A value, or a cell, that mentions no location below [L]. *)
Definition val_above (L : loc) (v : val) : Prop :=
  match v with
  | VRef l => (L ≤ l)%nat
  | _ => True
  end.

Definition cell_above (L : loc) (o : obj) : Prop :=
  Forall (val_above L) (children o).

(** ** The text of a JSON value: [JSON.stringify] as a string

    Integers below [10^21] in magnitude print in plain decimal, as here. *)

Definition quote_char : ascii := "034"%char.
Definition backslash : ascii := "092"%char.

Definition hex_digit (n : N) : ascii :=
  ascii_of_N (if (n <? 10)%N then 48 + n else 87 + n)%N.

(** One character inside [QuoteJSONString]. *)
Definition escape (c : ascii) : string :=
  let n := N_of_ascii c in
  if (n =? 34)%N then String backslash (String quote_char EmptyString)
  else if (n =? 92)%N then String backslash (String backslash EmptyString)
  else if (n =? 8)%N then String backslash "b"
  else if (n =? 12)%N then String backslash "f"
  else if (n =? 10)%N then String backslash "n"
  else if (n =? 13)%N then String backslash "r"
  else if (n =? 9)%N then String backslash "t"
  else if (n <? 32)%N then
    String backslash
      ("u00" +:+ String (hex_digit (n / 16)) (String (hex_digit (n mod 16))
                                                EmptyString))
  else String c EmptyString.

Fixpoint escape_all (s : string) : string :=
  match s with
  | EmptyString => EmptyString
  | String c s' => escape c +:+ escape_all s'
  end.

Definition QuoteJSONString (s : string) : string :=
  String quote_char (escape_all s +:+ String quote_char EmptyString).

Fixpoint join (sep : string) (l : list string) : string :=
  match l with
  | [] => EmptyString
  | [x] => x
  | x :: l' => x +:+ sep +:+ join sep l'
  end.

Fixpoint JSON_text (j : json) : string :=
  match j with
  | JNull => "null"
  | JBool b => if b then "true" else "false"
  | JNum n => pretty n
  | JStr s => QuoteJSONString s
  | JArr items => "[" +:+ join "," (map JSON_text items) +:+ "]"
  | JObj members =>
      "{" +:+ join "," (map (λ kj, QuoteJSONString kj.1 +:+ ":"
                                     +:+ JSON_text kj.2) members) +:+ "}"
  end.

(** [`${JSON.stringify(v)}`], where [None] is the value [undefined]. *)
Definition stringify_in_template (v : option json) : string :=
  match v with
  | Some j => JSON_text j
  | None => "undefined"
  end.

(** ** The transport and the two execution methods

    [axios.post] is the collaborator: what it answers is an input of the
    model.  The state of the world holds the heap, the outcomes that the
    transport will give to the coming calls, and the requests sent so far. *)

(** Rows and envelope of the response, [ScreenerRowDict] and
    [ScreenerDict]; the [data] array can be missing. *)
Module Row.
Record ScreenerRowDict : Type := { s : string; d : list json }.
End Row.
Export Row (ScreenerRowDict).

Record ScreenerDict : Type :=
  { totalCount : Z; data : option (list ScreenerRowDict) }.

(** A record of the result: own properties whose values are JSON values or
    [undefined] ([None]). *)
Abbreviation record := (list (string * option json)).

Module Result.
Record ScreenerDataResult : Type :=
  { totalCount : Z; data : list record }.
End Result.
Export Result (ScreenerDataResult).

(** The response attached to a rejection. *)
Record Response : Type :=
  { status : Z; statusText : string; body : option json }.

(** What a rejected call throws: an instance of [Error], with the object in
    its [response] property if it has one, or any other value. *)
Inductive thrown : Type :=
  | Error_ (message : string) (response : option Response)
  | NotAnError (v : option json).

Inductive post_outcome : Type :=
  | Resolved (response_data : ScreenerDict)
  | Rejected (error : thrown).

Inductive cookie_spec : Type :=
  | CookieString (c : string)
  | CookieRecord (cs : list (string * string)).

Record RequestConfig : Type :=
  { headers : option (list (string * string));
    timeout : option Z;
    cookies : option cookie_spec }.

Record AxiosRequestConfig : Type :=
  { rc_headers : list (string * string); rc_timeout : Z }.

Record request : Type :=
  { req_url : string;
    req_body : option (option json);
    req_config : AxiosRequestConfig }.

Record world : Type :=
  { store : heap; pending : list post_outcome; sent : list request }.

Inductive completion (A : Type) : Type :=
  | Return (a : A)
  | Throw (e : thrown).
Arguments Return {A} a.
Arguments Throw {A} e.

Definition HEADERS : list (string * string) :=
  [("authority", "scanner.tradingview.com");
   ("sec-ch-ua",
    String quote_char (" Not A;Brand" +:+ String quote_char (";v="
      +:+ String quote_char ("99" +:+ String quote_char (", "
      +:+ String quote_char ("Chromium" +:+ String quote_char (";v="
      +:+ String quote_char ("98" +:+ String quote_char (", "
      +:+ String quote_char ("Google Chrome" +:+ String quote_char (";v="
      +:+ String quote_char ("98" +:+ String quote_char EmptyString))))))))))));
   ("accept", "text/plain, */*; q=0.01");
   ("content-type", "application/x-www-form-urlencoded; charset=UTF-8");
   ("sec-ch-ua-mobile", "?0");
   ("user-agent",
    "Mozilla/5.0 (Windows NT 10.0; Win64; x64) AppleWebKit/537.36 (KHTML, like Gecko)"
    +:+ "Chrome/98.0.4758.102 Safari/537.36");
   ("sec-ch-ua-platform",
    String quote_char ("Windows" +:+ String quote_char EmptyString));
   ("origin", "https://www.tradingview.com");
   ("sec-fetch-site", "same-site");
   ("sec-fetch-mode", "cors");
   ("sec-fetch-dest", "empty");
   ("referer", "https://www.tradingview.com/");
   ("accept-language", "en-US,en;q=0.9,it;q=0.8")].

(** The request configuration of [getScannerDataRaw]: the merged headers
    and the default timeout, then the spread of [config] over them, then
    the [Cookie] header. *)
Definition build_request_config (config : RequestConfig) : AxiosRequestConfig :=
  let merged :=
    foldl (λ acc kv, define kv.1 kv.2 acc) HEADERS (default [] (headers config)) in
  let timeout_or_default :=
    match timeout config with
    | Some t => if (t =? 0)%Z then 20000 else t
    | None => 20000
    end in
  let spread_headers := default merged (headers config) in
  let spread_timeout := default timeout_or_default (timeout config) in
  let with_cookie :=
    match cookies config with
    | Some (CookieString c) =>
        if String.eqb c EmptyString then spread_headers
        else define "Cookie" c spread_headers
    | Some (CookieRecord cs) =>
        define "Cookie" (join "; " (map (λ kv, kv.1 +:+ "=" +:+ kv.2) cs))
          spread_headers
    | None => spread_headers
    end in
  {| rc_headers := with_cookie; rc_timeout := spread_timeout |}.

(** The message of the error that replaces an HTTP failure. *)
Definition http_error_message (r : Response) : string :=
  "HTTP " +:+ pretty (status r) +:+ ": " +:+ statusText r
  +:+ String "010"%char ("Body: " +:+ stringify_in_template (body r)).

(** [getScannerDataRaw(config)].  The result is [None] where the builder
    state is outside the fragment or the transport has no outcome left. *)
Definition getScannerDataRaw (fuel : nat) (config : RequestConfig)
    (this : Query) (w : world)
  : option (completion ScreenerDict * world) :=
  '(_, h) ← init_range this (store w);
  let requestConfig := build_request_config config in
  let req := {| req_url := url this;
                req_body := to_json fuel h (query this);
                req_config := requestConfig |} in
  match pending w with
  | [] => None
  | outcome :: rest =>
      let w' := {| store := h; pending := rest; sent := sent w ++ [req] |} in
      match outcome with
      | Resolved response_data => Some (Return response_data, w')
      | Rejected (Error_ _ (Some response)) =>
          Some (Throw (Error_ (http_error_message response) None), w')
      | Rejected error => Some (Throw error, w')
      end
  end.

(** [ToPropertyKey] on a primitive. *)
Definition property_key (v : val) : option string :=
  match v with
  | VStr s => Some s
  | VNum n => Some (pretty n)
  | VBool b => Some (if b then "true" else "false")
  | VNull => Some "null"
  | VUndef => Some "undefined"
  | VRef _ => None
  end.

(** [o[k] = v] for a computed key.  The key [__proto__] reaches the inherited
    accessor, which the model does not follow. *)
Definition assign {V} (k : string) (v : V) (ps : list (string * V))
  : option (list (string * V)) :=
  if String.eqb k "__proto__" then None else Some (define k v ps).

(** [columns.forEach((column, index) => { result[column] = row.d[index]; })] *)
Fixpoint assign_columns (columns : list val) (index : nat) (d : list json)
    (result : record) : option record :=
  match columns with
  | [] => Some result
  | column :: columns' =>
      k ← property_key column;
      result' ← assign k (d !! index) result;
      assign_columns columns' (S index) d result'
  end.

(** The callback of [data.map]: one row to one record.  [columns] is the
    value of [this.query.columns || []]. *)
Definition remap_row (h : heap) (columns : val) (row : ScreenerRowDict)
  : option record :=
  cols ← (if truthy columns then spread h columns else Some []);
  assign_columns cols 0 (Row.d row) [("ticker", Some (JStr (Row.s row)))].

(** [getScannerData(config)] *)
Definition getScannerData (fuel : nat) (config : RequestConfig)
    (this : Query) (w : world)
  : option (completion ScreenerDataResult * world) :=
  '(c, w') ← getScannerDataRaw fuel config this w;
  match c with
  | Throw e => Some (Throw e, w')
  | Return jsonObj =>
      let rowsCount := totalCount jsonObj in
      match data jsonObj with
      | None =>
          Some (Return {| Result.totalCount := rowsCount; Result.data := [] |},
                w')
      | Some rows =>
          columns ← get_prop (store w') (query this) "columns";
          structuredData ← mapM (remap_row (store w') columns) rows;
          Some (Return {| Result.totalCount := rowsCount;
                          Result.data := structuredData |}, w')
      end
  end.

(** One text occurs inside another. *)
Definition contains (sub text : string) : Prop :=
  ∃ before after, text = before +:+ sub +:+ after.

(** The default value [{}] of the [config] parameter. *)
Definition default_config : RequestConfig :=
  {| headers := None; timeout := None; cookies := None |}.

(** A world around [new Query()] where the transport is about to give the
    listed outcomes. *)
Definition new_Query_world (outcomes : list post_outcome) : world :=
  {| store := new_Query_state.2; pending := outcomes; sent := [] |}.

(** ** Sample states *)

(** The document of [new Query()] in [new_Query_state], and its JSON. *)
Definition new_Query_document : props :=
  [("markets", VRef 1); ("symbols", VRef 5); ("options", VRef 6);
   ("columns", VRef 7); ("sort", VRef 8); ("range", VRef 9)].

Definition new_Query_json : json :=
  JObj [("markets", JArr [JStr "america"]);
        ("symbols", JObj [("query", JObj [("types", JArr [])]);
                          ("tickers", JArr [])]);
        ("options", JObj [("lang", JStr "en")]);
        ("columns", JArr [JStr "name"; JStr "close"; JStr "volume";
                          JStr "market_cap_basic"]);
        ("sort", JObj [("sortBy", JStr "Value.Traded");
                       ("sortOrder", JStr "desc")]);
        ("range", JArr [JNum 0; JNum 50])].

(** Three leaves built next to [new Query()]:
    [col('type').eq('stock')], [col('close').gt(100)],
    [col('type').eq('dr')]. *)
Definition three_leaves : (val * val * val) * heap :=
  default ((VUndef, VUndef, VUndef), [])
    ((a ←ₘ Column_eq {| name := "type" |} (OfValue (VStr "stock"));
      b ←ₘ Column_gt {| name := "close" |} (OfValue (VNum 100));
      c ←ₘ Column_eq {| name := "type" |} (OfValue (VStr "dr"));
      ret (a, b, c)) new_Query_state.2).

Definition leaf_json (left operation : string) (right : json) : json :=
  JObj [("left", JStr left); ("operation", JStr operation); ("right", right)].

(** [new Query().select('name', 'close', 'volume')] *)
Definition three_columns_state : Query * heap :=
  default new_Query_state
    (select [AStr "name"; AStr "close"; AStr "volume"]
       new_Query_state.1 new_Query_state.2).

Definition three_columns_document : props :=
  [("markets", VRef 1); ("symbols", VRef 5); ("options", VRef 6);
   ("columns", VRef 11); ("sort", VRef 8); ("range", VRef 9)].

(** A value that is not a reference. *)
Definition primitive (v : val) : bool :=
  match v with
  | VRef _ => false
  | _ => true
  end.

(** ** Sequences of configuration calls

    The chainable methods of the builder, [setProperty] apart: it can store
    any object of the caller in the document. *)
Inductive call : Type :=
  | Select (columns : list column_arg)
  | Where (expressions : list val)
  | Where2 (operation : val)
  | OrderBy (column : column_arg) (ascending nullsFirst : option bool)
  | Limit (n : Z)
  | Offset (n : Z)
  | SetMarkets (markets : list string)
  | SetTickers (tickers : list string)
  | SetIndex (indexes : list string).

Definition invoke (c : call) : Query → M Query :=
  match c with
  | Select columns => select columns
  | Where expressions => where_ expressions
  | Where2 operation => where2 operation
  | OrderBy column ascending nullsFirst => orderBy column ascending nullsFirst
  | Limit n => limit n
  | Offset n => offset n
  | SetMarkets markets => setMarkets markets
  | SetTickers tickers => setTickers tickers
  | SetIndex indexes => setIndex indexes
  end.

Fixpoint invoke_all (cs : list call) (this : Query) : M Query :=
  match cs with
  | [] => ret this
  | c :: cs' => this' ←ₘ invoke c this; invoke_all cs' this'
  end.

(** A value that is not a reference into the region [[lo, hi)] of the
    heap. *)
Definition outside (lo hi : loc) (v : val) : Prop :=
  match v with
  | VRef l => (l < lo)%nat ∨ (hi ≤ l)%nat
  | _ => True
  end.

(** The cells that the builder methods write to (the document at [q], its
    [range] array, its [symbols] object) lie outside the region. *)
Definition guarded (lo hi : loc) (q : loc) (h : heap) : Prop :=
  ∃ ps, h !! q = Some (OObj ps) ∧
        outside lo hi (read "range" ps) ∧ outside lo hi (read "symbols" ps) ∧
        (hi ≤ length h)%nat.

(** A computation, run in a guarded heap, keeps it guarded, leaves the
    region as it is, and returns a value that satisfies [Q]. *)
Definition keeps (lo hi : loc) (q : loc) {A} (m : M A) (Q : A → Prop) : Prop :=
  ∀ h a h', guarded lo hi q h → m h = Some (a, h') →
    guarded lo hi q h' ∧
    (∀ l, (lo ≤ l < hi)%nat → h' !! l = h !! l) ∧
    Q a.

(** ** Running a chain of calls from [new Query()] *)

Definition run_calls (cs : list call) : option (Query * heap) :=
  invoke_all cs new_Query_state.1 new_Query_state.2.

(** The JSON of field [k] of the document, as [getQuery()[k]] shows it. *)
Definition field_json (fuel : nat) (k : string) (s : option (Query * heap))
  : option json :=
  '(this, h) ← s;
  v ← get_prop h (query this) k;
  mjoin (to_json fuel h v).

(** [has(values)] and [hasNoneOf(values)] store the caller's array as it
    is. *)
Definition Column_has (this : Column) (values : val) : M val :=
  compare "has" this (OfValue values).

Definition Column_hasNoneOf (this : Column) (values : val) : M val :=
  compare "has_none_of" this (OfValue values).

(** The query of the test "AND/OR chaining":
    [new Query().where2(And(Or(And(col('type').eq('stock'),
    col('typespecs').has(['common'])), And(col('type').eq('fund'),
    col('typespecs').hasNoneOf(['etf'])))))]. *)
Definition and_or_chaining_test : M Query :=
  let type := {| name := "type" |} in
  let typespecs := {| name := "typespecs" |} in
  this ←ₘ Query_new;
  stock ←ₘ Column_eq type (OfValue (VStr "stock"));
  common ←ₘ new (OArr [VStr "common"]);
  has_common ←ₘ Column_has typespecs common;
  first ←ₘ And [stock; has_common];
  fund ←ₘ Column_eq type (OfValue (VStr "fund"));
  etf ←ₘ new (OArr [VStr "etf"]);
  no_etf ←ₘ Column_hasNoneOf typespecs etf;
  second ←ₘ And [fund; no_etf];
  either ←ₘ Or [first; second];
  top ←ₘ And [either];
  where2 top this.

(** ** Trees that a heap can hold *)

(** Nesting depth of arrays and objects. *)
Fixpoint depth (j : json) : nat :=
  match j with
  | JArr items => S (foldr (λ j acc, Nat.max (depth j) acc) 0%nat items)
  | JObj members => S (foldr (λ kj acc, Nat.max (depth kj.2) acc) 0%nat members)
  | _ => 0%nat
  end.

(** No object of the tree repeats a key. *)
Fixpoint unique_keys (j : json) : Prop :=
  match j with
  | JArr items => foldr (λ j acc, unique_keys j ∧ acc) True items
  | JObj members =>
      NoDup members.*1 ∧ foldr (λ kj acc, unique_keys kj.2 ∧ acc) True members
  | _ => True
  end.

(** No object of the heap repeats a key: an invariant of [define]. *)
Definition heap_unique_keys (h : heap) : Prop :=
  Forall (λ o, match o with OObj ps => NoDup ps.*1 | OArr _ => True end) h.

(** The scenario of the test "copy functionality": what [getQuery()] shows
    of [columns] and [range], for the original and for the copy, after the
    copy has been changed. *)
Definition copy_test : option (list (option json)) :=
  '(gt100, h0) ← Column_gt {| name := "close" |} (OfValue (VNum 100))
                   new_Query_state.2;
  '(original, h1) ←
    invoke_all [Select [AStr "close"; AStr "volume"]; Where [gt100]; Limit 25]
      new_Query_state.1 h0;
  '(copied, h2) ← copy 4 original h1;
  '(copied', h3) ←
    invoke_all [Select [AStr "open"; AStr "high"]; Limit 50] copied h2;
  Some [field_json 2 "columns" (Some (original, h3));
        field_json 2 "range" (Some (original, h3));
        field_json 2 "columns" (Some (copied', h3));
        field_json 2 "range" (Some (copied', h3))].

(** ** The other leaf constructors of [Column]

    The declared types of the parameters ([number], [any[]], ...) are erased
    when the code runs: a parameter is any value, and an omitted optional
    parameter is [undefined]. *)

Definition Column_crosses := compare "crosses".
Definition Column_crossesAbove := compare "crosses_above".
Definition Column_crossesBelow := compare "crosses_below".
Definition Column_like := compare "match".
Definition Column_notLike := compare "nmatch".

(** [{ left: this.name, operation: op, right: [...] }], where the array
    literal of [right] makes a new array. *)
Definition list_leaf (op : string) (this : Column) (items : list val) : M val :=
  arr ←ₘ new (OArr items);
  new (OObj [("left", VStr (name this)); ("operation", VStr op);
             ("right", arr)]).

Definition Column_between (this : Column) (left right : operand) : M val :=
  list_leaf "in_range" this [extractName left; extractName right].

Definition Column_notBetween (this : Column) (left right : operand) : M val :=
  list_leaf "not_in_range" this [extractName left; extractName right].

(** [right: [...values]]: the elements of the caller's array, in a new
    array.  Spreading a value that is not an array is outside the
    fragment. *)
Definition Column_isin (this : Column) (values : val) : M val :=
  elems ←ₘ spreadM values;
  list_leaf "in_range" this elems.

Definition Column_notIn (this : Column) (values : val) : M val :=
  elems ←ₘ spreadM values;
  list_leaf "not_in_range" this elems.

Definition Column_inDayRange (this : Column) (a b : val) : M val :=
  list_leaf "in_day_range" this [a; b].

Definition Column_inWeekRange (this : Column) (a b : val) : M val :=
  list_leaf "in_week_range" this [a; b].

Definition Column_inMonthRange (this : Column) (a b : val) : M val :=
  list_leaf "in_month_range" this [a; b].

Definition Column_abovePct (this : Column) (column : operand) (pct : val)
  : M val :=
  list_leaf "above%" this [extractName column; pct].

Definition Column_belowPct (this : Column) (column : operand) (pct : val)
  : M val :=
  list_leaf "below%" this [extractName column; pct].

(** [betweenPct(column, pct1, pct2?)] *)
Definition Column_betweenPct (this : Column) (column : operand) (pct1 : val)
    (pct2 : option val) : M val :=
  list_leaf "in_range%" this [extractName column; pct1; default VUndef pct2].

Definition Column_notBetweenPct (this : Column) (column : operand)
    (pct1 : val) (pct2 : option val) : M val :=
  list_leaf "not_in_range%" this
    [extractName column; pct1; default VUndef pct2].

Definition Column_empty (this : Column) : M val :=
  compare "empty" this (OfValue VNull).

Definition Column_notEmpty (this : Column) : M val :=
  compare "nempty" this (OfValue VNull).

Definition Column_toString (this : Column) : string :=
  "Column(" +:+ name this +:+ ")".

Definition col (name : string) : Column := {| name := name |}.

(** A call of one of the methods of [Column] that build a filter. *)
Inductive filter_call : Type :=
  | FGt (other : operand)
  | FGte (other : operand)
  | FLt (other : operand)
  | FLte (other : operand)
  | FEq (other : operand)
  | FNe (other : operand)
  | FCrosses (other : operand)
  | FCrossesAbove (other : operand)
  | FCrossesBelow (other : operand)
  | FBetween (left right : operand)
  | FNotBetween (left right : operand)
  | FIsin (values : val)
  | FNotIn (values : val)
  | FHas (values : val)
  | FHasNoneOf (values : val)
  | FInDayRange (a b : val)
  | FInWeekRange (a b : val)
  | FInMonthRange (a b : val)
  | FAbovePct (column : operand) (pct : val)
  | FBelowPct (column : operand) (pct : val)
  | FBetweenPct (column : operand) (pct1 : val) (pct2 : option val)
  | FNotBetweenPct (column : operand) (pct1 : val) (pct2 : option val)
  | FLike (other : operand)
  | FNotLike (other : operand)
  | FEmpty
  | FNotEmpty.

Definition build_filter (c : filter_call) (this : Column) : M val :=
  match c with
  | FGt other => Column_gt this other
  | FGte other => Column_gte this other
  | FLt other => Column_lt this other
  | FLte other => Column_lte this other
  | FEq other => Column_eq this other
  | FNe other => Column_ne this other
  | FCrosses other => Column_crosses this other
  | FCrossesAbove other => Column_crossesAbove this other
  | FCrossesBelow other => Column_crossesBelow this other
  | FBetween lower upper => Column_between this lower upper
  | FNotBetween lower upper => Column_notBetween this lower upper
  | FIsin values => Column_isin this values
  | FNotIn values => Column_notIn this values
  | FHas values => Column_has this values
  | FHasNoneOf values => Column_hasNoneOf this values
  | FInDayRange a b => Column_inDayRange this a b
  | FInWeekRange a b => Column_inWeekRange this a b
  | FInMonthRange a b => Column_inMonthRange this a b
  | FAbovePct column pct => Column_abovePct this column pct
  | FBelowPct column pct => Column_belowPct this column pct
  | FBetweenPct column pct1 pct2 => Column_betweenPct this column pct1 pct2
  | FNotBetweenPct column pct1 pct2 =>
      Column_notBetweenPct this column pct1 pct2
  | FLike other => Column_like this other
  | FNotLike other => Column_notLike this other
  | FEmpty => Column_empty this
  | FNotEmpty => Column_notEmpty this
  end.

(** The calls that spread their argument need it to be an array. *)
Definition spreadable (h : heap) (c : filter_call) : Prop :=
  match c with
  | FIsin values | FNotIn values => is_Some (spread h values)
  | _ => True
  end.

(** The union type [FilterOperation] of [types/models.ts]. *)
Definition FilterOperation : list string :=
  ["greater"; "egreater"; "less"; "eless"; "equal"; "nequal";
   "in_range"; "not_in_range"; "empty"; "nempty";
   "crosses"; "crosses_above"; "crosses_below";
   "match"; "nmatch"; "smatch"; "has"; "has_none_of";
   "above%"; "below%"; "in_range%"; "not_in_range%";
   "in_day_range"; "in_week_range"; "in_month_range"].

(** ** [Query.equals]

    [JSON.stringify(this.query) === JSON.stringify(other.query) &&
    this.url === other.url]: both documents are serialized, and the two
    results, each a text or [undefined], are compared. *)
Definition equals (fuel : nat) (this other : Query) (h : heap) : option bool :=
  match to_json fuel h (query this), to_json fuel h (query other) with
  | Some a, Some b =>
      Some (bool_decide (JSON_text <$> a = JSON_text <$> b)
            && String.eqb (url this) (url other))
  | _, _ => None
  end.

(** The array held in the property [right] of a leaf. *)
Definition right_elements (h : heap) (leaf : val) : option (list val) :=
  r ← get_prop h leaf "right"; spread h r.

(** The operand that [implAndOrChaining] makes of an expression, in JSON:
    a leaf is wrapped, a composite is not. *)
Definition operand_json (isLeaf : bool) (j : json) : json :=
  if isLeaf then expression_json j else j.

(** The record that one row gives when the column names are distinct. *)
Definition row_record (columns : list string) (row : ScreenerRowDict)
  : record :=
  ("ticker", Some (JStr (Row.s row)))
    :: imap (λ index column, (column, Row.d row !! index)) columns.

(** ** More sample states *)

(** [new Query().select('close', 'ticker', 'close')]; its document is
    [three_columns_document] again. *)
Definition repeated_columns_state : Query * heap :=
  default new_Query_state
    (select [AStr "close"; AStr "ticker"; AStr "close"]
       new_Query_state.1 new_Query_state.2).

(** [new Query().setProperty('columns', null)] *)
Definition no_columns_state : Query * heap :=
  default new_Query_state
    (setProperty "columns" VNull new_Query_state.1 new_Query_state.2).

Definition no_columns_document : props :=
  [("markets", VRef 1); ("symbols", VRef 5); ("options", VRef 6);
   ("columns", VNull); ("sort", VRef 8); ("range", VRef 9)].



(** ** Reading a JSON text

    What is needed to show that the text of a tree determines the tree. *)









(** ** Nested filter expressions

    An expression as a caller writes it: a leaf that a [Column] method has
    built, or [And(...)] or [Or(...)] of expressions.  Evaluating it calls
    [implAndOrChaining] once per composite, innermost first and left to
    right, as the argument lists are evaluated. *)
Inductive expression : Type :=
  | Leaf (v : val)
  | Composite (operator : LogicalOperator) (operands : list expression).

Fixpoint evaluate (e : expression) : M val :=
  match e with
  | Leaf v => ret v
  | Composite operator operands =>
      vs ←ₘ seqM evaluate operands;
      implAndOrChaining vs operator
  end.

Definition is_leaf (e : expression) : bool :=
  match e with
  | Leaf _ => true
  | Composite _ _ => false
  end.

Fixpoint leaves (e : expression) : list val :=
  match e with
  | Leaf v => [v]
  | Composite _ operands => concat (map leaves operands)
  end.

Fixpoint height (e : expression) : nat :=
  match e with
  | Leaf _ => 0%nat
  | Composite _ operands =>
      S (foldr (λ e acc, Nat.max (height e) acc) 0%nat operands)
  end.

(** The JSON that an expression stands for, given the JSON of its
    leaves. *)
Fixpoint expression_tree_json (J : val → json) (e : expression) : json :=
  match e with
  | Leaf v => J v
  | Composite operator operands =>
      operation_json (operator_name operator)
        (map (λ e, operand_json (is_leaf e) (expression_tree_json J e))
           operands)
  end.

(** ** [Query.toString]

    [JSON.stringify(v, null, 2)]: an empty array or object prints as [[]]
    or [{}]; otherwise the elements stand on lines of their own, two spaces
    deeper than the line of the opening bracket, and a key is followed by a
    colon and a space. *)
Definition line_feed : string := String "010"%char EmptyString.

Fixpoint JSON_pretty (indent : string) (j : json) : string :=
  match j with
  | JArr items =>
      match items with
      | [] => "[]"
      | _ :: _ =>
          let inner := indent +:+ "  " in
          "[" +:+ line_feed +:+ inner
          +:+ join ("," +:+ line_feed +:+ inner)
                (map (JSON_pretty inner) items)
          +:+ line_feed +:+ indent +:+ "]"
      end
  | JObj members =>
      match members with
      | [] => "{}"
      | _ :: _ =>
          let inner := indent +:+ "  " in
          "{" +:+ line_feed +:+ inner
          +:+ join ("," +:+ line_feed +:+ inner)
                (map (λ kj, QuoteJSONString kj.1 +:+ ": "
                              +:+ JSON_pretty inner kj.2) members)
          +:+ line_feed +:+ indent +:+ "}"
      end
  | _ => JSON_text j
  end.




(** The scenario of the test "equality": [query1] and [query2] are built
    alike, [query3] selects another column. *)
Definition equality_test : option (bool * bool) :=
  '(query1, h1) ←
    (this ←ₘ Query_new; invoke_all [Select [AStr "close"]; Limit 10] this)
      module_heap;
  '(query2, h2) ←
    (this ←ₘ Query_new; invoke_all [Select [AStr "close"]; Limit 10] this) h1;
  '(query3, h3) ←
    (this ←ₘ Query_new; invoke_all [Select [AStr "volume"]; Limit 10] this) h2;
  equal12 ← equals 4 query1 query2 h3;
  equal13 ← equals 4 query1 query3 h3;
  Some (equal12, equal13).

(** ** Where the text of the model is the text of the engine

    An engine lists the integer-like keys of an object first, in ascending
    order, and the other keys in the order of their creation; the model
    keeps every key where it was created.  A number prints in plain decimal
    when it is an integer below [10^21] in magnitude, as the model prints
    it.  A JSON value is plain when no key of it starts with a digit (every
    integer-like key does) and every number of it is below [10^21] in
    magnitude: on plain values the model's texts are those of
    [JSON.stringify]. *)
Definition digit (c : ascii) : bool :=
  let n := N_of_ascii c in
  (48 <=? n)%N && (n <=? 57)%N.

Definition plain_key (k : string) : bool :=
  match k with
  | EmptyString => true
  | String c _ => negb (digit c)
  end.



(** ** The request configuration, with [config] on the heap

    The lines of [getScannerDataRaw] that build [requestConfig], for a
    [config] that is any value of the caller: a key of [config] can be
    absent, or present with any value, [undefined] included; the objects of
    [config] are cells of the heap, which the code can write to. *)

(** [HEADERS], as the own properties of the module's constant. *)
Definition HEADERS_object : props :=
  map (λ kv, (kv.1, VStr kv.2)) HEADERS.

(** The own properties of an object. *)
Definition own_properties (v : val) : M props :=
  λ h, match v with
       | VRef l =>
           match h !! l with
           | Some (OObj ps) => Some (ps, h)
           | _ => None
           end
       | _ => None
       end.

(** The own properties of an object as the engine lists them: in the order
    of creation when no key is an integer index.  An object with a key that
    starts with a digit is outside the fragment. *)
Definition own_entries (v : val) : M props :=
  ps ←ₘ own_properties v;
  if forallb (λ kv, plain_key kv.1) ps then ret ps else (λ _, None).

(** [...v] in an object literal: the own properties of an object, nothing
    for [undefined], [null], a number or a boolean.  Spreading a string or
    an array gives index keys, which is outside the fragment. *)
Definition spread_object (v : val) : M props :=
  match v with
  | VUndef | VNull | VBool _ | VNum _ => ret []
  | VStr _ => λ _, None
  | VRef _ => own_entries v
  end.

(** Properties copied over others, as [{...a, ...b}] and [{k: v, ...b}]
    do. *)
Definition copy_into (target source : props) : props :=
  foldl (λ acc kv, define kv.1 kv.2 acc) target source.

(** [`${v}`] for a primitive; an integer of [10^21] or more in magnitude
    prints with an exponent, and an object through its own [toString]:
    both are outside the fragment. *)
Definition ToString (v : val) : option string :=
  match v with
  | VUndef => Some "undefined"
  | VNull => Some "null"
  | VBool b => Some (if b then "true" else "false")
  | VNum n => if Z.abs n <? 10 ^ 21 then Some (pretty n) else None
  | VStr s => Some s
  | VRef _ => None
  end.

(** [Object.entries(v)] on a value that is truthy and not a string: none
    for a number or a boolean, the own properties for an object. *)
Definition Object_entries (v : val) : M props :=
  match v with
  | VNum _ | VBool _ => ret []
  | VRef _ => own_entries v
  | _ => λ _, None
  end.

(** The text for the [Cookie] header: the string itself, or
    [Object.entries(cookies).map(([key, value]) => `${key}=${value}`)
    .join('; ')]. *)
Definition cookie_text (cookies : val) : M string :=
  match cookies with
  | VStr c => ret c
  | _ =>
      entries ←ₘ Object_entries cookies;
      λ h, match mapM (λ kv, text ← ToString kv.2;
                             Some (kv.1 +:+ "=" +:+ text)) entries with
           | Some pairs => Some (join "; " pairs, h)
           | None => None
           end
  end.

(** [config: RequestConfig = {}], then the object literal of
    [requestConfig], then the [Cookie] header.  The result is
    [requestConfig]. *)
Definition make_requestConfig (config : val) : M val :=
  config ←ₘ (match config with
             | VUndef => new (OObj [])
             | _ => ret config
             end);
  given ←ₘ getM config "headers";
  extra ←ₘ spread_object given;
  headers ←ₘ new (OObj (copy_into HEADERS_object extra));
  t ←ₘ getM config "timeout";
  own ←ₘ spread_object config;
  requestConfig ←ₘ
    new (OObj (copy_into
                 [("headers", headers);
                  ("timeout", if truthy t then t else VNum 20000)] own));
  cookies ←ₘ getM config "cookies";
  (if truthy cookies then
     text ←ₘ cookie_text cookies;
     target ←ₘ getM requestConfig "headers";
     setM target "Cookie" (VStr text)
   else ret tt) ;ₘ
  ret requestConfig.


(** [{headers: undefined, cookies: "sessionid=abc"}] in the first free
    cell of the module's heap. *)
Definition undefined_headers_heap : heap :=
  module_heap ++ [OObj [("headers", VUndef); ("cookies", VStr "sessionid=abc")]].

(** * Properties *)

(** ** The heap *)

Lemma get_own_define_eq {V} k (v : V) ps : get_own k (define k v ps) = Some v.
Proof.
  induction ps as [|[k' v'] ps IH]; simpl.
  - by rewrite String.eqb_refl.
  - destruct (String.eqb k k') eqn:E; simpl.
    + by rewrite String.eqb_refl.
    + by rewrite E.
Qed.

Lemma get_own_define_ne {V} k k' (v : V) ps :
  k ≠ k' → get_own k' (define k v ps) = get_own k' ps.
Proof.
  intros Hne. induction ps as [|[k0 v0] ps IH]; simpl.
  - destruct (String.eqb k' k) eqn:E; [|done].
    apply String.eqb_eq in E. congruence.
  - destruct (String.eqb k k0) eqn:E; simpl.
    + apply String.eqb_eq in E. subst k0.
      destruct (String.eqb k' k) eqn:E'; [|done].
      apply String.eqb_eq in E'. congruence.
    + by rewrite IH.
Qed.

Lemma read_define_eq k v ps : read k (define k v ps) = v.
Proof. unfold read. by rewrite get_own_define_eq. Qed.

Lemma read_define_ne k k' v ps : k ≠ k' → read k' (define k v ps) = read k' ps.
Proof. intros. unfold read. by rewrite get_own_define_ne. Qed.


(** ** [replace] on the endpoint template *)

Lemma GetSubstitution_pattern_free matched before after repl :
  pattern_free repl = true →
  GetSubstitution matched before after repl = repl.
Proof.
  induction repl as [|c r IH]; [done|].
  intros Hf.
  assert (Hr : pattern_free r = true).
  { destruct c as [[] [] [] [] [] [] [] []]; try exact Hf.
    destruct r as [|c' r']; [done|].
    simpl in Hf. by apply andb_prop in Hf as [_ Hf]. }
  specialize (IH Hr).
  destruct c as [[] [] [] [] [] [] [] []];
    try (simpl; by rewrite IH).
  destruct r as [|c' r']; [done|].
  simpl in Hf. apply andb_prop in Hf as [Hc' _].
  destruct c' as [[] [] [] [] [] [] [] []]; try discriminate Hc';
    (cbn [GetSubstitution]; cbn [GetSubstitution] in IH; by rewrite IH).
Qed.

Lemma replace_URL_market (m : string) :
  pattern_free m = true →
  replace URL "{market}" m = "https://scanner.tradingview.com/" +:+ m +:+ "/scan".
Proof.
  intros Hm. unfold replace.
  change (find_first "{market}" URL)
    with (Some ("https://scanner.tradingview.com/", "/scan")).
  cbv beta iota. by rewrite GetSubstitution_pattern_free.
Qed.

(** ** Running the primitives *)

Lemma document_Some h this ps :
  document h this = Some ps →
  ∃ q, query this = VRef q ∧ h !! q = Some (OObj ps) ∧ (q < length h)%nat.
Proof.
  unfold document. destruct (query this) as [| | | | |q]; try done.
  destruct (h !! q) as [[|ps']|] eqn:E; try done.
  intros [= ->]. exists q. split_and!; [done..|]. by eapply lookup_lt_Some.
Qed.

Lemma new_run o h : new o h = Some (VRef (length h), h ++ [o]).
Proof. done. Qed.

Lemma setM_run l k x ps h :
  h !! l = Some (OObj ps) →
  setM (VRef l) k x h = Some (tt, <[l := OObj (define k x ps)]> h).
Proof. intros E. unfold setM, set_prop. by rewrite E. Qed.

Lemma getM_run l k ps h :
  h !! l = Some (OObj ps) →
  getM (VRef l) k h = Some (read k ps, h).
Proof. intros E. unfold getM, get_prop. by rewrite E. Qed.

(** What [setMarkets] does to a builder whose [query] field holds an object:
    a new array of the given names is stored under [markets]. *)
Lemma setMarkets_run markets this h q ps :
  query this = VRef q → h !! q = Some (OObj ps) →
  setMarkets markets this h
  = Some (set_url (match markets with
                   | [m] => replace URL "{market}" m
                   | _ => replace URL "{market}" "global"
                   end) this,
          <[q := OObj (define "markets" (VRef (length h)) ps)]>
            (h ++ [OArr (map VStr markets)])).
Proof.
  intros Hq Hps.
  assert (Hrun : ∀ u,
    (arr ←ₘ new (OArr (map VStr markets));
     setM (query (set_url u this)) "markets" arr ;ₘ ret (set_url u this)) h
    = Some (set_url u this,
            <[q := OObj (define "markets" (VRef (length h)) ps)]>
              (h ++ [OArr (map VStr markets)]))).
  { intros u. unfold bind. rewrite new_run. simpl. rewrite Hq.
    rewrite (setM_run q _ _ ps); [done|].
    rewrite lookup_app_l; [done|]. by eapply lookup_lt_Some. }
  destruct markets as [|m [|m' ms]]; apply Hrun.
Qed.

Lemma array_field_markets_after this h q ps xs :
  query this = VRef q → h !! q = Some (OObj ps) →
  array_field (<[q := OObj (define "markets" (VRef (length h)) ps)]>
                 (h ++ [OArr xs])) this "markets" = Some xs.
Proof.
  intros Hq Hps. pose proof (lookup_lt_Some _ _ _ Hps) as Hlt.
  unfold array_field, get_prop. rewrite Hq.
  rewrite list_lookup_insert_eq by (rewrite length_app; lia).
  simpl. rewrite read_define_eq. unfold spread.
  rewrite list_lookup_insert_ne by lia.
  by rewrite list_lookup_middle.
Qed.

(** Where [setMarkets] does what C1 says.  On a builder whose [query] holds
    the request document, the document's [markets] becomes the literal
    argument list, in a new array; with no market or with two or more, the URL
    becomes the aggregate endpoint; with exactly one market [m], it becomes
    [https://scanner.tradingview.com/m/scan] as long as the text of [m]
    holds none of [$$], [$&], [$`], [$']. *)
Theorem setMarkets_endpoint this h ps markets :
  document h this = Some ps →
  ∃ this' h',
    setMarkets markets this h = Some (this', h') ∧
    array_field h' this' "markets" = Some (map VStr markets) ∧
    (∀ m, markets = [m] → pattern_free m = true →
       url this' = "https://scanner.tradingview.com/" +:+ m +:+ "/scan") ∧
    (length markets ≠ 1%nat →
       url this' = "https://scanner.tradingview.com/global/scan").
Proof.
  intros Hdoc. apply document_Some in Hdoc as (q & Hq & Hps & Hlt).
  eexists _, _. split; [by apply setMarkets_run|].
  split; [by apply array_field_markets_after|]. split.
  - intros m -> Hm. simpl. by apply replace_URL_market.
  - intros Hlen. destruct markets as [|m [|m' ms]]; done.
Qed.

Lemma setMarkets_endpoint_witness :
  ∃ this' h',
    setMarkets ["crypto"] new_Query_state.1 new_Query_state.2
      = Some (this', h') ∧
    array_field h' this' "markets" = Some (map VStr ["crypto"]) ∧
    (∀ m, ["crypto"] = [m] → pattern_free m = true →
       url this' = "https://scanner.tradingview.com/" +:+ m +:+ "/scan") ∧
    (length ["crypto"] ≠ 1%nat →
       url this' = "https://scanner.tradingview.com/global/scan").
Proof.
  apply (setMarkets_endpoint new_Query_state.1 new_Query_state.2
           [("markets", VRef 1%nat); ("symbols", VRef 5%nat);
            ("options", VRef 6%nat); ("columns", VRef 7%nat);
            ("sort", VRef 8%nat); ("range", VRef 9%nat)] ["crypto"]).
  reflexivity.
Defined.

(** C1.  The code aims at the literal market name in the URL and misses
    it on a name that holds a replacement pattern of [replace]:
    [new Query().setMarkets("$&")] puts the matched text [{market}] back, so
    the URL is [https://scanner.tradingview.com/{market}/scan] and not the
    endpoint of the market [$&] that C1 names. *)
Lemma setMarkets_pattern_counterexample :
  (url ∘ fst <$> setMarkets ["$&"] new_Query_state.1 new_Query_state.2)
    = Some "https://scanner.tradingview.com/{market}/scan" ∧
  "https://scanner.tradingview.com/{market}/scan"
    ≠ "https://scanner.tradingview.com/" +:+ "$&" +:+ "/scan".
Proof. split; [reflexivity | discriminate]. Qed.

(** ** Ticker and index scoping *)

Lemma init_symbols_run this h q ps :
  query this = VRef q → h !! q = Some (OObj ps) →
  optional_object h (read "symbols" ps) →
  ∃ h1 ps1 l sp,
    init_symbols this h = Some (tt, h1) ∧
    h1 !! q = Some (OObj ps1) ∧
    read "symbols" ps1 = VRef l ∧ h1 !! l = Some (OObj sp) ∧
    (∀ k, k ≠ "symbols" → read k ps1 = read k ps).
Proof.
  intros Hq Hps Hsym. pose proof (lookup_lt_Some _ _ _ Hps) as Hlt.
  unfold init_symbols, bind. rewrite Hq, (getM_run q _ ps) by done.
  destruct Hsym as [Hfalsy | (l & sp & Hl & Hsp)].
  - rewrite Hfalsy, new_run.
    rewrite (setM_run q _ _ ps) by (by rewrite lookup_app_l).
    eexists _, _, (length h), []. split; [done|].
    split; [by rewrite list_lookup_insert_eq by (rewrite length_app; lia)|].
    split; [by rewrite read_define_eq|]. split.
    + rewrite list_lookup_insert_ne by lia. by rewrite list_lookup_middle.
    + intros k Hk. by rewrite read_define_ne.
  - rewrite Hl. simpl. by exists h, ps, l, sp.
Qed.

(** Storing a fresh array of names under key [k] of the symbols object, then
    calling [setMarkets()]: the tail shared by [setTickers] and [setIndex]. *)
Lemma scope_symbols_run this h q ps l sp k names :
  query this = VRef q → h !! q = Some (OObj ps) →
  read "symbols" ps = VRef l → h !! l = Some (OObj sp) →
  ∃ this' h' ps',
    (s ←ₘ getM (query this) "symbols";
     arr ←ₘ new (OArr (map VStr names));
     setM s k arr ;ₘ
     setMarkets [] this) h = Some (this', h') ∧
    query this' = VRef q ∧
    url this' = "https://scanner.tradingview.com/global/scan" ∧
    array_field h' this' "markets" = Some [] ∧
    h' !! q = Some (OObj ps') ∧
    (k ≠ "preset" → read "preset" ps' = read "preset" ps).
Proof.
  intros Hq Hps Hsym Hsp.
  pose proof (lookup_lt_Some _ _ _ Hps) as Hlt.
  pose proof (lookup_lt_Some _ _ _ Hsp) as Hlt'.
  unfold bind at 1. rewrite Hq, (getM_run q _ ps), Hsym by done.
  unfold bind at 1. rewrite new_run.
  unfold bind at 1.
  rewrite (setM_run l _ _ sp) by (by rewrite lookup_app_l).
  set (h2 := <[l := _]> _).
  assert (∃ ps2, h2 !! q = Some (OObj ps2) ∧
            (k ≠ "preset" → read "preset" ps2 = read "preset" ps))
    as (ps2 & Hps2 & Hpre).
  { subst h2. destruct (decide (l = q)) as [->|Hne].
    - eexists. rewrite list_lookup_insert_eq by (rewrite length_app; lia).
      split; [done|]. intros Hk. assert (sp = ps) as -> by congruence.
      by rewrite read_define_ne.
    - exists ps. rewrite list_lookup_insert_ne by done.
      by rewrite lookup_app_l. }
  rewrite (setMarkets_run [] this h2 q ps2) by done.
  eexists _, _, _. split; [done|]. split; [done|]. split; [done|].
  split; [by apply array_field_markets_after|].
  split.
  - rewrite list_lookup_insert_eq; [done|].
    rewrite length_app. apply lookup_lt_Some in Hps2. lia.
  - intros Hk. rewrite read_define_ne by done. by apply Hpre.
Qed.

(** C10.  On a builder whose document has [symbols] unset or set to an
    object, [setTickers] and [setIndex] both leave the URL at the global
    endpoint and the document's [markets] at the empty array, whatever it
    held before; [setIndex] also leaves [preset] at
    ['index_components_market_pages']. *)
Theorem setTickers_setIndex_reset_markets this h ps names :
  document h this = Some ps →
  optional_object h (read "symbols" ps) →
  (∃ this' h',
     setTickers names this h = Some (this', h') ∧
     url this' = "https://scanner.tradingview.com/global/scan" ∧
     array_field h' this' "markets" = Some []) ∧
  (∃ this' h',
     setIndex names this h = Some (this', h') ∧
     url this' = "https://scanner.tradingview.com/global/scan" ∧
     array_field h' this' "markets" = Some [] ∧
     get_prop h' (query this') "preset"
       = Some (VStr "index_components_market_pages")).
Proof.
  intros Hdoc Hsym. apply document_Some in Hdoc as (q & Hq & Hps & Hlt).
  split.
  - destruct (init_symbols_run this h q ps Hq Hps Hsym)
      as (h1 & ps1 & l & sp & Hinit & Hps1 & Hs1 & Hsp & _).
    destruct (scope_symbols_run this h1 q ps1 l sp "tickers" names
                Hq Hps1 Hs1 Hsp)
      as (this' & h' & ps' & Hrun & _ & Hurl & Hmk & _).
    exists this', h'. split; [|done].
    unfold setTickers. unfold bind at 1. by rewrite Hinit.
  - set (psp := define "preset" (VStr "index_components_market_pages") ps).
    set (hp := <[q := OObj psp]> h).
    assert (Hpsp : hp !! q = Some (OObj psp))
      by (by apply list_lookup_insert_eq).
    assert (Hsymp : optional_object hp (read "symbols" psp)).
    { subst psp. rewrite read_define_ne by done.
      destruct Hsym as [?|(l & sp & Hl & Hsp)]; [by left|right].
      destruct (decide (l = q)) as [->|Hne].
      - eexists q, _. split; [done|]. exact Hpsp.
      - exists l, sp. split; [done|].
        subst hp. by rewrite list_lookup_insert_ne. }
    destruct (init_symbols_run this hp q psp Hq Hpsp Hsymp)
      as (h1 & ps1 & l & sp & Hinit & Hps1 & Hs1 & Hsp & Hkeep).
    destruct (scope_symbols_run this h1 q ps1 l sp "symbolset" names
                Hq Hps1 Hs1 Hsp)
      as (this' & h' & ps' & Hrun & Hq' & Hurl & Hmk & Hps' & Hpre).
    exists this', h'. split; [|split; [done|split; [done|]]].
    + unfold setIndex. unfold bind at 1. rewrite Hq.
      rewrite (setM_run q _ _ ps) by done. fold psp. fold hp.
      unfold bind at 1. rewrite Hinit. by rewrite <- Hq.
    + unfold get_prop. rewrite Hq', Hps'. f_equal.
      rewrite Hpre by done. rewrite Hkeep by done.
      subst psp. by rewrite read_define_eq.
Qed.

Lemma setTickers_setIndex_reset_markets_witness :
  (∃ this' h',
     setTickers ["NASDAQ:TSLA"] new_Query_state.1 new_Query_state.2
       = Some (this', h') ∧
     url this' = "https://scanner.tradingview.com/global/scan" ∧
     array_field h' this' "markets" = Some []) ∧
  (∃ this' h',
     setIndex ["NASDAQ:TSLA"] new_Query_state.1 new_Query_state.2
       = Some (this', h') ∧
     url this' = "https://scanner.tradingview.com/global/scan" ∧
     array_field h' this' "markets" = Some [] ∧
     get_prop h' (query this') "preset"
       = Some (VStr "index_components_market_pages")).
Proof.
  apply (setTickers_setIndex_reset_markets
           new_Query_state.1 new_Query_state.2
           [("markets", VRef 1%nat); ("symbols", VRef 5%nat);
            ("options", VRef 6%nat); ("columns", VRef 7%nat);
            ("sort", VRef 8%nat); ("range", VRef 9%nat)]
           ["NASDAQ:TSLA"]).
  - reflexivity.
  - right. by exists 5%nat, [("query", VRef 3%nat); ("tickers", VRef 4%nat)].
Defined.

(** ** Pagination: [limit] and [offset] *)

Lemma set_indexM_pair l i x a b h :
  h !! l = Some (OArr [a; b]) → (i < 2)%nat →
  set_indexM (VRef l) i x h = Some (tt, <[l := OArr (<[i := x]> [a; b])]> h).
Proof.
  intros E Hi. unfold set_indexM, set_index. rewrite E.
  unfold arr_set. by rewrite decide_True by (simpl; lia).
Qed.

(** With [range] already set to a pair, [limit] and [offset] write one slot
    of that very array. *)
Lemma range_set_run i x this h q ps l a b :
  query this = VRef q → h !! q = Some (OObj ps) →
  read "range" ps = VRef l → h !! l = Some (OArr [a; b]) → (i < 2)%nat →
  (init_range this ;ₘ
   r ←ₘ getM (query this) "range";
   set_indexM r i x ;ₘ ret this) h
  = Some (this, <[l := OArr (<[i := x]> [a; b])]> h).
Proof.
  intros Hq Hps Hr Hl Hi.
  unfold init_range, bind. rewrite Hq, (getM_run q _ ps), Hr by done. simpl.
  rewrite (getM_run q _ ps), Hr by done.
  by rewrite (set_indexM_pair l i x a b).
Qed.

(** With [range] unset, they first store a new copy of [DEFAULT_RANGE]. *)
Lemma range_unset_run i x this h q ps d0 d1 :
  query this = VRef q → h !! q = Some (OObj ps) →
  truthy (read "range" ps) = false →
  h !! 0%nat = Some (OArr [d0; d1]) → (i < 2)%nat →
  (init_range this ;ₘ
   r ←ₘ getM (query this) "range";
   set_indexM r i x ;ₘ ret this) h
  = Some (this,
          <[length h := OArr (<[i := x]> [d0; d1])]>
            (<[q := OObj (define "range" (VRef (length h)) ps)]>
               (h ++ [OArr [d0; d1]]))).
Proof.
  intros Hq Hps Hr Hd Hi. pose proof (lookup_lt_Some _ _ _ Hps) as Hlt.
  unfold init_range, bind. rewrite Hq, (getM_run q _ ps), Hr by done.
  unfold spreadM, spread, DEFAULT_RANGE. rewrite Hd, new_run.
  rewrite (setM_run q _ _ ps) by (by rewrite lookup_app_l).
  erewrite getM_run
    by (by rewrite list_lookup_insert_eq by (rewrite length_app; lia)).
  rewrite read_define_eq.
  rewrite (set_indexM_pair (length h) i x d0 d1); [done| |done].
  rewrite list_lookup_insert_ne by lia. by rewrite list_lookup_middle.
Qed.

Lemma array_field_range h this q ps l xs :
  query this = VRef q → h !! q = Some (OObj ps) →
  read "range" ps = VRef l → h !! l = Some (OArr xs) →
  array_field h this "range" = Some xs.
Proof.
  intros Hq Hps Hr Hl. unfold array_field, get_prop. rewrite Hq, Hps. simpl.
  rewrite Hr. unfold spread. by rewrite Hl.
Qed.

(** C8.  On a builder whose document has [range] unset or set to a pair, in
    a heap where [DEFAULT_RANGE] still holds [[0, 50]]:
    - [limit(n)] then [offset(m)] and [offset(m)] then [limit(n)] end in the
      same state, with [range = [m, n]];
    - on a set pair [[a, b]], [limit(n)] leaves [[a, n]] and [offset(m)]
      leaves [[m, b]];
    - with [range] unset, each of them stores a newly allocated array, which
      is not the array of [DEFAULT_RANGE], and [DEFAULT_RANGE] still holds
      [[0, 50]] afterwards. *)
Theorem limit_offset_range this h ps (n m : Z) :
  document h this = Some ps →
  h !! 0%nat = Some (OArr [VNum 0; VNum 50]) →
  optional_pair h (read "range" ps) →
  (∃ this' h',
     (this1 ←ₘ limit n this; offset m this1) h = Some (this', h') ∧
     (this1 ←ₘ offset m this; limit n this1) h = Some (this', h') ∧
     array_field h' this' "range" = Some [VNum m; VNum n]) ∧
  (∀ a b, array_field h this "range" = Some [a; b] →
     (∃ this' h', limit n this h = Some (this', h') ∧
        array_field h' this' "range" = Some [a; VNum n]) ∧
     (∃ this' h', offset m this h = Some (this', h') ∧
        array_field h' this' "range" = Some [VNum m; b])) ∧
  (truthy (read "range" ps) = false →
     (∃ this' h' l, limit n this h = Some (this', h') ∧
        get_prop h' (query this') "range" = Some (VRef l) ∧
        h !! l = None ∧ VRef l ≠ DEFAULT_RANGE ∧
        h' !! l = Some (OArr [VNum 0; VNum n]) ∧
        spread h' DEFAULT_RANGE = Some [VNum 0; VNum 50]) ∧
     (∃ this' h' l, offset m this h = Some (this', h') ∧
        get_prop h' (query this') "range" = Some (VRef l) ∧
        h !! l = None ∧ VRef l ≠ DEFAULT_RANGE ∧
        h' !! l = Some (OArr [VNum m; VNum 50]) ∧
        spread h' DEFAULT_RANGE = Some [VNum 0; VNum 50])).
Proof.
  intros Hdoc Hdef Hrange.
  apply document_Some in Hdoc as (q & Hq & Hps & Hlt).
  pose proof (lookup_lt_Some _ _ _ Hdef) as Hlt0.
  assert (Hset : ∀ l a b (x : val) i,
            read "range" ps = VRef l → h !! l = Some (OArr [a; b]) →
            (i < 2)%nat →
            let h1 := <[l := OArr (<[i := x]> [a; b])]> h in
            h1 !! q = Some (OObj ps) ∧
            h1 !! l = Some (OArr (<[i := x]> [a; b]))).
  { intros l a b x i Hr Hl Hi. pose proof (lookup_lt_Some _ _ _ Hl).
    split; [|by rewrite list_lookup_insert_eq].
    rewrite list_lookup_insert_ne; [done|]. congruence. }
  split; [|split].
  - destruct Hrange as [Hfalsy | (l & a & b & Hr & Hl)].
    + set (h0 := <[q := OObj (define "range" (VRef (length h)) ps)]>
                   (h ++ [OArr [VNum 0; VNum 50]])).
      assert (Hq0 : h0 !! q = Some (OObj (define "range" (VRef (length h)) ps)))
        by (subst h0; by rewrite list_lookup_insert_eq
                        by (rewrite length_app; lia)).
      assert (Hlen0 : length h0 = S (length h))
        by (subst h0; rewrite length_insert, length_app; simpl; lia).
      exists this, (<[length h := OArr [VNum m; VNum n]]> h0).
      assert (Hstep : ∀ i j (x y : val), (i < 2)%nat → (j < 2)%nat →
        (this1 ←ₘ (init_range this ;ₘ r ←ₘ getM (query this) "range";
                   set_indexM r i x ;ₘ ret this);
         (init_range this1 ;ₘ r ←ₘ getM (query this1) "range";
          set_indexM r j y ;ₘ ret this1)) h
        = Some (this, <[length h := OArr (<[j := y]>
                         (<[i := x]> [VNum 0; VNum 50]))]> h0)).
      { intros i j x y Hi Hj. unfold bind at 1.
        rewrite (range_unset_run i x this h q ps (VNum 0) (VNum 50))
          by done. fold h0.
        destruct (<[i := x]> [VNum 0; VNum 50]) as [|a [|b [|? ?]]] eqn:Ei;
          try (apply (f_equal length) in Ei;
               rewrite length_insert in Ei; simpl in Ei; lia).
        erewrite (range_set_run j y this _ q _ (length h) a b); try done.
        - by rewrite list_insert_insert_eq.
        - rewrite list_lookup_insert_ne by lia. exact Hq0.
        - by rewrite read_define_eq.
        - by rewrite list_lookup_insert_eq by lia. }
      split; [exact (Hstep 1%nat 0%nat (VNum n) (VNum m) ltac:(lia) ltac:(lia))|].
      split; [exact (Hstep 0%nat 1%nat (VNum m) (VNum n) ltac:(lia) ltac:(lia))|].
      eapply (array_field_range _ _ q _ (length h)); [done| |apply read_define_eq|].
      * rewrite list_lookup_insert_ne by lia. exact Hq0.
      * by rewrite list_lookup_insert_eq by lia.
    + pose proof (lookup_lt_Some _ _ _ Hl) as Hltl.
      exists this, (<[l := OArr [VNum m; VNum n]]> h).
      assert (Hstep : ∀ i j (x y : val), (i < 2)%nat → (j < 2)%nat →
        (this1 ←ₘ (init_range this ;ₘ r ←ₘ getM (query this) "range";
                   set_indexM r i x ;ₘ ret this);
         (init_range this1 ;ₘ r ←ₘ getM (query this1) "range";
          set_indexM r j y ;ₘ ret this1)) h
        = Some (this, <[l := OArr (<[j := y]> (<[i := x]> [a; b]))]> h)).
      { intros i j x y Hi Hj. unfold bind at 1.
        rewrite (range_set_run i x this h q ps l a b) by done.
        destruct (Hset l a b x i Hr Hl Hi) as [Hq1 Hl1].
        destruct (<[i := x]> [a; b]) as [|a' [|b' [|? ?]]] eqn:Ei;
          try (apply (f_equal length) in Ei;
               rewrite length_insert in Ei; simpl in Ei; lia).
        rewrite (range_set_run j y this _ q ps l a' b') by done.
        by rewrite list_insert_insert_eq. }
      split; [exact (Hstep 1%nat 0%nat (VNum n) (VNum m) ltac:(lia) ltac:(lia))|].
      split; [exact (Hstep 0%nat 1%nat (VNum m) (VNum n) ltac:(lia) ltac:(lia))|].
      eapply (array_field_range _ _ q ps l); [done| |done|].
      * rewrite list_lookup_insert_ne; [done|congruence].
      * by rewrite list_lookup_insert_eq.
  - intros a b Hab.
    assert (∃ l, read "range" ps = VRef l ∧ h !! l = Some (OArr [a; b]))
      as (l & Hr & Hl).
    { unfold array_field, get_prop in Hab. rewrite Hq, Hps in Hab.
      simpl in Hab. unfold spread in Hab.
      destruct (read "range" ps) as [| | | | |l]; try done.
      exists l. split; [done|].
      destruct (h !! l) as [[xs|]|]; try done. congruence. }
    split.
    + exists this, (<[l := OArr [a; VNum n]]> h).
      split; [apply (range_set_run 1 (VNum n) this h q ps l a b); (done || lia)|].
      destruct (Hset l a b (VNum n) 1%nat Hr Hl ltac:(lia)).
      by eapply array_field_range.
    + exists this, (<[l := OArr [VNum m; b]]> h).
      split; [apply (range_set_run 0 (VNum m) this h q ps l a b); (done || lia)|].
      destruct (Hset l a b (VNum m) 0%nat Hr Hl ltac:(lia)).
      by eapply array_field_range.
  - intros Hfalsy.
    assert (Hinit : ∀ i (x : val), (i < 2)%nat →
      ∃ this' h' l,
        (init_range this ;ₘ r ←ₘ getM (query this) "range";
         set_indexM r i x ;ₘ ret this) h = Some (this', h') ∧
        get_prop h' (query this') "range" = Some (VRef l) ∧
        h !! l = None ∧ VRef l ≠ DEFAULT_RANGE ∧
        h' !! l = Some (OArr (<[i := x]> [VNum 0; VNum 50])) ∧
        spread h' DEFAULT_RANGE = Some [VNum 0; VNum 50]).
    { intros i x Hi. eexists this, _, (length h).
      split; [apply (range_unset_run i x this h q ps (VNum 0) (VNum 50)); (done || lia)|].
      split.
      { unfold get_prop. rewrite Hq.
        rewrite list_lookup_insert_ne by lia.
        rewrite list_lookup_insert_eq by (rewrite length_app; lia).
        by rewrite read_define_eq. }
      split; [by apply lookup_ge_None|].
      split; [unfold DEFAULT_RANGE; intros [=]; lia|].
      split.
      { by rewrite list_lookup_insert_eq
          by (rewrite length_insert, length_app; simpl; lia). }
      unfold spread, DEFAULT_RANGE.
      rewrite list_lookup_insert_ne by lia.
      destruct (decide (q = 0%nat)) as [->|Hq0]; [congruence|].
      rewrite list_lookup_insert_ne by done.
      by rewrite lookup_app_l, Hdef by done. }
    split.
    + exact (Hinit 1%nat (VNum n) ltac:(lia)).
    + exact (Hinit 0%nat (VNum m) ltac:(lia)).
Qed.

(** ** Serialization and the shape of the heap *)

Lemma lookup_alloc_at (h ext : heap) (k : nat) :
  (h ++ ext) !! (length h + k)%nat = ext !! k.
Proof. rewrite lookup_app_r by lia. f_equal. lia. Qed.

Lemma mapM_ext_in {A B} (f g : A → option B) (l : list A) :
  (∀ x, x ∈ l → f x = g x) → mapM f l = mapM g l.
Proof.
  induction l as [|x l IH]; intros Hfg; [done|].
  simpl. rewrite (Hfg x) by left.
  rewrite IH; [done|]. intros y Hy. apply Hfg. by right.
Qed.


Section simulation.
(** Two heaps that hold the same structure at related locations serialize
    related values alike. *)
Variable R : loc → loc → Prop.

End simulation.








(** Serialization looks only at the cells a value leads to. *)
Lemma to_json_agree n (h h' : heap) v r :
  to_json n h v = Some r →
  (∀ l, reach h v l → h' !! l = h !! l) →
  to_json n h' v = Some r.
Proof.
  revert v r. induction n as [|n IH]; intros v r Hv Hagree.
  - by destruct v.
  - destruct v as [| | | | |l]; try done.
    simpl in *. destruct (h !! l) as [o|] eqn:Hl; [|done].
    rewrite (Hagree l) by (by eapply reach_here). rewrite Hl.
    assert (Hch : ∀ x, x ∈ children o → is_Some (to_json n h x) →
                       to_json n h' x = to_json n h x).
    { intros x Hx [rx Hrx]. rewrite Hrx. apply IH; [done|].
      intros l' Hl'. apply Hagree. by eapply reach_step. }
    destruct o as [vs|ps]; simpl in *.
    + destruct (mapM _ vs) as [items|] eqn:Hitems; [|done].
      rewrite <- Hv, <- Hitems. f_equal. apply mapM_ext_in.
      intros x Hx. rewrite Hch; [done..|].
      apply mk_is_Some, mapM_is_Some_1 in Hitems.
      rewrite Forall_forall in Hitems. specialize (Hitems x Hx).
      simpl in Hitems. by apply fmap_is_Some in Hitems.
    + destruct (mapM _ ps) as [members|] eqn:Hmembers; [|done].
      rewrite <- Hv, <- Hmembers. f_equal. apply mapM_ext_in.
      intros kv Hkv. rewrite Hch; [done| |].
      * apply list_elem_of_fmap. by exists kv.
      * apply mk_is_Some, mapM_is_Some_1 in Hmembers.
        rewrite Forall_forall in Hmembers. specialize (Hmembers kv Hkv).
        simpl in Hmembers. by apply fmap_is_Some in Hmembers.
Qed.

Lemma reach_allocated (h : heap) v l : reach h v l → (l < length h)%nat.
Proof. induction 1; [by eapply lookup_lt_Some | done]. Qed.

Lemma to_json_extend n (h ext : heap) v r :
  to_json n h v = Some r → to_json n (h ++ ext) v = Some r.
Proof.
  intros Hv. apply (to_json_agree n h); [done|].
  intros l Hl. apply lookup_app_l. by eapply reach_allocated.
Qed.

Lemma to_json_fuel n n' (h : heap) v r :
  to_json n h v = Some r → (n ≤ n')%nat → to_json n' h v = Some r.
Proof.
  revert n' v r. induction n as [|n IH]; intros n' v r Hv Hle.
  - destruct v; try done; by destruct n'.
  - destruct n' as [|n']; [lia|].
    destruct v as [| | | | |l]; try done.
    simpl in *. destruct (h !! l) as [[vs|ps]|]; [| |done].
    + destruct (mapM _ vs) as [items|] eqn:Hitems; [|done].
      apply mapM_Some_1 in Hitems.
      erewrite mapM_Some_2; [exact Hv|].
      eapply Forall2_impl; [exact Hitems|]. intros x y Hxy. simpl in *.
      destruct (to_json n h x) as [rx|] eqn:Hrx; [|done].
      by rewrite (IH n' x rx) by (done || lia).
    + destruct (mapM _ ps) as [members|] eqn:Hmembers; [|done].
      apply mapM_Some_1 in Hmembers.
      erewrite mapM_Some_2; [exact Hv|].
      eapply Forall2_impl; [exact Hmembers|]. intros x y Hxy. simpl in *.
      destruct (to_json n h x.2) as [rx|] eqn:Hrx; [|done].
      by rewrite (IH n' x.2 rx) by (done || lia).
Qed.

(** ** The combinators *)

Lemma has_left_extend (h ext : heap) v b :
  has_left h v = Some b → has_left (h ++ ext) v = Some b.
Proof.
  destruct v as [| | | | |l]; try done. simpl.
  destruct (h !! l) as [o|] eqn:Hl; [|done].
  by rewrite (lookup_app_l_Some _ _ _ _ Hl).
Qed.


Lemma to_json_object n (h : heap) l ps members :
  h !! l = Some (OObj ps) →
  mapM (λ kv, pair kv.1 <$> to_json n h kv.2) ps = Some members →
  to_json (S n) h (VRef l)
  = Some (Some (JObj (omap (λ kj, pair kj.1 <$> kj.2) members))).
Proof. intros Hl Hm. simpl. by rewrite Hl, Hm. Qed.

Lemma to_json_array n (h : heap) l vs items :
  h !! l = Some (OArr vs) →
  mapM (λ v, default JNull <$> to_json n h v) vs = Some items →
  to_json (S n) h (VRef l) = Some (Some (JArr items)).
Proof. intros Hl Hm. simpl. by rewrite Hl, Hm. Qed.



(** C3 (amended).  [And()] and [Or()] without expressions raise nothing:
    each returns a composite with its own connector and an empty operand
    list. *)
Theorem empty_combinator_returns (h : heap) :
  (∃ top inner operands h',
     And [] h = Some (VRef top, h') ∧
     h' !! top = Some (OObj [("operation", VRef inner)]) ∧
     h' !! inner = Some (OObj [("operator", VStr "and");
                               ("operands", VRef operands)]) ∧
     h' !! operands = Some (OArr [])) ∧
  (∃ top inner operands h',
     Or [] h = Some (VRef top, h') ∧
     h' !! top = Some (OObj [("operation", VRef inner)]) ∧
     h' !! inner = Some (OObj [("operator", VStr "or");
                               ("operands", VRef operands)]) ∧
     h' !! operands = Some (OArr [])).
Proof.
  assert (Hrun : ∀ operator,
    implAndOrChaining [] operator h
    = Some (VRef (length h + 2),
            h ++ [OArr [];
                  OObj [("operator", VStr (operator_name operator));
                        ("operands", VRef (length h + 0))];
                  OObj [("operation", VRef (length h + 1))]])).
  { intros operator.
    unfold implAndOrChaining, wrap_operands, bind, new, alloc, ret.
    rewrite !length_app. simpl.
    by rewrite <- !app_assoc, <- !Nat.add_assoc, Nat.add_0_r. }
  split; eexists _, _, _, _;
    (split; [apply Hrun|]); rewrite !lookup_alloc_at; done.
Qed.

(** C3, as stated, fails: on the heap of the freshly loaded module both
    calls return a node with no operand instead of raising. *)
Lemma empty_combinator_counterexample :
  And [] module_heap
    = Some (VRef 3%nat,
            [OArr [VNum 0; VNum 50];
             OArr [];
             OObj [("operator", VStr "and"); ("operands", VRef 1%nat)];
             OObj [("operation", VRef 2%nat)]]) ∧
  Or [] module_heap
    = Some (VRef 3%nat,
            [OArr [VNum 0; VNum 50];
             OArr [];
             OObj [("operator", VStr "or"); ("operands", VRef 1%nat)];
             OObj [("operation", VRef 2%nat)]]) ∧
  And [] module_heap ≠ None ∧ Or [] module_heap ≠ None.
Proof. by split_and!. Qed.

(** ** [JSON.parse] allocates, and only allocates *)

Lemma json_nested_ind (P : json → Prop) :
  P JNull → (∀ b, P (JBool b)) → (∀ n, P (JNum n)) → (∀ s, P (JStr s)) →
  (∀ items, Forall P items → P (JArr items)) →
  (∀ members, Forall (λ kj, P kj.2) members → P (JObj members)) →
  ∀ j, P j.
Proof.
  intros Hnull Hbool Hnum Hstr Harr Hobj. fix IH 1. intros [| | | |items|members].
  - exact Hnull.
  - apply Hbool.
  - apply Hnum.
  - apply Hstr.
  - apply Harr. induction items as [|j items IHitems]; constructor.
    + apply IH.
    + exact IHitems.
  - apply Hobj. induction members as [|[k j] members IHmembers]; constructor.
    + apply IH.
    + exact IHmembers.
Qed.

Lemma val_above_le L L' v : (L ≤ L')%nat → val_above L' v → val_above L v.
Proof. destruct v; simpl; try done. lia. Qed.

Lemma cell_above_le L L' o : (L ≤ L')%nat → cell_above L' o → cell_above L o.
Proof.
  intros Hle Hc. unfold cell_above. eapply Forall_impl; [exact Hc|].
  intros v. by apply val_above_le.
Qed.

Lemma define_values k (x : val) ps v :
  v ∈ (define k x ps).*2 → v = x ∨ v ∈ ps.*2.
Proof.
  induction ps as [|[k' v'] ps IH]; simpl.
  - intros Hv. apply list_elem_of_singleton in Hv. by left.
  - destruct (String.eqb k k'); simpl.
    + intros [->|Hv]%elem_of_cons; [by left|]. right. by right.
    + intros [->|Hv]%elem_of_cons; [right; by left|].
      destruct (IH Hv) as [->|Hin]; [by left|]. right. by right.
Qed.

Lemma foldl_define_values (ps acc : props) v :
  v ∈ (foldl (λ acc kv, define kv.1 kv.2 acc) acc ps).*2 →
  v ∈ acc.*2 ∨ v ∈ ps.*2.
Proof.
  revert acc. induction ps as [|[k x] ps IH]; intros acc; simpl.
  - by left.
  - intros Hv. destruct (IH _ Hv) as [Hacc|Hps].
    + destruct (define_values _ _ _ _ Hacc) as [->|Hin]; [right; by left|].
      by left.
    + right. by right.
Qed.

Lemma seqM_spec {A B} (f : A → M B) (Q : B → loc → Prop) (l : list A) (h : heap) :
  (∀ y L L', (L ≤ L')%nat → Q y L' → Q y L) →
  Forall (λ x, ∀ h : heap, ∃ y ext,
            f x h = Some (y, h ++ ext) ∧ Q y (length h) ∧
            Forall (cell_above (length h)) ext) l →
  ∃ ys ext,
    seqM f l h = Some (ys, h ++ ext) ∧
    Forall (λ y, Q y (length h)) ys ∧ Forall (cell_above (length h)) ext.
Proof.
  intros Hmono Hl. revert h. induction Hl as [|x l Hx _ IH]; intros h.
  - exists [], []. rewrite app_nil_r. by split_and!.
  - destruct (Hx h) as (y & ext1 & Hy & HQ & Hext1).
    destruct (IH (h ++ ext1)) as (ys & ext2 & Hys & HQs & Hext2).
    exists (y :: ys), (ext1 ++ ext2).
    cbn [seqM]. unfold bind. rewrite Hy. fold (seqM f). rewrite Hys.
    rewrite app_assoc. split; [done|].
    rewrite length_app in HQs, Hext2. split.
    + constructor; [done|]. eapply Forall_impl; [exact HQs|].
      intros z. apply Hmono. lia.
    + apply Forall_app. split; [done|].
      eapply Forall_impl; [exact Hext2|].
      intros z. apply cell_above_le. lia.
Qed.

Lemma parse_JArr items :
  parse (JArr items) = (vs ←ₘ seqM parse items; new (OArr vs)).
Proof. done. Qed.

Lemma parse_JObj members :
  parse (JObj members)
  = (ps ←ₘ seqM (λ kj, v ←ₘ parse kj.2; ret (kj.1, v)) members;
     new (OObj (foldl (λ acc kv, define kv.1 kv.2 acc) [] ps))).
Proof. done. Qed.

(** [parse] always returns; it extends the heap with cells that mention new
    cells only, and its result is a primitive or one of them. *)
Lemma parse_spec j (h : heap) :
  ∃ v ext,
    parse j h = Some (v, h ++ ext) ∧
    val_above (length h) v ∧ Forall (cell_above (length h)) ext.
Proof.
  revert h. induction j as [| b | n | s | items IH | members IH]
    using json_nested_ind; intros h;
    try (eexists _, []; rewrite app_nil_r; by split_and!).
  - destruct (seqM_spec parse (λ v L, val_above L v) items h)
      as (vs & ext & Hvs & Havs & Hext).
    { intros y L L'. apply val_above_le. }
    { eapply Forall_impl; [exact IH|]. intros j Hj. exact Hj. }
    exists (VRef (length (h ++ ext))), (ext ++ [OArr vs]).
    rewrite parse_JArr. unfold bind. rewrite Hvs, new_run, app_assoc.
    split; [done|]. split; [simpl; rewrite length_app; lia|].
    apply Forall_app. split; [done|]. by repeat constructor.
  - destruct (seqM_spec (λ kj, v ←ₘ parse kj.2; ret (kj.1, v))
                (λ kv L, val_above L kv.2) members h)
      as (ps & ext & Hps & Haps & Hext).
    { intros y L L'. apply val_above_le. }
    { eapply Forall_impl; [exact IH|]. intros [k j] Hj h0. simpl in *.
      destruct (Hj h0) as (v & ext & Hv & Hav & Hext).
      exists (k, v), ext. unfold bind. by rewrite Hv. }
    exists (VRef (length (h ++ ext))),
      (ext ++ [OObj (foldl (λ acc kv, define kv.1 kv.2 acc) [] ps)]).
    rewrite parse_JObj. unfold bind at 1. rewrite Hps, new_run, app_assoc.
    split; [done|]. split; [simpl; rewrite length_app; lia|].
    apply Forall_app. split; [done|]. constructor; [|done].
    unfold cell_above. simpl. apply Forall_forall. intros v Hv.
    apply foldl_define_values in Hv as [Hv|Hv]; [by apply elem_of_nil in Hv|].
    apply list_elem_of_fmap in Hv as (kv & -> & Hkv).
    rewrite Forall_forall in Haps. by apply Haps.
Qed.

(** ** [copy] *)

Lemma reach_above (h0 ext : heap) v l :
  Forall (cell_above (length h0)) ext → val_above (length h0) v →
  reach (h0 ++ ext) v l → (length h0 ≤ l)%nat.
Proof.
  intros Hext Hv Hreach. induction Hreach as [l o Hl | l o v l' Hl Hin _ IH].
  - exact Hv.
  - apply IH. simpl in Hv.
    rewrite lookup_app_r in Hl by done.
    apply list_elem_of_lookup_2 in Hl.
    rewrite Forall_forall in Hext. specialize (Hext o Hl).
    unfold cell_above in Hext. rewrite Forall_forall in Hext. by apply Hext.
Qed.

Lemma Query_new_extends (h : heap) nq h1 :
  Query_new h = Some (nq, h1) → ∃ cells, h1 = h ++ cells.
Proof.
  unfold Query_new, bind, new, alloc, ret, spreadM.
  destruct (spread _ DEFAULT_RANGE) as [dr|]; [|done].
  intros [= _ <-]. rewrite <- !app_assoc. by eexists.
Qed.

Lemma copy_inv n this (h : heap) c h' :
  copy n this h = Some (c, h') →
  ∃ cells ext j v,
    h' = (h ++ cells) ++ ext ∧
    to_json n (h ++ cells) (query this) = Some (Some j) ∧
    c = {| query := v; url := url this |} ∧
    val_above (length (h ++ cells)) v ∧
    Forall (cell_above (length (h ++ cells))) ext.
Proof.
  unfold copy, bind. destruct (Query_new h) as [[nq h1]|] eqn:Hnew; [|done].
  apply Query_new_extends in Hnew as [cells ->].
  unfold json_clone.
  destruct (to_json n _ (query this)) as [[j|]|] eqn:Hj; try done.
  destruct (parse_spec j (h ++ cells)) as (v & ext & Hv & Hav & Hext).
  rewrite Hv. intros [= <- <-]. by exists cells, ext, j, v.
Qed.

(** What a returned copy satisfies. *)
Lemma copy_frame n this (h : heap) c h' :
  copy n this h = Some (c, h') →
  url c = url this ∧
  (∀ l, (l < length h)%nat → h' !! l = h !! l) ∧
  (∀ l, reach h' (query c) l → h !! l = None) ∧
  (∀ l o, reach h' (query c) l →
     (∀ l', reach h (query this) l' → <[l := o]> h' !! l' = h !! l') ∧
     (∀ k r, to_json k h (query this) = Some r →
             to_json k (<[l := o]> h') (query this) = Some r)) ∧
  (∀ l o, reach h (query this) l →
     (∀ l', reach h' (query c) l' → <[l := o]> h' !! l' = h' !! l') ∧
     (∀ k r, to_json k h' (query c) = Some r →
             to_json k (<[l := o]> h') (query c) = Some r)).
Proof.
  intros Hcopy.
  apply copy_inv in Hcopy
    as (cells & ext & j & v & -> & Hj & -> & Hav & Hext).
  assert (Hold : ∀ l, (l < length h)%nat → ((h ++ cells) ++ ext) !! l = h !! l).
  { intros l Hl. rewrite <- app_assoc. by apply lookup_app_l. }
  assert (Hnew : ∀ l, reach ((h ++ cells) ++ ext) v l → (length h ≤ l)%nat).
  { intros l Hl. apply reach_above in Hl; [|done..].
    rewrite length_app in Hl. lia. }
  simpl. split; [done|]. split; [exact Hold|]. split.
  { intros l Hl. apply lookup_ge_None. by apply Hnew. }
  split.
  - intros l o Hl. apply Hnew in Hl.
    assert (Horig : ∀ l', reach h (query this) l' →
              <[l := o]> ((h ++ cells) ++ ext) !! l' = h !! l').
    { intros l' Hl'. apply reach_allocated in Hl'.
      rewrite list_lookup_insert_ne by lia. by apply Hold. }
    split; [exact Horig|].
    intros k r Hr. by apply (to_json_agree k h).
  - intros l o Hl. apply reach_allocated in Hl.
    assert (Hcopy : ∀ l', reach ((h ++ cells) ++ ext) v l' →
              <[l := o]> ((h ++ cells) ++ ext) !! l' = ((h ++ cells) ++ ext) !! l').
    { intros l' Hl'. apply Hnew in Hl'. by rewrite list_lookup_insert_ne by lia. }
    split; [exact Hcopy|].
    intros k r Hr. by apply (to_json_agree k ((h ++ cells) ++ ext)).
Qed.

Lemma spread_extend (h ext : heap) v a :
  spread h v = Some a → spread (h ++ ext) v = Some a.
Proof.
  destruct v as [| | | | |l]; try done. simpl.
  destruct (h !! l) as [o|] eqn:Hl; [|done].
  by rewrite (lookup_app_l_Some _ _ _ _ Hl).
Qed.

Lemma Query_new_returns (h : heap) :
  is_Some (spread h DEFAULT_RANGE) →
  ∃ nq cells, Query_new h = Some (nq, h ++ cells).
Proof.
  intros [dr Hdr]. unfold Query_new, bind, new, alloc, ret, spreadM.
  rewrite <- !app_assoc. rewrite (spread_extend h _ _ _ Hdr).
  rewrite <- !app_assoc. by eexists _, _.
Qed.



(** ** The execution methods *)

Lemma init_range_run this (h : heap) q ps :
  query this = VRef q → h !! q = Some (OObj ps) →
  is_Some (spread h DEFAULT_RANGE) →
  ∃ h1 ps1,
    init_range this h = Some (tt, h1) ∧
    h1 !! q = Some (OObj ps1) ∧
    (∀ k, k ≠ "range" → read k ps1 = read k ps) ∧
    (∀ l o, h !! l = Some o → l ≠ q → h1 !! l = Some o).
Proof.
  intros Hq Hps [dr Hdr]. pose proof (lookup_lt_Some _ _ _ Hps) as Hlt.
  unfold init_range, bind. rewrite Hq, (getM_run q _ ps) by done.
  destruct (truthy (read "range" ps)).
  - by exists h, ps.
  - unfold spreadM. rewrite Hdr, new_run.
    rewrite (setM_run q _ _ ps) by (by rewrite lookup_app_l).
    eexists _, _. split; [done|].
    split; [by rewrite list_lookup_insert_eq by (rewrite length_app; lia)|].
    split; [intros k Hk; by rewrite read_define_ne|].
    intros l o Hl Hne. rewrite list_lookup_insert_ne by done.
    by apply lookup_app_l_Some.
Qed.

(** [getScannerDataRaw] on a builder in order: one request is sent, and the
    next outcome of the transport decides the result. *)
Lemma getScannerDataRaw_run fuel config this w q ps outcome rest :
  query this = VRef q → store w !! q = Some (OObj ps) →
  is_Some (spread (store w) DEFAULT_RANGE) →
  pending w = outcome :: rest →
  ∃ h1 ps1 req,
    getScannerDataRaw fuel config this w
    = Some (match outcome with
            | Resolved response_data => Return response_data
            | Rejected (Error_ _ (Some response)) =>
                Throw (Error_ (http_error_message response) None)
            | Rejected error => Throw error
            end,
            {| store := h1; pending := rest; sent := sent w ++ [req] |}) ∧
    h1 !! q = Some (OObj ps1) ∧
    (∀ k, k ≠ "range" → read k ps1 = read k ps) ∧
    (∀ l o, store w !! l = Some o → l ≠ q → h1 !! l = Some o).
Proof.
  intros Hq Hps Hdr Hpending.
  destruct (init_range_run this (store w) q ps Hq Hps Hdr)
    as (h1 & ps1 & Hinit & Hps1 & Hkeep & Hframe).
  exists h1, ps1. eexists. split; [|done].
  unfold getScannerDataRaw. rewrite Hinit. simpl. rewrite Hpending.
  destruct outcome as [?|[? [?|]|?]]; done.
Qed.

Lemma mapM_total {A B} (f : A → option B) (g : A → B) (l : list A) :
  (∀ x, f x = Some (g x)) → mapM f l = Some (g <$> l).
Proof.
  intros Hfg. induction l as [|x l IH]; [done|].
  simpl. by rewrite Hfg, IH.
Qed.

(** C5.  When the response has no [data] array, or an empty one, and
    [totalCount] is [N ≥ 0], [getScannerData] returns
    [{totalCount: N, data: []}] and does not throw. *)
Theorem missing_data_is_empty_result fuel config this w ps (N : Z) dat rest :
  document (store w) this = Some ps →
  is_Some (spread (store w) DEFAULT_RANGE) →
  pending w = Resolved {| totalCount := N; data := dat |} :: rest →
  dat = None ∨ dat = Some [] →
  0 ≤ N →
  ∃ w',
    getScannerData fuel config this w
    = Some (Return {| Result.totalCount := N; Result.data := [] |}, w').
Proof.
  intros Hdoc Hdr Hpending Hdat _.
  apply document_Some in Hdoc as (q & Hq & Hps & _).
  destruct (getScannerDataRaw_run fuel config this w q ps _ rest
              Hq Hps Hdr Hpending) as (h1 & ps1 & req & Hraw & Hps1 & _).
  eexists. unfold getScannerData. rewrite Hraw. simpl.
  destruct Hdat as [-> | ->]; [done|].
  unfold get_prop. rewrite Hq, Hps1. done.
Qed.

Lemma append_assoc (s1 s2 s3 : string) :
  (s1 +:+ s2) +:+ s3 = s1 +:+ s2 +:+ s3.
Proof.
  induction s1 as [|c s1 IH]; [done|].
  change (String c ((s1 +:+ s2) +:+ s3) = String c (s1 +:+ s2 +:+ s3)).
  by rewrite IH.
Qed.

Lemma append_nil_r (s : string) : s +:+ EmptyString = s.
Proof.
  induction s as [|c s IH]; [done|].
  change (String c (s +:+ EmptyString) = String c s). by rewrite IH.
Qed.

Lemma contains_http_error_message (r : Response) :
  contains (pretty (status r)) (http_error_message r) ∧
  contains (stringify_in_template (body r)) (http_error_message r).
Proof.
  unfold http_error_message. split.
  - by exists "HTTP ", (": " +:+ statusText r +:+ String "010"%char
                    ("Body: " +:+ stringify_in_template (body r))).
  - exists ("HTTP " +:+ pretty (status r) +:+ ": " +:+ statusText r
              +:+ String "010"%char "Body: "), EmptyString.
    rewrite append_nil_r, !append_assoc. done.
Qed.

(** What the catch block of [getScannerDataRaw] does.  When the transport
    rejects, [getScannerDataRaw] and [getScannerData] both reject with the
    same single error, after exactly one request.  If the rejection is an
    [Error] that carries a response object, whatever its status, the error
    is a new [Error] whose message holds the status code and the JSON text
    of the response body; any other rejection is thrown again as it is. *)
Theorem transport_failure_rejects fuel config this w ps e rest :
  document (store w) this = Some ps →
  is_Some (spread (store w) DEFAULT_RANGE) →
  pending w = Rejected e :: rest →
  ∃ e' w',
    getScannerDataRaw fuel config this w = Some (Throw e', w') ∧
    getScannerData fuel config this w = Some (Throw e', w') ∧
    pending w' = rest ∧ (∃ req, sent w' = sent w ++ [req]) ∧
    (∀ msg r, e = Error_ msg (Some r) →
       ∃ message,
         e' = Error_ message None ∧
         contains (pretty (status r)) message ∧
         contains (stringify_in_template (body r)) message) ∧
    ((∀ msg r, e ≠ Error_ msg (Some r)) → e' = e).
Proof.
  intros Hdoc Hdr Hpending.
  apply document_Some in Hdoc as (q & Hq & Hps & _).
  destruct (getScannerDataRaw_run fuel config this w q ps _ rest
              Hq Hps Hdr Hpending) as (h1 & ps1 & req & Hraw & _).
  exists (match e with
          | Error_ _ (Some response) =>
              Error_ (http_error_message response) None
          | _ => e
          end).
  eexists. split; [|split; [|split; [|split; [|split]]]].
  - rewrite Hraw. by destruct e as [msg [r|]|v].
  - unfold getScannerData. rewrite Hraw. simpl.
    by destruct e as [msg [r|]|v].
  - done.
  - by exists req.
  - intros msg r ->. eexists. split; [done|].
    apply contains_http_error_message.
  - intros Hne. destruct e as [msg [r|]|v]; [by destruct (Hne msg r)|done..].
Qed.

(** C6.  The catch block aims at an error whose message holds the status
    and the body, and misses it for the transport that the module imports:
    [redaxios] rejects a response that is not ok with the response object
    itself, not with an [Error] that carries it.  The guard
    [error instanceof Error] then fails, and both methods throw the response
    object again as it is: the caller gets no [Error] and no message.  Here
    the server has answered 400 to [new Query().getScannerDataRaw()]. *)
Lemma bare_response_counterexample :
  let this := new_Query_state.1 in
  let response :=
    JObj [("status", JNum 400); ("statusText", JStr "Bad Request");
          ("data", JObj [("error", JStr "Unknown field")])] in
  let e := NotAnError (Some response) in
  let w := new_Query_world [Rejected e] in
  ∃ w',
    getScannerDataRaw 4 default_config this w = Some (Throw e, w') ∧
    getScannerData 4 default_config this w = Some (Throw e, w') ∧
    ∀ message r, e ≠ Error_ message r.
Proof.
  cbv zeta. eexists. split; [reflexivity|]. split; [reflexivity|]. done.
Qed.

Lemma eqb_false_of_ne (a b : string) : a ≠ b → String.eqb a b = false.
Proof. intros Hne. by apply String.eqb_neq. Qed.

(** One row against three distinct column names, none of them [ticker] or
    [__proto__]. *)
Lemma remap_row_three (h : heap) l c1 c2 c3 row :
  h !! l = Some (OArr [VStr c1; VStr c2; VStr c3]) →
  NoDup ["ticker"; c1; c2; c3] →
  Forall (λ c, c ≠ "__proto__") [c1; c2; c3] →
  remap_row h (VRef l) row
  = Some [("ticker", Some (JStr (Row.s row)));
          (c1, Row.d row !! 0%nat);
          (c2, Row.d row !! 1%nat);
          (c3, Row.d row !! 2%nat)].
Proof.
  intros Hl Hnodup Hproto.
  rewrite !Forall_cons in Hproto. destruct Hproto as (Hp1 & Hp2 & Hp3 & _).
  rewrite !NoDup_cons in Hnodup. destruct Hnodup as (Ht & H1 & H2 & _).
  repeat rewrite not_elem_of_cons in Ht.
  repeat rewrite not_elem_of_cons in H1.
  repeat rewrite not_elem_of_cons in H2.
  destruct Ht as (Ht1 & Ht2 & Ht3 & _), H1 as (H12 & H13 & _), H2 as (H23 & _).
  unfold remap_row. simpl. rewrite Hl. simpl.
  unfold assign. rewrite !eqb_false_of_ne by done. simpl.
  rewrite (eqb_false_of_ne c1 "ticker") by done. simpl.
  rewrite (eqb_false_of_ne c2 "ticker"), (eqb_false_of_ne c2 c1) by done.
  simpl.
  by rewrite (eqb_false_of_ne c3 "ticker"), (eqb_false_of_ne c3 c1),
    (eqb_false_of_ne c3 c2) by done.
Qed.

(** C4 (amended).  For a document whose [columns] are three distinct names
    [c1], [c2], [c3], none of them [ticker] or [__proto__]: on a response
    with any rows, [getScannerData] returns one record per row, and the row
    [{s: X, d: [v1, v2, v3]}] gives the record
    [{ticker: X, c1: v1, c2: v2, c3: v3}]. *)
Theorem response_rows_remapped fuel config this w ps (N : Z) rows rest c1 c2 c3 :
  document (store w) this = Some ps →
  is_Some (spread (store w) DEFAULT_RANGE) →
  array_field (store w) this "columns" = Some [VStr c1; VStr c2; VStr c3] →
  NoDup ["ticker"; c1; c2; c3] →
  Forall (λ c, c ≠ "__proto__") [c1; c2; c3] →
  pending w = Resolved {| totalCount := N; data := Some rows |} :: rest →
  ∃ result w',
    getScannerData fuel config this w = Some (Return result, w') ∧
    Result.totalCount result = N ∧
    length (Result.data result) = length rows ∧
    ∀ i X v1 v2 v3,
      rows !! i = Some {| Row.s := X; Row.d := [v1; v2; v3] |} →
      Result.data result !! i
      = Some [("ticker", Some (JStr X));
              (c1, Some v1); (c2, Some v2); (c3, Some v3)].
Proof.
  intros Hdoc Hdr Hcols Hnodup Hproto Hpending.
  apply document_Some in Hdoc as (q & Hq & Hps & _).
  assert (∃ l, read "columns" ps = VRef l ∧
               store w !! l = Some (OArr [VStr c1; VStr c2; VStr c3]))
    as (l & Hcol & Hl).
  { unfold array_field, get_prop in Hcols. rewrite Hq, Hps in Hcols.
    simpl in Hcols. unfold spread in Hcols.
    destruct (read "columns" ps) as [| | | | |l]; try done.
    exists l. split; [done|].
    destruct (store w !! l) as [[xs|]|]; try done. congruence. }
  destruct (getScannerDataRaw_run fuel config this w q ps _ rest
              Hq Hps Hdr Hpending)
    as (h1 & ps1 & req & Hraw & Hps1 & Hkeep & Hframe).
  assert (Hl1 : h1 !! l = Some (OArr [VStr c1; VStr c2; VStr c3])).
  { apply Hframe; [done|]. congruence. }
  eexists _, _. split.
  - unfold getScannerData. rewrite Hraw. simpl.
    unfold get_prop. rewrite Hq, Hps1. simpl.
    rewrite Hkeep, Hcol by done.
    rewrite (mapM_total _ _ rows
               (λ row, remap_row_three h1 l c1 c2 c3 row Hl1 Hnodup Hproto)).
    done.
  - simpl. split; [done|]. split; [by rewrite length_fmap|].
    intros i X v1 v2 v3 Hi. rewrite list_lookup_fmap, Hi. done.
Qed.

(** C4, as stated, fails when a column is itself named [ticker]: after
    [select('ticker', 'close', 'volume')] the first value of the row takes
    the place of the identifier [X:Y]. *)
Lemma ticker_column_counterexample :
  let this := new_Query_state.1 in
  let row := {| Row.s := "X:Y"; Row.d := [JStr "AAPL"; JNum 1; JNum 2] |} in
  let response := {| totalCount := 1; data := Some [row] |} in
  ∃ this' h' w',
    select [AStr "ticker"; AStr "close"; AStr "volume"] this
      new_Query_state.2 = Some (this', h') ∧
    array_field h' this' "columns"
      = Some [VStr "ticker"; VStr "close"; VStr "volume"] ∧
    getScannerData 0 default_config this'
      {| store := h'; pending := [Resolved response]; sent := [] |}
    = Some (Return {| Result.totalCount := 1;
                      Result.data :=
                        [[("ticker", Some (JStr "AAPL"));
                          ("close", Some (JNum 1));
                          ("volume", Some (JNum 2))]] |}, w') ∧
    get_own "ticker" [("ticker", Some (JStr "AAPL"));
                      ("close", Some (JNum 1));
                      ("volume", Some (JNum 2))]
      ≠ Some (Some (JStr "X:Y")).
Proof.
  cbv zeta. eexists _, _, _. split; [reflexivity|].
  split; [reflexivity|]. split; [reflexivity|]. discriminate.
Qed.

(** ** The theorems at sample states *)



Lemma response_rows_remapped_witness :
  let this := three_columns_state.1 in
  let row := {| Row.s := "X:Y"; Row.d := [JStr "AAPL"; JNum 1; JNum 2] |} in
  let w := {| store := three_columns_state.2;
              pending := [Resolved {| totalCount := 1; data := Some [row] |}];
              sent := [] |} in
  (document (store w) this = Some three_columns_document ∧
   is_Some (spread (store w) DEFAULT_RANGE) ∧
   array_field (store w) this "columns"
     = Some [VStr "name"; VStr "close"; VStr "volume"] ∧
   NoDup ["ticker"; "name"; "close"; "volume"] ∧
   Forall (λ c, c ≠ "__proto__") ["name"; "close"; "volume"] ∧
   pending w = [Resolved {| totalCount := 1; data := Some [row] |}]) ∧
  ∃ result w',
    getScannerData 4 default_config this w = Some (Return result, w') ∧
    Result.totalCount result = 1 ∧
    length (Result.data result) = length [row] ∧
    ∀ i X v1 v2 v3,
      [row] !! i = Some {| Row.s := X; Row.d := [v1; v2; v3] |} →
      Result.data result !! i
      = Some [("ticker", Some (JStr X));
              ("name", Some v1); ("close", Some v2); ("volume", Some v3)].
Proof.
  intros this row w.
  assert (Hnodup : NoDup ["ticker"; "name"; "close"; "volume"])
    by (by apply (bool_decide_unpack _)).
  assert (Hproto : Forall (λ c, c ≠ "__proto__") ["name"; "close"; "volume"])
    by (by repeat constructor).
  split; [by split_and!|].
  by apply (response_rows_remapped 4 default_config this w
              three_columns_document 1 [row] []).
Defined.

Lemma missing_data_is_empty_result_witness :
  let this := new_Query_state.1 in
  let w := new_Query_world [Resolved {| totalCount := 0; data := None |}] in
  (document (store w) this = Some new_Query_document ∧
   is_Some (spread (store w) DEFAULT_RANGE) ∧
   pending w = [Resolved {| totalCount := 0; data := None |}] ∧
   (@None (list ScreenerRowDict) = None ∨ @None (list ScreenerRowDict) = Some []) ∧
   0 ≤ 0) ∧
  ∃ w',
    getScannerData 4 default_config this w
    = Some (Return {| Result.totalCount := 0; Result.data := [] |}, w').
Proof.
  intros this w. split; [split_and!; [done|done|done|by left|lia]|].
  apply (missing_data_is_empty_result 4 default_config this w
           new_Query_document 0 None []); [done|done|done|by left|lia].
Defined.

Lemma transport_failure_rejects_witness :
  let this := new_Query_state.1 in
  let e := Error_ "Request failed"
             (Some {| status := 400; statusText := "Bad Request";
                      body := Some (JObj [("error", JStr "Unknown field")]) |}) in
  let w := new_Query_world [Rejected e] in
  (document (store w) this = Some new_Query_document ∧
   is_Some (spread (store w) DEFAULT_RANGE) ∧
   pending w = [Rejected e]) ∧
  ∃ e' w',
    getScannerDataRaw 4 default_config this w = Some (Throw e', w') ∧
    getScannerData 4 default_config this w = Some (Throw e', w') ∧
    pending w' = [] ∧ (∃ req, sent w' = sent w ++ [req]) ∧
    (∀ msg r, e = Error_ msg (Some r) →
       ∃ message,
         e' = Error_ message None ∧
         contains (pretty (status r)) message ∧
         contains (stringify_in_template (body r)) message) ∧
    ((∀ msg r, e ≠ Error_ msg (Some r)) → e' = e).
Proof.
  intros this e w. split; [by split_and!|].
  by apply (transport_failure_rejects 4 default_config this w
              new_Query_document e []).
Defined.


Lemma limit_offset_range_witness :
  let this := new_Query_state.1 in
  let h := new_Query_state.2 in
  let ps := new_Query_document in
  let n := 10 in
  let m := 5 in
  (document h this = Some ps ∧
   h !! 0%nat = Some (OArr [VNum 0; VNum 50]) ∧
   optional_pair h (read "range" ps)) ∧
  (∃ this' h',
     (this1 ←ₘ limit n this; offset m this1) h = Some (this', h') ∧
     (this1 ←ₘ offset m this; limit n this1) h = Some (this', h') ∧
     array_field h' this' "range" = Some [VNum m; VNum n]) ∧
  (∀ a b, array_field h this "range" = Some [a; b] →
     (∃ this' h', limit n this h = Some (this', h') ∧
        array_field h' this' "range" = Some [a; VNum n]) ∧
     (∃ this' h', offset m this h = Some (this', h') ∧
        array_field h' this' "range" = Some [VNum m; b])) ∧
  (truthy (read "range" ps) = false →
     (∃ this' h' l, limit n this h = Some (this', h') ∧
        get_prop h' (query this') "range" = Some (VRef l) ∧
        h !! l = None ∧ VRef l ≠ DEFAULT_RANGE ∧
        h' !! l = Some (OArr [VNum 0; VNum n]) ∧
        spread h' DEFAULT_RANGE = Some [VNum 0; VNum 50]) ∧
     (∃ this' h' l, offset m this h = Some (this', h') ∧
        get_prop h' (query this') "range" = Some (VRef l) ∧
        h !! l = None ∧ VRef l ≠ DEFAULT_RANGE ∧
        h' !! l = Some (OArr [VNum m; VNum 50]) ∧
        spread h' DEFAULT_RANGE = Some [VNum 0; VNum 50])).
Proof.
  intros this h ps n m.
  assert (Hpair : optional_pair h (read "range" ps))
    by (right; by exists 9%nat, (VNum 0), (VNum 50)).
  split; [by split_and!|].
  by apply (limit_offset_range this h ps n m).
Defined.


(** ** Calls on one builder leave the cells of another alone *)

Section region.
Variables (lo hi : loc) (q : loc).
Hypothesis Hq : outside lo hi (VRef q).

Lemma keeps_ret {A} (a : A) (Q : A → Prop) : Q a → keeps lo hi q (ret a) Q.
Proof. intros HQ h a' h' HG [= <- <-]. done. Qed.

Lemma keeps_bind {A B} (m : M A) (k : A → M B) (Q : A → Prop) (Q' : B → Prop) :
  keeps lo hi q m Q → (∀ a, Q a → keeps lo hi q (k a) Q') →
  keeps lo hi q (bind m k) Q'.
Proof.
  intros Hm Hk h b h' HG Hrun. unfold bind in Hrun.
  destruct (m h) as [[a h1]|] eqn:Hmh; [|done].
  destruct (Hm h a h1 HG Hmh) as (HG1 & Hf1 & HQ).
  destruct (Hk a HQ h1 b h' HG1 Hrun) as (HG' & Hf' & HQ').
  split; [done|]. split; [|done].
  intros l Hl. by rewrite Hf', Hf1.
Qed.

Lemma keeps_weaken {A} (m : M A) (Q Q' : A → Prop) :
  keeps lo hi q m Q → (∀ a, Q a → Q' a) → keeps lo hi q m Q'.
Proof.
  intros Hm HQ h a h' HG Hrun.
  destruct (Hm h a h' HG Hrun) as (? & ? & ?). auto.
Qed.

Lemma keeps_new o : keeps lo hi q (new o) (outside lo hi).
Proof.
  intros h a h' (ps & Hps & Hr & Hs & Hhi) [= <- <-].
  pose proof (lookup_lt_Some _ _ _ Hps).
  split; [|split].
  - exists ps. rewrite lookup_app_l by done.
    split_and!; [done..|]. rewrite length_app. lia.
  - intros l Hl. apply lookup_app_l. lia.
  - simpl. by right.
Qed.

Lemma keeps_spreadM v : keeps lo hi q (spreadM v) (λ _, True).
Proof.
  intros h a h' HG Hrun. unfold spreadM in Hrun.
  destruct (spread h v); [|done]. by injection Hrun as <- <-.
Qed.

Lemma keeps_getM_doc k :
  keeps lo hi q (getM (VRef q) k)
    (λ v, k = "range" ∨ k = "symbols" → outside lo hi v).
Proof.
  intros h a h' (ps & Hps & Hr & Hs & Hhi) Hrun.
  rewrite (getM_run q k ps) in Hrun by done. injection Hrun as <- <-.
  split; [by exists ps|]. split; [done|].
  by intros [-> | ->].
Qed.

Lemma keeps_getM v k : keeps lo hi q (getM v k) (λ _, True).
Proof.
  intros h a h' HG Hrun. unfold getM in Hrun.
  destruct (get_prop h v k); [|done]. by injection Hrun as <- <-.
Qed.

(** A write to a property of an object outside the region. *)
Lemma keeps_setM v k x :
  outside lo hi v →
  (v = VRef q → (k = "range" ∨ k = "symbols") → outside lo hi x) →
  keeps lo hi q (setM v k x) (λ _, True).
Proof.
  intros Hv Hx h a h' (ps & Hps & Hr & Hs & Hhi) Hrun.
  unfold setM, set_prop in Hrun.
  destruct v as [| | | | |l]; try done.
  destruct (h !! l) as [[|fs]|] eqn:Hl; try done.
  injection Hrun as <- <-.
  split; [|split; [|done]].
  - destruct (decide (l = q)) as [->|Hne].
    + assert (fs = ps) as -> by congruence.
      exists (define k x ps).
      rewrite list_lookup_insert_eq by (by eapply lookup_lt_Some).
      rewrite length_insert. split; [done|].
      destruct (decide (k = "range")) as [->|Hkr].
      * rewrite read_define_eq, read_define_ne by done. auto.
      * destruct (decide (k = "symbols")) as [->|Hks].
        -- rewrite read_define_eq, read_define_ne by done. auto.
        -- by rewrite !read_define_ne by done.
    + exists ps. rewrite list_lookup_insert_ne by done.
      by rewrite length_insert.
  - intros l' Hl'. simpl in Hv. rewrite list_lookup_insert_ne; [done|lia].
Qed.

(** A write to slot 0 or 1 of an array (or object) outside the region. *)
Lemma keeps_set_indexM v i x :
  outside lo hi v → (i < 2)%nat →
  keeps lo hi q (set_indexM v i x) (λ _, True).
Proof.
  intros Hv Hi h a h' (ps & Hps & Hr & Hs & Hhi) Hrun.
  unfold set_indexM, set_index in Hrun.
  destruct v as [| | | | |l]; try done.
  destruct (h !! l) as [[vs|fs]|] eqn:Hl; try done; injection Hrun as <- <-.
  - split; [|split; [|done]].
    + exists ps. rewrite list_lookup_insert_ne by congruence.
      by rewrite length_insert.
    + intros l' Hl'. simpl in Hv. rewrite list_lookup_insert_ne; [done|lia].
  - split; [|split; [|done]].
    + destruct (decide (l = q)) as [->|Hne].
      * assert (fs = ps) as -> by congruence.
        exists (define (pretty i) x ps).
        rewrite list_lookup_insert_eq by (by eapply lookup_lt_Some).
        rewrite length_insert. split; [done|].
        assert (pretty i ≠ "range" ∧ pretty i ≠ "symbols") as [??].
        { destruct i as [|[|i]]; [by split..|lia]. }
        by rewrite !read_define_ne by done.
      * exists ps. rewrite list_lookup_insert_ne by done.
        by rewrite length_insert.
    + intros l' Hl'. simpl in Hv. rewrite list_lookup_insert_ne; [done|lia].
Qed.
End region.

Section region_methods.
Variables (lo hi : loc) (q : loc).
Hypothesis Hq : outside lo hi (VRef q).

(** [this.query.k = <new cell>]. *)
Lemma keeps_store_new k o this :
  query this = VRef q →
  keeps lo hi q (arr ←ₘ new o; setM (query this) k arr ;ₘ ret this)
    (λ this', query this' = VRef q).
Proof.
  intros Hthis. rewrite Hthis.
  eapply keeps_bind; [apply keeps_new|]. intros arr Harr.
  eapply keeps_bind; [by apply keeps_setM|]. intros _ _.
  by apply keeps_ret.
Qed.

Lemma keeps_init_range this :
  query this = VRef q → keeps lo hi q (init_range this) (λ _, True).
Proof.
  intros Hthis. unfold init_range. rewrite Hthis.
  eapply keeps_bind; [apply keeps_getM_doc|]. intros r Hr.
  destruct (truthy r); [by apply keeps_ret|].
  eapply keeps_bind; [apply keeps_spreadM|]. intros dr _.
  eapply keeps_bind; [apply keeps_new|]. intros fresh Hfresh.
  by apply keeps_setM.
Qed.

Lemma keeps_range_slot i x this :
  query this = VRef q → (i < 2)%nat →
  keeps lo hi q (init_range this ;ₘ r ←ₘ getM (query this) "range";
                 set_indexM r i x ;ₘ ret this)
    (λ this', query this' = VRef q).
Proof.
  intros Hthis Hi.
  eapply keeps_bind; [by apply keeps_init_range|]. intros _ _.
  rewrite Hthis.
  eapply keeps_bind; [apply keeps_getM_doc|]. intros r Hr.
  eapply keeps_bind; [apply keeps_set_indexM; auto|]. intros _ _.
  by apply keeps_ret.
Qed.

Lemma keeps_setMarkets markets this :
  query this = VRef q →
  keeps lo hi q (setMarkets markets this) (λ this', query this' = VRef q).
Proof.
  intros Hthis.
  destruct markets as [|m [|m' ms]]; by apply keeps_store_new.
Qed.

Lemma keeps_init_symbols this :
  query this = VRef q → keeps lo hi q (init_symbols this) (λ _, True).
Proof.
  intros Hthis. unfold init_symbols. rewrite Hthis.
  eapply keeps_bind; [apply keeps_getM_doc|]. intros s Hs.
  destruct (truthy s); [by apply keeps_ret|].
  eapply keeps_bind; [apply keeps_new|]. intros fresh Hfresh.
  by apply keeps_setM.
Qed.

Lemma keeps_scope_symbols k names this :
  query this = VRef q → k ≠ "range" → k ≠ "symbols" →
  keeps lo hi q (init_symbols this ;ₘ
                 s ←ₘ getM (query this) "symbols";
                 arr ←ₘ new (OArr (map VStr names));
                 setM s k arr ;ₘ
                 setMarkets [] this)
    (λ this', query this' = VRef q).
Proof.
  intros Hthis Hkr Hks.
  eapply keeps_bind; [by apply keeps_init_symbols|]. intros _ _.
  rewrite Hthis.
  eapply keeps_bind; [apply keeps_getM_doc|]. intros s Hs.
  eapply keeps_bind; [apply keeps_new|]. intros arr Harr.
  eapply keeps_bind.
  { apply keeps_setM; auto; intros _ [?|?]; congruence. }
  intros _ _. by apply keeps_setMarkets.
Qed.

Lemma keeps_invoke c this :
  query this = VRef q →
  keeps lo hi q (invoke c this) (λ this', query this' = VRef q).
Proof.
  intros Hthis. destruct c; simpl.
  - by apply keeps_store_new.
  - by apply keeps_store_new.
  - unfold where2. rewrite Hthis.
    eapply keeps_bind; [apply keeps_getM|]. intros inner _.
    eapply keeps_bind;
      [apply keeps_setM; auto; intros _ [?|?]; congruence|]. intros _ _.
    by apply keeps_ret.
  - by apply keeps_store_new.
  - apply keeps_range_slot; [done|lia].
  - apply keeps_range_slot; [done|lia].
  - by apply keeps_setMarkets.
  - by apply keeps_scope_symbols.
  - unfold setIndex.
    eapply keeps_bind;
      [rewrite Hthis; apply keeps_setM; auto; intros _ [?|?]; congruence|].
    intros _ _. by apply keeps_scope_symbols.
Qed.

Lemma keeps_invoke_all cs this :
  query this = VRef q →
  keeps lo hi q (invoke_all cs this) (λ this', query this' = VRef q).
Proof.
  revert this. induction cs as [|c cs IH]; intros this Hthis; simpl.
  - by apply keeps_ret.
  - eapply keeps_bind; [by apply keeps_invoke|]. intros this' Hthis'.
    by apply IH.
Qed.
End region_methods.

(** ** [JSON.parse] after [JSON.stringify] gives the same JSON back *)

Lemma depth_JArr items :
  depth (JArr items) = S (foldr (λ j acc, Nat.max (depth j) acc) 0%nat items).
Proof. done. Qed.

Lemma depth_JObj members :
  depth (JObj members)
  = S (foldr (λ kj acc, Nat.max (depth kj.2) acc) 0%nat members).
Proof. done. Qed.

Lemma foldr_max_le {A} (f : A → nat) (l : list A) (n : nat) :
  Forall (λ x, f x ≤ n)%nat l ↔ (foldr (λ x acc, Nat.max (f x) acc) 0 l ≤ n)%nat.
Proof.
  induction l as [|x l IH]; simpl.
  - split; [lia|by constructor].
  - rewrite Forall_cons, IH. lia.
Qed.

Lemma foldr_and_Forall {A} (P : A → Prop) (l : list A) :
  foldr (λ x acc, P x ∧ acc) True l ↔ Forall P l.
Proof.
  induction l as [|x l IH]; simpl.
  - split; [by constructor|done].
  - by rewrite Forall_cons, IH.
Qed.

Lemma unique_keys_JArr items :
  unique_keys (JArr items) ↔ Forall unique_keys items.
Proof. apply foldr_and_Forall. Qed.

Lemma unique_keys_JObj members :
  unique_keys (JObj members)
  ↔ NoDup members.*1 ∧ Forall (λ kj, unique_keys kj.2) members.
Proof.
  change (unique_keys (JObj members))
    with (NoDup members.*1 ∧
          foldr (λ kj acc, unique_keys kj.2 ∧ acc) True members).
  by rewrite (foldr_and_Forall (λ kj, unique_keys kj.2)).
Qed.

(** What [to_json] returns is no deeper than the fuel and, in a heap whose
    objects have distinct keys, repeats no key. *)
Lemma to_json_depth_unique (h : heap) :
  heap_unique_keys h →
  ∀ n v j, to_json n h v = Some (Some j) → (depth j ≤ n)%nat ∧ unique_keys j.
Proof.
  intros Hwf. induction n as [|n IH]; intros v j Hj.
  - destruct v; simpl in Hj; try done; injection Hj as <-; by split.
  - destruct v as [| | | | |l]; simpl in Hj; try done;
      try (injection Hj as <-; split; [simpl; lia|done]).
    destruct (h !! l) as [[vs|ps]|] eqn:Hl; [| |done].
    + destruct (mapM _ vs) as [items|] eqn:Hitems; [|done].
      injection Hj as <-. apply mapM_Some_1 in Hitems.
      assert (Forall (λ item, (depth item ≤ n)%nat ∧ unique_keys item) items)
        as Hall.
      { clear Hl. induction Hitems as [|x item vs items Hx _ IHitems];
          constructor; [|done].
        simpl in Hx. destruct (to_json n h x) as [[jx|]|] eqn:Hjx;
          simpl in Hx; try done; injection Hx as <-; [by apply (IH x)|].
        split; [simpl; lia|done]. }
      rewrite depth_JArr, unique_keys_JArr. split.
      * apply le_n_S, foldr_max_le.
        eapply Forall_impl; [exact Hall|]. by intros ? [? _].
      * eapply Forall_impl; [exact Hall|]. by intros ? [_ ?].
    + destruct (mapM _ ps) as [members|] eqn:Hmembers; [|done].
      injection Hj as <-. apply mapM_Some_1 in Hmembers.
      assert (NoDup ps.*1) as Hnodup.
      { unfold heap_unique_keys in Hwf. rewrite Forall_forall in Hwf.
        apply list_elem_of_lookup_2 in Hl. by apply (Hwf (OObj ps)). }
      clear Hl.
      set (out := omap (λ kj : string * option json, pair kj.1 <$> kj.2) members).
      assert (Forall (λ kj, (depth kj.2 ≤ n)%nat ∧ unique_keys kj.2) out ∧
              out.*1 `sublist_of` ps.*1) as [Hall Hsub].
      { subst out.
        induction Hmembers as [|[k x] [k' r] ps members Hx _ IHm]; simpl.
        - split; [by constructor|done].
        - simpl in Hx. destruct (to_json n h x) as [rx|] eqn:Hrx; [|done].
          injection Hx as <- <-.
          apply NoDup_cons in Hnodup as [_ Hnodup].
          destruct (IHm Hnodup) as [Hall Hsub].
          destruct rx as [jx|]; simpl.
          + split; [constructor; [by apply (IH x)|done]|].
            by apply sublist_skip.
          + split; [done|]. by apply sublist_cons. }
      rewrite depth_JObj, unique_keys_JObj. split; [|split].
      * apply le_n_S, (foldr_max_le (λ kj, depth kj.2)).
        eapply Forall_impl; [exact Hall|]. by intros ? [? _].
      * by eapply sublist_NoDup.
      * eapply Forall_impl; [exact Hall|]. by intros ? [_ ?].
Qed.

Lemma seqM_roundtrip {A B} (f : A → M B) (Q : A → B → heap → Prop)
    (l : list A) (h : heap) ys h' :
  (∀ x y (h0 e : heap), Q x y h0 → Q x y (h0 ++ e)) →
  Forall (λ x, ∀ (h0 : heap) y h1, f x h0 = Some (y, h1) →
               ∃ e, h1 = h0 ++ e ∧ Q x y h1) l →
  seqM f l h = Some (ys, h') →
  ∃ e, h' = h ++ e ∧ Forall2 (λ x y, Q x y h') l ys.
Proof.
  intros Hext Hl. revert h ys h'.
  induction Hl as [|x l Hx _ IH]; intros h ys h' Hrun.
  - injection Hrun as <- <-. exists []. by rewrite app_nil_r.
  - cbn [seqM] in Hrun. unfold bind in Hrun.
    destruct (f x h) as [[y h1]|] eqn:Hy; [|done].
    fold (seqM f) in Hrun.
    destruct (seqM f l h1) as [[ys' h2]|] eqn:Hys; [|done].
    injection Hrun as <- <-.
    destruct (Hx h y h1 Hy) as (e1 & -> & HQ).
    destruct (IH _ _ _ Hys) as (e2 & -> & HQs).
    exists (e1 ++ e2). rewrite app_assoc. split; [done|].
    constructor; [by apply Hext|done].
Qed.

Lemma define_fresh {V} k (v : V) ps :
  k ∉ ps.*1 → define k v ps = ps ++ [(k, v)].
Proof.
  induction ps as [|[k' v'] ps IH]; simpl; [done|].
  intros Hk. apply not_elem_of_cons in Hk as [Hne Hk].
  rewrite eqb_false_of_ne by done. by rewrite IH.
Qed.

Lemma foldl_define_unique (ps acc : props) :
  NoDup (acc.*1 ++ ps.*1) →
  foldl (λ acc kv, define kv.1 kv.2 acc) acc ps = acc ++ ps.
Proof.
  revert acc. induction ps as [|[k v] ps IH]; intros acc Hnodup; simpl.
  - by rewrite app_nil_r.
  - simpl in Hnodup. rewrite define_fresh.
    + rewrite IH; [by rewrite <- app_assoc|].
      rewrite fmap_app. simpl. by rewrite <- app_assoc.
    + apply NoDup_app in Hnodup as (_ & Hdisj & _).
      intros Hin. apply (Hdisj k Hin). by left.
Qed.

Lemma omap_members (members : list (string * json)) :
  omap (λ kj : string * option json, pair kj.1 <$> kj.2)
    ((λ kj, (kj.1, Some kj.2)) <$> members) = members.
Proof.
  induction members as [|[k j] members IH]; [done|].
  csimpl. by f_equal.
Qed.

Lemma Forall2_Forall_impl {A B} (P : A → Prop) (Q R : A → B → Prop) l k :
  Forall P l → Forall2 Q l k → (∀ x y, P x → Q x y → R x y) →
  Forall2 R l k.
Proof.
  intros HP HQ HR. induction HQ as [|x y l k Hxy _ IH]; [done|].
  apply Forall_cons in HP as [Hx HP]. constructor; [by apply HR|by apply IH].
Qed.

(** [parse] builds cells whose JSON is the tree that was parsed. *)
Lemma parse_roundtrip j :
  unique_keys j →
  ∀ (h : heap) v h', parse j h = Some (v, h') →
    (∃ e, h' = h ++ e) ∧ to_json (depth j) h' v = Some (Some j).
Proof.
  induction j as [| b | n | s | items IH | members IH]
    using json_nested_ind; intros Hu h v h' Hrun;
    try (injection Hrun as <- <-; split; [exists []; by rewrite app_nil_r|done]).
  - apply unique_keys_JArr in Hu.
    rewrite parse_JArr in Hrun. unfold bind in Hrun.
    destruct (seqM parse items h) as [[vs h1]|] eqn:Hvs; [|done].
    injection Hrun as <- <-.
    destruct (seqM_roundtrip parse
                (λ j v h, to_json (depth j) h v = Some (Some j))
                items h vs h1) as (e & -> & Hall); [| |done|].
    { intros. by apply to_json_extend. }
    { apply Forall_forall. intros j Hj h0 y h2 Hy.
      rewrite Forall_forall in IH, Hu.
      destruct (IH j Hj (Hu j Hj) h0 y h2 Hy) as [[e0 ->] Hjv]. by exists e0. }
    split; [exists (e ++ [OArr vs]); by rewrite app_assoc|].
    rewrite depth_JArr.
    erewrite to_json_array; [done|by apply list_lookup_middle|].
    apply mapM_Some_2, Forall2_flip.
    assert (Forall (λ j, depth j ≤ foldr (λ j acc, Nat.max (depth j) acc) 0 items)%nat
              items) as Hdepth by (by apply foldr_max_le).
    eapply Forall2_Forall_impl; [exact Hdepth|exact Hall|].
    intros j v' Hd Hj. simpl.
    by rewrite (to_json_fuel _ _ _ _ _ (to_json_extend _ _ [OArr vs] _ _ Hj) Hd).
  - apply unique_keys_JObj in Hu as [Hnodup Hu].
    rewrite parse_JObj in Hrun. unfold bind at 1 in Hrun.
    destruct (seqM _ members h) as [[ps h1]|] eqn:Hps; [|done].
    injection Hrun as <- <-.
    destruct (seqM_roundtrip (λ kj, v ←ₘ parse kj.2; ret (kj.1, v))
                (λ kj (kv : string * val) h,
                   kv.1 = kj.1 ∧
                   to_json (depth kj.2) h kv.2 = Some (Some kj.2))
                members h ps h1) as (e & -> & Hall); [| |done|].
    { intros x y h0 e [? ?]. split; [done|]. by apply to_json_extend. }
    { apply Forall_forall. intros [k j] Hj h0 y h2 Hy.
      rewrite Forall_forall in IH, Hu. simpl in *. unfold bind in Hy.
      destruct (parse j h0) as [[v h3]|] eqn:Hv; [|done].
      injection Hy as <- <-.
      destruct (IH _ Hj (Hu _ Hj) h0 v h3 Hv) as [[e0 ->] Hjv].
      exists e0. by split. }
    split; [eexists; by rewrite <- app_assoc|].
    assert (ps.*1 = members.*1) as Hkeys.
    { clear -Hall. induction Hall as [|[k j] [k' v'] ms ps' [Hk _] _ IHall];
        [done|]. csimpl in *. congruence. }
    rewrite depth_JObj.
    rewrite foldl_define_unique by (simpl; by rewrite Hkeys).
    rewrite app_nil_l.
    erewrite to_json_object; [|by apply list_lookup_middle|].
    { by rewrite omap_members. }
    apply mapM_Some_2, Forall2_fmap_r, Forall2_flip.
    assert (Forall (λ kj, depth kj.2
                          ≤ foldr (λ kj acc, Nat.max (depth kj.2) acc) 0 members)%nat
              members) as Hdepth
      by (by apply (foldr_max_le (λ kj : string * json, depth kj.2))).
    eapply Forall2_Forall_impl; [exact Hdepth|exact Hall|].
    intros [k j] [k' v'] Hd [Hk Hj]. simpl in *.
    by rewrite (to_json_fuel _ _ _ _ _ (to_json_extend _ _ [OObj ps] _ _ Hj) Hd), Hk.
Qed.

(** ** [copy], on the whole *)

Lemma parse_JObj_spec members (h : heap) :
  ∃ ext ps,
    parse (JObj members) h
    = Some (VRef (length (h ++ ext)), (h ++ ext) ++ [OObj ps]) ∧
    Forall (cell_above (length h)) (ext ++ [OObj ps]).
Proof.
  destruct (seqM_spec (λ kj, v ←ₘ parse kj.2; ret (kj.1, v))
              (λ kv L, val_above L kv.2) members h)
    as (ps & ext & Hps & Haps & Hext).
  { intros y L L'. apply val_above_le. }
  { apply Forall_forall. intros [k j] _ h0. simpl.
    destruct (parse_spec j h0) as (v & ext & Hv & Hav & Hext).
    exists (k, v), ext. unfold bind. by rewrite Hv. }
  exists ext, (foldl (λ acc kv, define kv.1 kv.2 acc) [] ps).
  rewrite parse_JObj. unfold bind at 1. rewrite Hps, new_run.
  split; [done|]. apply Forall_app. split; [done|]. constructor; [|done].
  unfold cell_above. simpl. apply Forall_forall. intros v Hv.
  apply foldl_define_values in Hv as [Hv|Hv]; [by apply elem_of_nil in Hv|].
  apply list_elem_of_fmap in Hv as (kv & -> & Hkv).
  rewrite Forall_forall in Haps. by apply Haps.
Qed.

Lemma read_values k (ps : props) : read k ps = VUndef ∨ read k ps ∈ ps.*2.
Proof.
  unfold read. induction ps as [|[k' v] ps IH]; simpl; [by left|].
  destruct (String.eqb k k'); simpl.
  - right. by left.
  - destruct IH as [?|?]; [by left|]. right. by right.
Qed.

(** A value that serializes leads to allocated cells only. *)
Lemma to_json_children_allocated n (h : heap) l o r v l' :
  to_json n h (VRef l) = Some r → h !! l = Some o →
  v ∈ children o → v = VRef l' → (l' < length h)%nat.
Proof.
  intros Hr Hl Hv ->. destruct n as [|n]; [done|].
  simpl in Hr. rewrite Hl in Hr.
  assert (is_Some (to_json n h (VRef l'))) as [r' Hr'].
  { destruct o as [vs|ps]; simpl in *.
    - destruct (mapM _ vs) as [items|] eqn:Hitems; [|done].
      apply mk_is_Some, mapM_is_Some_1 in Hitems.
      rewrite Forall_forall in Hitems. specialize (Hitems _ Hv).
      simpl in Hitems. by apply fmap_is_Some in Hitems.
    - destruct (mapM _ ps) as [members|] eqn:Hmembers; [|done].
      apply list_elem_of_fmap in Hv as (kv & Hkv & Hin).
      apply mk_is_Some, mapM_is_Some_1 in Hmembers.
      rewrite Forall_forall in Hmembers. specialize (Hmembers _ Hin).
      simpl in Hmembers. apply fmap_is_Some in Hmembers. by rewrite Hkv. }
  destruct n as [|n]; [done|]. simpl in Hr'.
  destruct (h !! l') eqn:Hl'; [|done]. by eapply lookup_lt_Some.
Qed.

(** C7.  On a builder whose [query] holds a document that serializes (within
    nesting depth [n]), [copy()] returns a builder [c] in a heap [h'] such
    that:
    - [c] has the URL of the original and, where no object of the heap
      repeats a key, a document with the same JSON;
    - the cells of [h] are as before;
    - every cell that the document of [c] leads to is new;
    - overwriting any cell of the copy's document leaves every cell of the
      original's document, hence its JSON at any depth, as it was, and the
      other way round;
    - any sequence of configuration calls on the copy leaves every cell of
      [h], hence the original's document, as it was;
    - any sequence of configuration calls on the original leaves every cell
      of the copy's document, hence its JSON, as it was. *)
Theorem copy_independent n this (h : heap) ps j :
  document h this = Some ps →
  is_Some (spread h DEFAULT_RANGE) →
  to_json n h (query this) = Some (Some j) →
  ∃ c h',
    copy n this h = Some (c, h') ∧
    url c = url this ∧
    (heap_unique_keys h → to_json n h' (query c) = Some (Some j)) ∧
    (∀ l, (l < length h)%nat → h' !! l = h !! l) ∧
    (∀ l, reach h' (query c) l → h !! l = None) ∧
    (∀ l o, reach h' (query c) l →
       (∀ l', reach h (query this) l' → <[l := o]> h' !! l' = h !! l') ∧
       (∀ k r, to_json k h (query this) = Some r →
               to_json k (<[l := o]> h') (query this) = Some r)) ∧
    (∀ l o, reach h (query this) l →
       (∀ l', reach h' (query c) l' → <[l := o]> h' !! l' = h' !! l') ∧
       (∀ k r, to_json k h' (query c) = Some r →
               to_json k (<[l := o]> h') (query c) = Some r)) ∧
    (∀ cs c' h2, invoke_all cs c h' = Some (c', h2) →
       (∀ l, (l < length h)%nat → h2 !! l = h !! l) ∧
       (∀ k r, to_json k h (query this) = Some r →
               to_json k h2 (query this) = Some r)) ∧
    (∀ cs this' h2, invoke_all cs this h' = Some (this', h2) →
       (∀ l, reach h' (query c) l → h2 !! l = h' !! l) ∧
       (∀ k r, to_json k h' (query c) = Some r →
               to_json k h2 (query c) = Some r)).
Proof.
  intros Hdoc Hdr Hj.
  apply document_Some in Hdoc as (q & Hq & Hps & Hlt).
  destruct (Query_new_returns h Hdr) as (nq & cells & Hnew).
  assert (∃ members, j = JObj members) as [members ->].
  { rewrite Hq in Hj. destruct n as [|n]; [done|]. simpl in Hj.
    rewrite Hps in Hj. destruct (mapM _ ps); [|done].
    injection Hj as <-. by eexists. }
  destruct (parse_JObj_spec members (h ++ cells)) as (ext & psc & Hv & Hext).
  set (qc := length ((h ++ cells) ++ ext)) in *.
  set (h' := ((h ++ cells) ++ ext) ++ [OObj psc]) in *.
  set (c := {| query := VRef qc; url := url this |}).
  assert (Hcopy : copy n this h = Some (c, h')).
  { unfold copy, bind. rewrite Hnew. unfold json_clone.
    by rewrite (to_json_extend n h cells _ _ Hj), Hv. }
  assert (Hh' : h' = (h ++ cells) ++ (ext ++ [OObj psc]))
    by (subst h'; by rewrite <- !app_assoc).
  destruct (copy_frame n this h c h' Hcopy) as (Hurl & Hold & Hfresh & Hw1 & Hw2).
  exists c, h'. split; [done|]. split; [done|]. split.
  { intros Hkeys.
    destruct (to_json_depth_unique h Hkeys n _ _ Hj) as [Hdepth Hunique].
    destruct (parse_roundtrip _ Hunique _ _ _ Hv) as [_ Hround].
    by apply (to_json_fuel (depth (JObj members))). }
  split; [done|]. split; [done|]. split; [done|]. split; [done|].
  assert (Hqc : h' !! qc = Some (OObj psc))
    by (subst h' qc; apply list_lookup_middle; done).
  assert (Hlen : (length h ≤ qc)%nat ∧ (qc < length h')%nat).
  { subst qc h'. rewrite !length_app. simpl. lia. }
  assert (Habove : ∀ k, val_above (length (h ++ cells)) (read k psc)).
  { intros k. destruct (read_values k psc) as [->|Hin]; [done|].
    rewrite Forall_app in Hext. destruct Hext as [_ Hc].
    apply Forall_cons in Hc as [Hc _]. unfold cell_above in Hc.
    rewrite Forall_forall in Hc. by apply Hc. }
  assert (Hreach : ∀ l, reach h' (query c) l →
                        (length h ≤ l < length h')%nat).
  { intros l Hl. split; [|by eapply reach_allocated].
    apply lookup_ge_None. by apply Hfresh. }
  split.
  - intros cs c' h2 Hrun.
    assert (Hframe : ∀ l, (l < length h)%nat → h2 !! l = h !! l).
    { assert (Hqo : outside 0 (length h) (VRef qc)) by (right; lia).
      assert (HG : guarded 0 (length h) qc h').
      { exists psc. split; [done|].
        assert (∀ k, outside 0 (length h) (read k psc)) as Hout.
        { intros k. specialize (Habove k).
          destruct (read k psc); simpl in *; try done.
          rewrite length_app in Habove. right. lia. }
        split_and!; [done..|lia]. }
      destruct (keeps_invoke_all 0 (length h) qc Hqo cs c eq_refl
                  h' c' h2 HG Hrun) as (_ & Hf & _).
      intros l Hl. rewrite Hf by lia. by apply Hold. }
    split; [done|]. intros k r Hr. apply (to_json_agree k h); [done|].
    intros l Hl. apply Hframe. by eapply reach_allocated.
  - intros cs this' h2 Hrun.
    assert (Hframe : ∀ l, (length h ≤ l < length h')%nat → h2 !! l = h' !! l).
    { assert (Hqo : outside (length h) (length h') (VRef q)) by (by left).
      assert (HG : guarded (length h) (length h') q h').
      { exists ps. split; [by rewrite Hold|].
        assert (∀ k, outside (length h) (length h') (read k ps)) as Hout.
        { intros k. destruct (read_values k ps) as [->|Hin]; [done|].
          destruct (read k ps) as [| | | | |l'] eqn:Hk; try done.
          left. rewrite Hq in Hj.
          by apply (to_json_children_allocated n h q (OObj ps) _
                      (VRef l') l' Hj Hps). }
        split_and!; done. }
      destruct (keeps_invoke_all (length h) (length h') q Hqo cs this Hq
                  h' this' h2 HG Hrun) as (_ & Hf & _).
      exact Hf. }
    split; [intros l Hl; by apply Hframe, Hreach|].
    intros k r Hr. apply (to_json_agree k h'); [done|].
    intros l Hl. by apply Hframe, Hreach.
Qed.

Lemma copy_independent_witness :
  let this := new_Query_state.1 in
  let h := new_Query_state.2 in
  (document h this = Some new_Query_document ∧
   is_Some (spread h DEFAULT_RANGE) ∧
   to_json 4 h (query this) = Some (Some new_Query_json)) ∧
  ∃ c h',
    copy 4 this h = Some (c, h') ∧
    url c = url this ∧
    (heap_unique_keys h → to_json 4 h' (query c) = Some (Some new_Query_json)) ∧
    (∀ l, (l < length h)%nat → h' !! l = h !! l) ∧
    (∀ l, reach h' (query c) l → h !! l = None) ∧
    (∀ l o, reach h' (query c) l →
       (∀ l', reach h (query this) l' → <[l := o]> h' !! l' = h !! l') ∧
       (∀ k r, to_json k h (query this) = Some r →
               to_json k (<[l := o]> h') (query this) = Some r)) ∧
    (∀ l o, reach h (query this) l →
       (∀ l', reach h' (query c) l' → <[l := o]> h' !! l' = h' !! l') ∧
       (∀ k r, to_json k h' (query c) = Some r →
               to_json k (<[l := o]> h') (query c) = Some r)) ∧
    (∀ cs c' h2, invoke_all cs c h' = Some (c', h2) →
       (∀ l, (l < length h)%nat → h2 !! l = h !! l) ∧
       (∀ k r, to_json k h (query this) = Some r →
               to_json k h2 (query this) = Some r)) ∧
    (∀ cs this' h2, invoke_all cs this h' = Some (this', h2) →
       (∀ l, reach h' (query c) l → h2 !! l = h' !! l) ∧
       (∀ k r, to_json k h' (query c) = Some r →
               to_json k h2 (query c) = Some r)).
Proof.
  intros this h. split; [by split_and!|].
  by apply (copy_independent 4 this h new_Query_document new_Query_json).
Defined.

(** ** The repository's own test cases, replayed on the model *)

(** [tests/query.test.ts], "setMarkets": URL and markets for each case. *)
Example test_setMarkets :
  Forall (λ '(markets, expectedUrl),
            let s := run_calls [SetMarkets markets] in
            (url ∘ fst <$> s) = Some expectedUrl ∧
            field_json 2 "markets" s = Some (JArr (map JStr markets)))
    [(["crypto"], "https://scanner.tradingview.com/crypto/scan");
     (["forex"], "https://scanner.tradingview.com/forex/scan");
     (["america"], "https://scanner.tradingview.com/america/scan");
     (["israel"], "https://scanner.tradingview.com/israel/scan");
     (["america"; "israel"], "https://scanner.tradingview.com/global/scan");
     (["crypto"; "israel"], "https://scanner.tradingview.com/global/scan")].
Proof. repeat constructor. Qed.

(** "copy functionality": the original keeps its columns and limit. *)
Example test_copy :
  copy_test
  = Some [Some (JArr [JStr "close"; JStr "volume"]);
          Some (JArr [JNum 0; JNum 25]);
          Some (JArr [JStr "open"; JStr "high"]);
          Some (JArr [JNum 0; JNum 50])].
Proof. vm_compute. reflexivity. Qed.

(** The market name of the counterexample to C1, and an ordinary one. *)
Example test_replace :
  replace URL "{market}" "italy" = "https://scanner.tradingview.com/italy/scan" ∧
  replace URL "{market}" "$&"
    = "https://scanner.tradingview.com/{market}/scan" ∧
  replace URL "{market}" "a$$b" = "https://scanner.tradingview.com/a$b/scan".
Proof. by split_and!. Qed.

(** [JSON.stringify] of a response body, as it enters the error message. *)
Example test_http_error_message :
  http_error_message
    {| status := 400; statusText := "Bad Request";
       body := Some (JObj [("error", JStr "Unknown field");
                           ("code", JNum (-3)); ("fields", JArr [JNull])]) |}
  = "HTTP 400: Bad Request" +:+ String "010"%char
      ("Body: {" +:+ String quote_char ("error" +:+ String quote_char (":"
       +:+ String quote_char ("Unknown field" +:+ String quote_char (","
       +:+ String quote_char ("code" +:+ String quote_char (":-3,"
       +:+ String quote_char ("fields" +:+ String quote_char
             ":[null]}")))))))).
Proof. reflexivity. Qed.

(** "AND/OR chaining": [getQuery().filter2] equals the expected filter. *)
Example test_and_or_chaining :
  field_json 11 "filter2" (and_or_chaining_test module_heap)
  = Some
      (comparison_json "and"
         [operation_json "or"
            [operation_json "and"
               [expression_json (leaf_json "type" "equal" (JStr "stock"));
                expression_json
                  (leaf_json "typespecs" "has" (JArr [JStr "common"]))];
             operation_json "and"
               [expression_json (leaf_json "type" "equal" (JStr "fund"));
                expression_json
                  (leaf_json "typespecs" "has_none_of" (JArr [JStr "etf"]))]]]).
Proof. vm_compute. reflexivity. Qed.


(** * Further properties of the builder, the combinators and the leaves *)

(** ** [And] and [Or] on any number of operands *)

Lemma mapM_Forall2_Some {A B} (f : A → option B) (l : list A) (k : list B) :
  Forall2 (λ x y, f x = Some y) l k → mapM f l = Some k.
Proof.
  induction 1 as [|x y l k Hxy _ IH]; [done|].
  cbn. rewrite Hxy. cbn. rewrite IH. done.
Qed.

(** The loop of [implAndOrChaining] allocates one wrapper per leaf and
    leaves every other cell as it is; each operand serializes to the JSON of
    its expression, wrapped if the expression is a leaf. *)
Lemma wrap_operands_json n (ljs : list (bool * json)) :
  ∀ (es : list val) (h : heap),
    Forall2 (λ e lj, has_left h e = Some lj.1 ∧
                     to_json n h e = Some (Some lj.2)) es ljs →
    ∃ ops ext,
      wrap_operands es h = Some (ops, h ++ ext) ∧
      Forall2 (λ op lj, to_json (S n) (h ++ ext) op
                        = Some (Some (operand_json lj.1 lj.2))) ops ljs.
Proof.
  induction ljs as [|[b j] ljs IH]; intros es h H.
  - apply Forall2_nil_inv_r in H as ->. exists [], [].
    rewrite app_nil_r. split; [done|constructor].
  - apply Forall2_cons_inv_r in H as (e & es' & [Hl Hj] & H & ->).
    simpl in Hl, Hj. cbn [wrap_operands]. unfold bind at 1. rewrite Hl.
    destruct b.
    + unfold bind at 1. rewrite new_run.
      destruct (IH es' (h ++ [OObj [("expression", e)]])) as (ops & ext & Hrun & Hops).
      { eapply Forall2_impl; [exact H|]. intros e' lj [Hl' Hj']. split.
        - by apply has_left_extend.
        - by apply to_json_extend. }
      unfold bind at 1. rewrite Hrun. cbn [ret].
      exists (VRef (length h) :: ops), (OObj [("expression", e)] :: ext).
      rewrite <- app_assoc in Hops. rewrite <- app_assoc. cbn [app] in *.
      split; [done|]. constructor; [|done].
      cbn [fst snd operand_json].
      rewrite (to_json_object n _ (length h) [("expression", e)]
                 [("expression", Some j)]); [done| |].
      * rewrite lookup_app_r by done. by rewrite Nat.sub_diag.
      * cbn. rewrite (to_json_extend _ _ _ _ _ Hj). reflexivity.
    + unfold bind at 1. cbn [ret].
      destruct (IH es' h H) as (ops & ext & Hrun & Hops).
      unfold bind at 1. rewrite Hrun. cbn [ret].
      exists (e :: ops), ext. split; [done|]. constructor; [|done].
      cbn [fst snd operand_json].
      apply to_json_fuel with n; [|lia]. by apply to_json_extend.
Qed.

(** One level of [And] or [Or]: the result is a new object without a
    [left] key, which serializes to the composite of its operands. *)
Lemma implAndOrChaining_json (operator : LogicalOperator) n
    (ljs : list (bool * json)) (es : list val) (h : heap) :
  Forall2 (λ e lj, has_left h e = Some lj.1 ∧
                   to_json n h e = Some (Some lj.2)) es ljs →
  ∃ v ext,
    implAndOrChaining es operator h = Some (v, h ++ ext) ∧
    has_left (h ++ ext) v = Some false ∧
    to_json (4 + n) (h ++ ext) v
    = Some (Some (operation_json (operator_name operator)
                    (map (λ lj, operand_json lj.1 lj.2) ljs))).
Proof.
  intros H.
  destruct (wrap_operands_json n ljs es h H) as (ops & ext & Hrun & Hops).
  unfold implAndOrChaining. unfold bind at 1. rewrite Hrun.
  unfold bind at 1. rewrite new_run.
  unfold bind at 1. rewrite new_run. rewrite new_run.
  set (L := length (h ++ ext)).
  rewrite !(length_app _ [_]). cbn [length]. fold L.
  exists (VRef (L + 1 + 1)),
    (ext ++ [OArr ops;
             OObj [("operator", VStr (operator_name operator));
                   ("operands", VRef L)];
             OObj [("operation", VRef (L + 1))]]).
  split.
  { f_equal. f_equal. rewrite <- !app_assoc. done. }
  rewrite app_assoc.
  assert (Htop : ((h ++ ext) ++ [OArr ops;
             OObj [("operator", VStr (operator_name operator));
                   ("operands", VRef L)];
             OObj [("operation", VRef (L + 1))]]) !! (L + 1 + 1)%nat
          = Some (OObj [("operation", VRef (L + 1))])).
  { unfold L. rewrite lookup_app_r by lia.
    by replace (length (h ++ ext) + 1 + 1 - length (h ++ ext))%nat
      with 2%nat by lia. }
  split.
  { unfold has_left. by rewrite Htop. }
  assert (Harr : to_json (2 + n) ((h ++ ext) ++ [OArr ops;
             OObj [("operator", VStr (operator_name operator));
                   ("operands", VRef L)];
             OObj [("operation", VRef (L + 1))]]) (VRef L)
          = Some (Some (JArr (map (λ lj, operand_json lj.1 lj.2) ljs)))).
  { eapply to_json_array.
    - unfold L. rewrite lookup_app_r by done. by rewrite Nat.sub_diag.
    - apply mapM_Forall2_Some. apply Forall2_fmap_r.
      eapply Forall2_impl; [exact Hops|]. intros op lj Hop. cbn beta.
      rewrite (to_json_extend _ _ _ _ _ Hop). done. }
  assert (Hinner : to_json (3 + n) ((h ++ ext) ++ [OArr ops;
             OObj [("operator", VStr (operator_name operator));
                   ("operands", VRef L)];
             OObj [("operation", VRef (L + 1))]]) (VRef (L + 1))
          = Some (Some (comparison_json (operator_name operator)
                          (map (λ lj, operand_json lj.1 lj.2) ljs)))).
  { rewrite (to_json_object (2 + n) _ (L + 1)
               [("operator", VStr (operator_name operator));
                ("operands", VRef L)]
               [("operator", Some (JStr (operator_name operator)));
                ("operands",
                 Some (JArr (map (λ lj, operand_json lj.1 lj.2) ljs)))]);
      [done| |].
    - unfold L. rewrite lookup_app_r by lia.
      by replace (length (h ++ ext) + 1 - length (h ++ ext))%nat with 1%nat by lia.
    - cbn [mapM fst snd]. change (S (S n)) with (2 + n)%nat. rewrite Harr. reflexivity. }
  rewrite (to_json_object (3 + n) _ (L + 1 + 1)
             [("operation", VRef (L + 1))]
             [("operation",
               Some (comparison_json (operator_name operator)
                       (map (λ lj, operand_json lj.1 lj.2) ljs)))]);
    [done| |].
  - unfold L. rewrite lookup_app_r by lia.
    by replace (length (h ++ ext) + 1 + 1 - length (h ++ ext))%nat with 2%nat by lia.
  - cbn [mapM fst snd]. change (S (S (S n))) with (3 + n)%nat. rewrite Hinner. reflexivity.
Qed.

(** X1.  [And(e1, ..., ek)] and [Or(e1, ..., ek)], for any number of
    expressions that are objects of the heap and serialize: the call returns,
    it allocates new cells and changes none, and the result serializes to
    [{operation: {operator, operands: [...]}}] whose operands are, in the
    order of the arguments, the JSON of each expression, inside
    [{expression: ...}] if and only if the expression has a [left] key. *)
Theorem combinator_serializes (operator : LogicalOperator) n
    (ljs : list (bool * json)) (es : list val) (h : heap) :
  Forall2 (λ e lj, has_left h e = Some lj.1 ∧
                   to_json n h e = Some (Some lj.2)) es ljs →
  ∃ v ext,
    implAndOrChaining es operator h = Some (v, h ++ ext) ∧
    to_json (4 + n) (h ++ ext) v
    = Some (Some (operation_json (operator_name operator)
                    (map (λ lj, operand_json lj.1 lj.2) ljs))).
Proof.
  intros H.
  destruct (implAndOrChaining_json operator n ljs es h H)
    as (v & ext & Hrun & _ & Hjson).
  by exists v, ext.
Qed.

Lemma combinator_serializes_witness :
  Forall2 (λ e lj, has_left three_leaves.2 e = Some lj.1 ∧
                   to_json 1 three_leaves.2 e = Some (Some lj.2))
    [three_leaves.1.1.1; three_leaves.1.1.2; three_leaves.1.2]
    [(true, leaf_json "type" "equal" (JStr "stock"));
     (true, leaf_json "close" "greater" (JNum 100));
     (true, leaf_json "type" "equal" (JStr "dr"))] ∧
  ∃ v ext,
    implAndOrChaining
      [three_leaves.1.1.1; three_leaves.1.1.2; three_leaves.1.2] OpOr
      three_leaves.2 = Some (v, three_leaves.2 ++ ext) ∧
    to_json 5 (three_leaves.2 ++ ext) v
    = Some (Some (operation_json "or"
                    [expression_json (leaf_json "type" "equal" (JStr "stock"));
                     expression_json (leaf_json "close" "greater" (JNum 100));
                     expression_json (leaf_json "type" "equal" (JStr "dr"))])).
Proof.
  assert (H : Forall2 (λ e lj, has_left three_leaves.2 e = Some lj.1 ∧
                   to_json 1 three_leaves.2 e = Some (Some lj.2))
    [three_leaves.1.1.1; three_leaves.1.1.2; three_leaves.1.2]
    [(true, leaf_json "type" "equal" (JStr "stock"));
     (true, leaf_json "close" "greater" (JNum 100));
     (true, leaf_json "type" "equal" (JStr "dr"))]).
  { repeat (constructor; [split; vm_compute; reflexivity|]). constructor. }
  split; [exact H|].
  exact (combinator_serializes OpOr 1 _ _ _ H).
Defined.

Lemma wrap_operands_primitive (es : list val) :
  Exists (λ e, primitive e = true) es → ∀ h : heap, wrap_operands es h = None.
Proof.
  induction 1 as [e es He|e es _ IH]; intros h; cbn [wrap_operands];
    unfold bind at 1.
  - by destruct e.
  - destruct (has_left h e) as [b|]; [|done].
    unfold bind at 1.
    destruct b; [rewrite new_run|cbn [ret]]; unfold bind; by rewrite IH.
Qed.

(** X2.  [And] and [Or] throw on an operand that is not an object: the
    test ['left' in expr] raises a [TypeError] on any primitive (a string, a
    number, [null], [undefined]), wherever it stands in the argument
    list. *)
Theorem combinator_primitive_operand_throws (operator : LogicalOperator)
    (es : list val) (h : heap) :
  Exists (λ e, primitive e = true) es →
  implAndOrChaining es operator h = None.
Proof.
  intros H. unfold implAndOrChaining, bind.
  by rewrite (wrap_operands_primitive es H).
Qed.

Lemma combinator_primitive_operand_throws_witness :
  Exists (λ e, primitive e = true) [three_leaves.1.1.1; VStr "close"] ∧
  implAndOrChaining [three_leaves.1.1.1; VStr "close"] OpAnd three_leaves.2
  = None.
Proof.
  assert (H : Exists (λ e, primitive e = true)
                [three_leaves.1.1.1; VStr "close"]).
  { apply Exists_cons_tl, Exists_cons_hd. reflexivity. }
  split; [exact H|].
  exact (combinator_primitive_operand_throws OpAnd _ _ H).
Defined.

(** ** The leaves of [Column] *)

Lemma compare_run op this other (h : heap) :
  compare op this other h
  = Some (VRef (length h),
          h ++ [OObj [("left", VStr (name this)); ("operation", VStr op);
                      ("right", extractName other)]]).
Proof. done. Qed.

Lemma list_leaf_run op this items (h : heap) :
  list_leaf op this items h
  = Some (VRef (length h + 1),
          h ++ [OArr items;
                OObj [("left", VStr (name this)); ("operation", VStr op);
                      ("right", VRef (length h))]]).
Proof.
  unfold list_leaf, bind. rewrite !new_run. rewrite length_app.
  by rewrite <- app_assoc.
Qed.

Lemma lookup_alloc_0 (h : heap) o ext : (h ++ o :: ext) !! length h = Some o.
Proof. rewrite lookup_app_r by done. by rewrite Nat.sub_diag. Qed.

Lemma lookup_alloc_1 (h : heap) o o' ext :
  (h ++ o :: o' :: ext) !! (length h + 1)%nat = Some o'.
Proof.
  rewrite lookup_app_r by lia.
  by replace (length h + 1 - length h)%nat with 1%nat by lia.
Qed.

(** X3.  Every filter method of [Column] returns a newly allocated object
    with exactly the keys [left], [operation] and [right], where [left] is
    the name of the column and [operation] is one of the codes of the type
    [FilterOperation]; no existing cell is changed.  Having a [left] key, the
    object is what [And] and [Or] take for a leaf. *)
Theorem filter_call_builds_leaf (c : filter_call) (this : Column) (h : heap) :
  spreadable h c →
  ∃ l ps ext op,
    build_filter c this h = Some (VRef l, h ++ ext) ∧
    h !! l = None ∧
    (h ++ ext) !! l = Some (OObj ps) ∧
    ps.*1 = ["left"; "operation"; "right"] ∧
    read "left" ps = VStr (name this) ∧
    read "operation" ps = VStr op ∧ op ∈ FilterOperation ∧
    has_left (h ++ ext) (VRef l) = Some true.
Proof.
  intros Hc.
  assert (Hcompare : ∀ op other, op ∈ FilterOperation →
    ∃ l ps ext op',
      compare op this other h = Some (VRef l, h ++ ext) ∧
      h !! l = None ∧
      (h ++ ext) !! l = Some (OObj ps) ∧
      ps.*1 = ["left"; "operation"; "right"] ∧
      read "left" ps = VStr (name this) ∧
      read "operation" ps = VStr op' ∧ op' ∈ FilterOperation ∧
      has_left (h ++ ext) (VRef l) = Some true).
  { intros op other Hop. do 3 eexists. exists op.
    rewrite compare_run. split; [done|].
    split; [by apply lookup_ge_None_2|].
    rewrite lookup_alloc_0. split; [done|]. split; [done|].
    split; [done|]. split; [done|]. split; [done|].
    unfold has_left. by rewrite lookup_alloc_0. }
  assert (Hlist : ∀ op items, op ∈ FilterOperation →
    ∃ l ps ext op',
      list_leaf op this items h = Some (VRef l, h ++ ext) ∧
      h !! l = None ∧
      (h ++ ext) !! l = Some (OObj ps) ∧
      ps.*1 = ["left"; "operation"; "right"] ∧
      read "left" ps = VStr (name this) ∧
      read "operation" ps = VStr op' ∧ op' ∈ FilterOperation ∧
      has_left (h ++ ext) (VRef l) = Some true).
  { intros op items Hop. do 3 eexists. exists op.
    rewrite list_leaf_run. split; [done|].
    split; [apply lookup_ge_None_2; lia|].
    rewrite lookup_alloc_1. split; [done|]. split; [done|].
    split; [done|]. split; [done|]. split; [done|].
    unfold has_left. by rewrite lookup_alloc_1. }
  destruct c; cbn [build_filter];
    try (apply Hcompare; unfold FilterOperation; repeat constructor);
    try (apply Hlist; unfold FilterOperation; repeat constructor).
  - destruct Hc as [vs Hvs]. unfold Column_isin, bind, spreadM. rewrite Hvs.
    apply Hlist. unfold FilterOperation. repeat constructor.
  - destruct Hc as [vs Hvs]. unfold Column_notIn, bind, spreadM. rewrite Hvs.
    apply Hlist. unfold FilterOperation. repeat constructor.
Qed.

Lemma filter_call_builds_leaf_witness :
  spreadable new_Query_state.2 (FIsin (VRef 7)) ∧
  ∃ l ps ext op,
    build_filter (FIsin (VRef 7)) (col "name") new_Query_state.2
    = Some (VRef l, new_Query_state.2 ++ ext) ∧
    new_Query_state.2 !! l = None ∧
    (new_Query_state.2 ++ ext) !! l = Some (OObj ps) ∧
    ps.*1 = ["left"; "operation"; "right"] ∧
    read "left" ps = VStr (name (col "name")) ∧
    read "operation" ps = VStr op ∧ op ∈ FilterOperation ∧
    has_left (new_Query_state.2 ++ ext) (VRef l) = Some true.
Proof.
  assert (H : spreadable new_Query_state.2 (FIsin (VRef 7))).
  { vm_compute. by eexists. }
  split; [exact H|].
  exact (filter_call_builds_leaf (FIsin (VRef 7)) (col "name") _ H).
Defined.

Lemma spread_Some (h : heap) v vs :
  spread h v = Some vs → ∃ l, v = VRef l ∧ h !! l = Some (OArr vs).
Proof.
  unfold spread. destruct v as [| | | | |l]; try done.
  destruct (h !! l) as [[a|]|] eqn:Hl; try done.
  intros [= ->]. by exists l.
Qed.

Lemma spread_copy_run op this values vs (h : heap) :
  spread h values = Some vs →
  (elems ←ₘ spreadM values; list_leaf op this elems) h
  = Some (VRef (length h + 1),
          h ++ [OArr vs;
                OObj [("left", VStr (name this)); ("operation", VStr op);
                      ("right", VRef (length h))]]).
Proof.
  intros Hvs. unfold bind, spreadM. rewrite Hvs. apply list_leaf_run.
Qed.

Lemma spread_copy_independent op this values vs (h : heap) :
  spread h values = Some vs →
  ∃ leaf h1,
    (elems ←ₘ spreadM values; list_leaf op this elems) h = Some (leaf, h1) ∧
    right_elements h1 leaf = Some vs ∧
    get_prop h1 leaf "right" ≠ Some values ∧
    ∀ i x, ∃ h2,
      set_index values i x h1 = Some h2 ∧
      spread h2 values = Some (arr_set vs i x) ∧
      right_elements h2 leaf = Some vs.
Proof.
  intros Hvs. rewrite (spread_copy_run _ _ _ _ _ Hvs).
  apply spread_Some in Hvs as (l & -> & Hl).
  assert (Hlt : (l < length h)%nat) by by eapply lookup_lt_Some.
  do 2 eexists. split; [done|].
  split.
  { unfold right_elements, get_prop. rewrite lookup_alloc_1. cbn.
    by rewrite lookup_alloc_0. }
  split.
  { unfold get_prop. rewrite lookup_alloc_1. cbn. intros [= Heq]. lia. }
  intros i x. eexists. split.
  { unfold set_index. rewrite lookup_app_l, Hl by done. done. }
  split.
  { unfold spread. rewrite list_lookup_insert_eq; [done|].
    rewrite length_app. lia. }
  unfold right_elements, get_prop.
  rewrite list_lookup_insert_ne by lia. rewrite lookup_alloc_1. cbn.
  rewrite list_lookup_insert_ne by lia. by rewrite lookup_alloc_0.
Qed.

(** X4.  [isin(values)] and [notIn(values)] copy the array they are given:
    the leaf holds a new array with the same elements, and a later write
    into the caller's array (in range or beyond its end) changes the
    caller's array only, not the filter. *)
Theorem isin_copies_values (this : Column) (values : val) (vs : list val)
    (h : heap) :
  spread h values = Some vs →
  (∃ leaf h1,
     Column_isin this values h = Some (leaf, h1) ∧
     right_elements h1 leaf = Some vs ∧
     get_prop h1 leaf "right" ≠ Some values ∧
     ∀ i x, ∃ h2,
       set_index values i x h1 = Some h2 ∧
       spread h2 values = Some (arr_set vs i x) ∧
       right_elements h2 leaf = Some vs) ∧
  (∃ leaf h1,
     Column_notIn this values h = Some (leaf, h1) ∧
     right_elements h1 leaf = Some vs ∧
     get_prop h1 leaf "right" ≠ Some values ∧
     ∀ i x, ∃ h2,
       set_index values i x h1 = Some h2 ∧
       spread h2 values = Some (arr_set vs i x) ∧
       right_elements h2 leaf = Some vs).
Proof.
  intros Hvs. split; by apply spread_copy_independent.
Qed.

Lemma isin_copies_values_witness :
  spread new_Query_state.2 (VRef 7)
  = Some [VStr "name"; VStr "close"; VStr "volume"; VStr "market_cap_basic"] ∧
  ∃ leaf h1,
    Column_isin (col "name") (VRef 7) new_Query_state.2 = Some (leaf, h1) ∧
    right_elements h1 leaf
    = Some [VStr "name"; VStr "close"; VStr "volume";
            VStr "market_cap_basic"] ∧
    get_prop h1 leaf "right" ≠ Some (VRef 7) ∧
    ∀ i x, ∃ h2,
      set_index (VRef 7) i x h1 = Some h2 ∧
      spread h2 (VRef 7)
      = Some (arr_set [VStr "name"; VStr "close"; VStr "volume";
                       VStr "market_cap_basic"] i x) ∧
      right_elements h2 leaf
      = Some [VStr "name"; VStr "close"; VStr "volume";
              VStr "market_cap_basic"].
Proof.
  split; [reflexivity|].
  apply (isin_copies_values (col "name") (VRef 7) _ new_Query_state.2).
  reflexivity.
Defined.

(** X5.  [has(values)] and [hasNoneOf(values)] keep the caller's array
    itself: the [right] of the leaf is the very value passed in, so a later
    write into that array shows in the filter. *)
Theorem has_shares_values (this : Column) (values : val) (vs : list val)
    (h : heap) :
  spread h values = Some vs →
  (∃ leaf h1,
     Column_has this values h = Some (leaf, h1) ∧
     get_prop h1 leaf "right" = Some values ∧
     ∀ i x, ∃ h2,
       set_index values i x h1 = Some h2 ∧
       right_elements h2 leaf = Some (arr_set vs i x)) ∧
  (∃ leaf h1,
     Column_hasNoneOf this values h = Some (leaf, h1) ∧
     get_prop h1 leaf "right" = Some values ∧
     ∀ i x, ∃ h2,
       set_index values i x h1 = Some h2 ∧
       right_elements h2 leaf = Some (arr_set vs i x)).
Proof.
  intros Hvs. apply spread_Some in Hvs as (l & -> & Hl).
  assert (Hlt : (l < length h)%nat) by by eapply lookup_lt_Some.
  unfold Column_has, Column_hasNoneOf. rewrite !compare_run.
  split.
  all: do 2 eexists; split; [done|]; split;
    [unfold get_prop; by rewrite lookup_alloc_0|];
    intros i x; eexists; split;
    [unfold set_index; by rewrite lookup_app_l, Hl by done|];
    unfold right_elements, get_prop;
    rewrite list_lookup_insert_ne by lia; rewrite lookup_alloc_0; cbn;
    rewrite list_lookup_insert_eq; [done|rewrite length_app; lia].
Qed.

Lemma has_shares_values_witness :
  spread new_Query_state.2 (VRef 7)
  = Some [VStr "name"; VStr "close"; VStr "volume"; VStr "market_cap_basic"] ∧
  ∃ leaf h1,
    Column_has (col "typespecs") (VRef 7) new_Query_state.2
    = Some (leaf, h1) ∧
    get_prop h1 leaf "right" = Some (VRef 7) ∧
    ∀ i x, ∃ h2,
      set_index (VRef 7) i x h1 = Some h2 ∧
      right_elements h2 leaf
      = Some (arr_set [VStr "name"; VStr "close"; VStr "volume";
                       VStr "market_cap_basic"] i x).
Proof.
  split; [reflexivity|].
  apply (has_shares_values (col "typespecs") (VRef 7) _ new_Query_state.2).
  reflexivity.
Defined.

Lemma list_leaf_json n op this items js (h : heap) :
  mapM (λ v, default JNull <$> to_json n h v) items = Some js →
  ∃ leaf ext,
    list_leaf op this items h = Some (leaf, h ++ ext) ∧
    to_json (2 + n) (h ++ ext) leaf
    = Some (Some (leaf_json (name this) op (JArr js))).
Proof.
  intros Hitems. rewrite list_leaf_run. do 2 eexists. split; [done|].
  set (h1 := h ++ _).
  assert (Harr : to_json (1 + n) h1 (VRef (length h))
                 = Some (Some (JArr js))).
  { eapply to_json_array; [apply lookup_alloc_0|].
    rewrite <- Hitems. apply mapM_ext_in. intros v Hv. unfold h1.
    destruct (to_json n h v) as [r|] eqn:Hr.
    - by rewrite (to_json_extend _ _ _ _ _ Hr).
    - assert (Hall : Forall (is_Some ∘ (λ v, default JNull <$> to_json n h v))
                       items) by (apply mapM_is_Some; by rewrite Hitems).
      rewrite Forall_forall in Hall. destruct (Hall v Hv) as [? Hsome].
      cbn in Hsome. by rewrite Hr in Hsome. }
  change (2 + n)%nat with (S (1 + n)).
  rewrite (to_json_object (1 + n) h1 (length h + 1)
             [("left", VStr (name this)); ("operation", VStr op);
              ("right", VRef (length h))]
             [("left", Some (JStr (name this))); ("operation", Some (JStr op));
              ("right", Some (JArr js))]); [done|apply lookup_alloc_1|].
  cbn [mapM fst snd]. change (S n) with (1 + n)%nat. rewrite Harr. done.
Qed.

(** X6.  [betweenPct(column, pct1)] and [notBetweenPct(column, pct1)], with
    the upper bound omitted, still build a [right] of three entries: the
    third is [undefined], which is sent as [null].  Passing [undefined]
    explicitly gives the same leaf. *)
Theorem betweenPct_omitted_bound (this : Column) (column : operand)
    (pct1 : val) (jc j1 : json) (h : heap) :
  to_json 0 h (extractName column) = Some (Some jc) →
  to_json 0 h pct1 = Some (Some j1) →
  (∃ leaf ext,
     Column_betweenPct this column pct1 None h = Some (leaf, h ++ ext) ∧
     Column_betweenPct this column pct1 (Some VUndef) h
     = Some (leaf, h ++ ext) ∧
     to_json 2 (h ++ ext) leaf
     = Some (Some (leaf_json (name this) "in_range%"
                     (JArr [jc; j1; JNull])))) ∧
  (∃ leaf ext,
     Column_notBetweenPct this column pct1 None h = Some (leaf, h ++ ext) ∧
     Column_notBetweenPct this column pct1 (Some VUndef) h
     = Some (leaf, h ++ ext) ∧
     to_json 2 (h ++ ext) leaf
     = Some (Some (leaf_json (name this) "not_in_range%"
                     (JArr [jc; j1; JNull])))).
Proof.
  intros Hc H1. unfold Column_betweenPct, Column_notBetweenPct.
  cbn [default].
  split.
  - destruct (list_leaf_json 0 "in_range%" this
                [extractName column; pct1; VUndef] [jc; j1; JNull] h)
      as (leaf & ext & Hrun & Hjson).
    { cbn [mapM]. rewrite Hc, H1. done. }
    by exists leaf, ext.
  - destruct (list_leaf_json 0 "not_in_range%" this
                [extractName column; pct1; VUndef] [jc; j1; JNull] h)
      as (leaf & ext & Hrun & Hjson).
    { cbn [mapM]. rewrite Hc, H1. done. }
    by exists leaf, ext.
Qed.

Lemma betweenPct_omitted_bound_witness :
  to_json 0 module_heap (extractName (OfColumn (col "EMA200")))
  = Some (Some (JStr "EMA200")) ∧
  to_json 0 module_heap (VNum 2) = Some (Some (JNum 2)) ∧
  ∃ leaf ext,
    Column_betweenPct (col "close") (OfColumn (col "EMA200")) (VNum 2) None
      module_heap = Some (leaf, module_heap ++ ext) ∧
    Column_betweenPct (col "close") (OfColumn (col "EMA200")) (VNum 2)
      (Some VUndef) module_heap = Some (leaf, module_heap ++ ext) ∧
    to_json 2 (module_heap ++ ext) leaf
    = Some (Some (leaf_json "close" "in_range%"
                    (JArr [JStr "EMA200"; JNum 2; JNull]))).
Proof.
  split; [reflexivity|]. split; [reflexivity|].
  apply (betweenPct_omitted_bound (col "close") (OfColumn (col "EMA200"))
           (VNum 2) (JStr "EMA200") (JNum 2) module_heap);
    reflexivity.
Defined.

(** ** The request configuration *)












(** [getScannerDataRaw({headers: undefined, cookies: "sessionid=abc"})]:
    the [Cookie] write throws. *)
Example test_undefined_headers :
  make_requestConfig (VRef 1) undefined_headers_heap = None.
Proof. vm_compute. reflexivity. Qed.

(** [getScannerDataRaw()] and [getScannerDataRaw({})] send the merged
    defaults and the default timeout. *)
Example test_default_config :
  (make_requestConfig VUndef module_heap
   = Some (VRef 3,
           module_heap ++ [OObj []; OObj HEADERS_object;
                           OObj [("headers", VRef 2);
                                 ("timeout", VNum 20000)]])).
Proof. vm_compute. reflexivity. Qed.

(** ** Rows to records, for any columns *)

Lemma get_own_None_keys {V} k (ps : list (string * V)) :
  get_own k ps = None ↔ k ∉ ps.*1.
Proof.
  induction ps as [|[k' v] ps IH]; simpl.
  - split; [intros _; apply not_elem_of_nil|done].
  - rewrite not_elem_of_cons. destruct (String.eqb k k') eqn:E.
    + apply String.eqb_eq in E. split; [done|]. intros [? _]. done.
    + apply String.eqb_neq in E. rewrite IH. tauto.
Qed.

Lemma define_keys {V} k (v : V) ps k' :
  k' ∈ (define k v ps).*1 ↔ k' = k ∨ k' ∈ ps.*1.
Proof.
  induction ps as [|[k0 v0] ps IH]; simpl.
  - rewrite elem_of_cons, elem_of_nil. tauto.
  - destruct (String.eqb k k0) eqn:E; simpl.
    + apply String.eqb_eq in E. subst k0. rewrite !elem_of_cons. tauto.
    + rewrite !elem_of_cons, IH. tauto.
Qed.

Lemma define_NoDup {V} k (v : V) ps : NoDup ps.*1 → NoDup (define k v ps).*1.
Proof.
  induction ps as [|[k0 v0] ps IH]; simpl; intros Hnd.
  - apply NoDup_singleton.
  - apply NoDup_cons in Hnd as [Hk0 Hnd].
    destruct (String.eqb k k0) eqn:E; simpl.
    + apply String.eqb_eq in E. subst k0. by apply NoDup_cons.
    + apply String.eqb_neq in E. apply NoDup_cons. split; [|by apply IH].
      rewrite define_keys. intros [?|?]; [congruence|done].
Qed.

(** The loop over the columns, when no column repeats or meets a key of the
    record so far: one new property per column, in order. *)
Lemma assign_columns_distinct (cs : list string) :
  ∀ (index : nat) (d : list json) (r : record),
    NoDup (r.*1 ++ cs) → "__proto__" ∉ cs →
    assign_columns (VStr <$> cs) index d r
    = Some (r ++ imap (λ i k, (k, d !! (index + i)%nat)) cs).
Proof.
  induction cs as [|k cs IH]; intros index d r Hnd Hproto; simpl.
  - by rewrite app_nil_r.
  - apply not_elem_of_cons in Hproto as [Hk Hproto].
    unfold assign. rewrite (eqb_false_of_ne k "__proto__") by done. simpl.
    rewrite define_fresh.
    + rewrite IH; [| |done].
      * rewrite <- app_assoc. simpl. rewrite Nat.add_0_r. do 3 f_equal.
        apply imap_ext. intros i c _. simpl. do 2 f_equal. lia.
      * rewrite fmap_app. simpl. by rewrite <- app_assoc.
    + apply NoDup_app in Hnd as (_ & Hdisj & _).
      intros Hin. apply (Hdisj k Hin). by left.
Qed.

(** The same loop in general: a column writes over what an earlier column,
    or the record so far, had stored under its name. *)
Lemma assign_columns_lookup (cs : list string) :
  ∀ (index : nat) (d : list json) (r : record),
    "__proto__" ∉ cs →
    ∃ r',
      assign_columns (VStr <$> cs) index d r = Some r' ∧
      (∀ k, k ∉ cs → get_own k r' = get_own k r) ∧
      (∀ n k, cs !! n = Some k → (∀ m, (n < m)%nat → cs !! m ≠ Some k) →
              get_own k r' = Some (d !! (index + n)%nat)) ∧
      (∀ k, k ∈ r'.*1 ↔ k ∈ r.*1 ∨ k ∈ cs) ∧
      (NoDup r.*1 → NoDup r'.*1).
Proof.
  induction cs as [|c cs IH]; intros index d r Hproto; simpl.
  - exists r. split; [done|]. split; [done|]. split; [done|].
    split; [|done]. intros k. rewrite elem_of_nil. tauto.
  - apply not_elem_of_cons in Hproto as [Hc Hproto].
    unfold assign. rewrite (eqb_false_of_ne c "__proto__") by done. simpl.
    destruct (IH (S index) d (define c (d !! index) r) Hproto)
      as (r' & Hrun & Hother & Hlast & Hkeys & Hnd).
    exists r'. split; [done|]. split_and!.
    + intros k Hk. apply not_elem_of_cons in Hk as [Hkc Hk].
      rewrite Hother by done. by rewrite get_own_define_ne.
    + intros n k Hn Hlater. destruct n as [|n]; simpl in Hn.
      * injection Hn as ->. rewrite Hother.
        { rewrite get_own_define_eq. by rewrite Nat.add_0_r. }
        intros Hin. apply list_elem_of_lookup in Hin as [m Hm].
        apply (Hlater (S m)); [lia|done].
      * rewrite (Hlast n k Hn).
        { do 2 f_equal. lia. }
        intros m Hm. apply (Hlater (S m)). lia.
    + intros k. rewrite Hkeys, define_keys, elem_of_cons. tauto.
    + intros Hr. by apply Hnd, define_NoDup.
Qed.

Lemma columns_cell (h : heap) this q ps vs :
  query this = VRef q → h !! q = Some (OObj ps) →
  array_field h this "columns" = Some vs →
  ∃ l, read "columns" ps = VRef l ∧ h !! l = Some (OArr vs) ∧ l ≠ q.
Proof.
  intros Hq Hps Hcols. unfold array_field, get_prop in Hcols.
  rewrite Hq, Hps in Hcols. simpl in Hcols.
  apply spread_Some in Hcols as (l & Hl & Hcell).
  exists l. split; [done|]. split; [done|]. congruence.
Qed.

(** [getScannerData] on a response with rows, once the row callback is
    known to return on every row. *)
Lemma getScannerData_rows fuel config this w ps N rows rest cs
    (f : ScreenerRowDict → record) :
  document (store w) this = Some ps →
  is_Some (spread (store w) DEFAULT_RANGE) →
  array_field (store w) this "columns" = Some (VStr <$> cs) →
  (∀ row, assign_columns (VStr <$> cs) 0 (Row.d row)
            [("ticker", Some (JStr (Row.s row)))] = Some (f row)) →
  pending w = Resolved {| totalCount := N; data := Some rows |} :: rest →
  ∃ w',
    getScannerData fuel config this w
    = Some (Return {| Result.totalCount := N;
                      Result.data := f <$> rows |}, w').
Proof.
  intros Hdoc Hdr Hcols Hf Hpending.
  apply document_Some in Hdoc as (q & Hq & Hps & _).
  destruct (columns_cell _ _ _ _ _ Hq Hps Hcols) as (l & Hcol & Hl & Hlq).
  destruct (getScannerDataRaw_run fuel config this w q ps _ rest
              Hq Hps Hdr Hpending)
    as (h1 & ps1 & req & Hraw & Hps1 & Hkeep & Hframe).
  assert (Hl1 : h1 !! l = Some (OArr (VStr <$> cs))) by by apply Hframe.
  eexists. unfold getScannerData. rewrite Hraw. simpl.
  unfold get_prop. rewrite Hq, Hps1. simpl.
  rewrite Hkeep, Hcol by done.
  rewrite (mapM_total _ f rows); [done|].
  intros row. unfold remap_row. simpl. rewrite Hl1. simpl. apply Hf.
Qed.

(** X8.  For a document whose [columns] are any number of distinct names,
    none of them [ticker] or [__proto__], [getScannerData] turns the rows of
    the response, in order, into the records
    [{ticker: row.s, c1: row.d[0], ..., cn: row.d[n-1]}] and passes
    [totalCount] on.  A row with fewer values than columns leaves the
    remaining columns [undefined]; values beyond the last column are
    dropped. *)
Theorem distinct_columns_remapped fuel config this w ps (N : Z) rows rest
    (cs : list string) :
  document (store w) this = Some ps →
  is_Some (spread (store w) DEFAULT_RANGE) →
  array_field (store w) this "columns" = Some (VStr <$> cs) →
  NoDup ("ticker" :: cs) → "__proto__" ∉ cs →
  pending w = Resolved {| totalCount := N; data := Some rows |} :: rest →
  ∃ w',
    getScannerData fuel config this w
    = Some (Return {| Result.totalCount := N;
                      Result.data := row_record cs <$> rows |}, w').
Proof.
  intros Hdoc Hdr Hcols Hnd Hproto Hpending.
  apply (getScannerData_rows fuel config this w ps N rows rest cs);
    try done.
  intros row. by rewrite assign_columns_distinct.
Qed.

Lemma distinct_columns_remapped_witness :
  let this := three_columns_state.1 in
  let rows := [{| Row.s := "NASDAQ:NVDA"; Row.d := [JStr "NVDA"; JNum 116] |};
               {| Row.s := "AMEX:SPY";
                  Row.d := [JStr "SPY"; JNum 542; JNum 7; JNull] |}] in
  let w := {| store := three_columns_state.2;
              pending := [Resolved {| totalCount := 2; data := Some rows |}];
              sent := [] |} in
  (document (store w) this = Some three_columns_document ∧
   is_Some (spread (store w) DEFAULT_RANGE) ∧
   array_field (store w) this "columns"
     = Some (VStr <$> ["name"; "close"; "volume"]) ∧
   NoDup ["ticker"; "name"; "close"; "volume"] ∧
   ("__proto__" ∉ ["name"; "close"; "volume"]) ∧
   pending w = [Resolved {| totalCount := 2; data := Some rows |}]) ∧
  ∃ w',
    getScannerData 4 default_config this w
    = Some (Return
              {| Result.totalCount := 2;
                 Result.data :=
                   [[("ticker", Some (JStr "NASDAQ:NVDA"));
                     ("name", Some (JStr "NVDA")); ("close", Some (JNum 116));
                     ("volume", None)];
                    [("ticker", Some (JStr "AMEX:SPY"));
                     ("name", Some (JStr "SPY")); ("close", Some (JNum 542));
                     ("volume", Some (JNum 7))]] |}, w').
Proof.
  intros this rows w.
  assert (Hnodup : NoDup ["ticker"; "name"; "close"; "volume"])
    by (by apply (bool_decide_unpack _)).
  assert (Hproto : "__proto__" ∉ ["name"; "close"; "volume"])
    by (by apply (bool_decide_unpack _)).
  split; [by split_and!|].
  by apply (distinct_columns_remapped 4 default_config this w
              three_columns_document 2 rows [] ["name"; "close"; "volume"]).
Defined.

(** X9.  For a document whose [columns] are any names other than
    [__proto__], repeated or not: [getScannerData] returns one record per
    row; the keys of a record are [ticker] and the column names, each once;
    under a column name stands the value at the position of the last
    occurrence of that name among the columns ([undefined] beyond the end of
    the row); and [ticker] holds the identifier of the row unless a column is
    itself named [ticker]. *)
Theorem repeated_column_last_wins fuel config this w ps (N : Z) rows rest
    (cs : list string) :
  document (store w) this = Some ps →
  is_Some (spread (store w) DEFAULT_RANGE) →
  array_field (store w) this "columns" = Some (VStr <$> cs) →
  "__proto__" ∉ cs →
  pending w = Resolved {| totalCount := N; data := Some rows |} :: rest →
  ∃ result w',
    getScannerData fuel config this w = Some (Return result, w') ∧
    Result.totalCount result = N ∧
    length (Result.data result) = length rows ∧
    ∀ i row, rows !! i = Some row →
      ∃ r, Result.data result !! i = Some r ∧
        NoDup r.*1 ∧
        (∀ k, k ∈ r.*1 ↔ k = "ticker" ∨ k ∈ cs) ∧
        (∀ n k, cs !! n = Some k →
                (∀ m, (n < m)%nat → cs !! m ≠ Some k) →
                get_own k r = Some (Row.d row !! n)) ∧
        ("ticker" ∉ cs → get_own "ticker" r = Some (Some (JStr (Row.s row)))).
Proof.
  intros Hdoc Hdr Hcols Hproto Hpending.
  set (f := λ row : ScreenerRowDict,
         default [] (assign_columns (VStr <$> cs) 0 (Row.d row)
                       [("ticker", Some (JStr (Row.s row)))])).
  assert (Hf : ∀ row, assign_columns (VStr <$> cs) 0 (Row.d row)
                 [("ticker", Some (JStr (Row.s row)))] = Some (f row)).
  { intros row. unfold f.
    destruct (assign_columns_lookup cs 0 (Row.d row)
                [("ticker", Some (JStr (Row.s row)))] Hproto)
      as (r' & -> & _). done. }
  destruct (getScannerData_rows fuel config this w ps N rows rest cs f
              Hdoc Hdr Hcols Hf Hpending) as (w' & Hrun).
  eexists _, w'. split; [exact Hrun|]. simpl. split; [done|].
  split; [by rewrite length_fmap|].
  intros i row Hi. exists (f row). rewrite list_lookup_fmap, Hi.
  split; [done|].
  destruct (assign_columns_lookup cs 0 (Row.d row)
              [("ticker", Some (JStr (Row.s row)))] Hproto)
    as (r' & Hr' & Hother & Hlast & Hkeys & Hnd).
  rewrite Hf in Hr'. injection Hr' as <-.
  split_and!.
  - apply Hnd. simpl. apply NoDup_singleton.
  - intros k. rewrite Hkeys. simpl. rewrite elem_of_cons, elem_of_nil. tauto.
  - intros n k Hn Hlater. by rewrite (Hlast n k Hn Hlater).
  - intros Hticker. rewrite Hother by done. done.
Qed.

Lemma repeated_column_last_wins_witness :
  let this := repeated_columns_state.1 in
  let rows := [{| Row.s := "X:Y"; Row.d := [JNum 1; JNum 2] |}] in
  let cs := ["close"; "ticker"; "close"] in
  let w := {| store := repeated_columns_state.2;
              pending := [Resolved {| totalCount := 1; data := Some rows |}];
              sent := [] |} in
  (document (store w) this = Some three_columns_document ∧
   is_Some (spread (store w) DEFAULT_RANGE) ∧
   array_field (store w) this "columns" = Some (VStr <$> cs) ∧
   ("__proto__" ∉ cs) ∧
   pending w = [Resolved {| totalCount := 1; data := Some rows |}]) ∧
  ∃ result w',
    getScannerData 4 default_config this w = Some (Return result, w') ∧
    Result.totalCount result = 1 ∧
    length (Result.data result) = length rows ∧
    ∀ i row, rows !! i = Some row →
      ∃ r, Result.data result !! i = Some r ∧
        NoDup r.*1 ∧
        (∀ k, k ∈ r.*1 ↔ k = "ticker" ∨ k ∈ cs) ∧
        (∀ n k, cs !! n = Some k →
                (∀ m, (n < m)%nat → cs !! m ≠ Some k) →
                get_own k r = Some (Row.d row !! n)) ∧
        ("ticker" ∉ cs → get_own "ticker" r = Some (Some (JStr (Row.s row)))).
Proof.
  intros this rows cs w.
  assert (Hproto : "__proto__" ∉ cs) by (by apply (bool_decide_unpack _)).
  split; [by split_and!|].
  by apply (repeated_column_last_wins 4 default_config this w
              three_columns_document 1 rows [] cs).
Defined.

(** X10.  With [columns] unset in the document ([undefined] or [null], as
    after [setProperty('columns', null)]), the fallback [|| []] applies:
    every row gives the record [{ticker: row.s}] and nothing else, whatever
    values the row carries. *)
Theorem unset_columns_ticker_only fuel config this w ps (N : Z) rows rest :
  document (store w) this = Some ps →
  is_Some (spread (store w) DEFAULT_RANGE) →
  truthy (read "columns" ps) = false →
  pending w = Resolved {| totalCount := N; data := Some rows |} :: rest →
  ∃ w',
    getScannerData fuel config this w
    = Some (Return {| Result.totalCount := N;
                      Result.data :=
                        (λ row, [("ticker", Some (JStr (Row.s row)))])
                          <$> rows |}, w').
Proof.
  intros Hdoc Hdr Hcols Hpending.
  apply document_Some in Hdoc as (q & Hq & Hps & _).
  destruct (getScannerDataRaw_run fuel config this w q ps _ rest
              Hq Hps Hdr Hpending)
    as (h1 & ps1 & req & Hraw & Hps1 & Hkeep & Hframe).
  eexists. unfold getScannerData. rewrite Hraw. simpl.
  unfold get_prop. rewrite Hq, Hps1. simpl. rewrite Hkeep by done.
  rewrite (mapM_total _ (λ row, [("ticker", Some (JStr (Row.s row)))]) rows);
    [done|].
  intros row. unfold remap_row. by rewrite Hcols.
Qed.

Lemma unset_columns_ticker_only_witness :
  let this := no_columns_state.1 in
  let rows := [{| Row.s := "X:Y"; Row.d := [JNum 1; JNum 2] |}] in
  let w := {| store := no_columns_state.2;
              pending := [Resolved {| totalCount := 1; data := Some rows |}];
              sent := [] |} in
  (document (store w) this = Some no_columns_document ∧
   is_Some (spread (store w) DEFAULT_RANGE) ∧
   truthy (read "columns" no_columns_document) = false ∧
   pending w = [Resolved {| totalCount := 1; data := Some rows |}]) ∧
  ∃ w',
    getScannerData 4 default_config this w
    = Some (Return {| Result.totalCount := 1;
                      Result.data := [[("ticker", Some (JStr "X:Y"))]] |}, w').
Proof.
  intros this rows w. split; [by split_and!|].
  by apply (unset_columns_ticker_only 4 default_config this w
              no_columns_document 1 rows []).
Defined.

(** ** Sending leaves the builder as it is, but for a missing [range] *)





(** ** The shared constant [DEFAULT_RANGE] *)

Lemma Query_new_range (h : heap) dr :
  spread h DEFAULT_RANGE = Some dr →
  ∃ fresh h1 l,
    Query_new h = Some (fresh, h1) ∧
    get_prop h1 (query fresh) "range" = Some (VRef l) ∧
    h !! l = None ∧ h1 !! l = Some (OArr dr) ∧
    array_field h1 fresh "range" = Some dr.
Proof.
  intros Hdr. unfold Query_new, bind, new, alloc, ret, spreadM.
  rewrite <- !app_assoc. rewrite (spread_extend h _ _ _ Hdr).
  rewrite <- !app_assoc. cbn [app].
  rewrite !length_app. cbn [length].
  eexists _, _, (length h + 8)%nat. split; [reflexivity|].
  cbn [query].
  assert (Hq : ∀ ext : heap, (h ++ ext) !! (length h + 9)%nat = ext !! 9%nat)
    by (intros; apply lookup_alloc_at).
  assert (Hr : ∀ ext : heap, (h ++ ext) !! (length h + 8)%nat = ext !! 8%nat)
    by (intros; apply lookup_alloc_at).
  unfold array_field, get_prop, spread. cbn [query]. rewrite !Hq. cbn.
  rewrite !Hr. cbn.
  split; [done|]. split; [apply lookup_ge_None_2; lia|]. done.
Qed.

(** X12.  No chain of builder calls ([select], [where], [where2],
    [orderBy], [limit], [offset], [setMarkets], [setTickers], [setIndex])
    writes into the array of [DEFAULT_RANGE], as long as the document does
    not hold that very array as its [range] or [symbols]: [limit] and
    [offset] write into the array of the builder.  A builder made afterwards
    by [new Query()] therefore starts with the range [[0, 50]], in an array
    of its own. *)
Theorem DEFAULT_RANGE_never_written (cs : list call) this (h : heap) ps
    this' h' :
  h !! 0%nat = Some (OArr [VNum 0; VNum 50]) →
  document h this = Some ps →
  read "range" ps ≠ DEFAULT_RANGE →
  read "symbols" ps ≠ DEFAULT_RANGE →
  invoke_all cs this h = Some (this', h') →
  spread h' DEFAULT_RANGE = Some [VNum 0; VNum 50] ∧
  ∃ fresh h'' l,
    Query_new h' = Some (fresh, h'') ∧
    get_prop h'' (query fresh) "range" = Some (VRef l) ∧
    h' !! l = None ∧
    array_field h'' fresh "range" = Some [VNum 0; VNum 50].
Proof.
  intros H0 Hdoc Hrange Hsymbols Hrun.
  apply document_Some in Hdoc as (q & Hq & Hps & Hlt).
  assert (Hout : ∀ v, v ≠ DEFAULT_RANGE → outside 0 1 v).
  { intros [| | | | |l] Hv; simpl; try done.
    destruct l; [done|]. right. lia. }
  assert (Hq0 : outside 0 1 (VRef q)).
  { apply Hout. unfold DEFAULT_RANGE. intros [= ->]. congruence. }
  assert (Hguard : guarded 0 1 q h).
  { exists ps. split; [done|]. split; [by apply Hout|].
    split; [by apply Hout|]. lia. }
  destruct (keeps_invoke_all 0 1 q Hq0 cs this Hq h this' h' Hguard Hrun)
    as (_ & Hframe & _).
  assert (H0' : h' !! 0%nat = Some (OArr [VNum 0; VNum 50])).
  { rewrite Hframe by lia. done. }
  assert (Hdr : spread h' DEFAULT_RANGE = Some [VNum 0; VNum 50]).
  { unfold spread, DEFAULT_RANGE. by rewrite H0'. }
  split; [done|].
  destruct (Query_new_range h' _ Hdr) as (fresh & h'' & l & Hnew & Hget & Hl & _ & Harr).
  by exists fresh, h'', l.
Qed.

Lemma DEFAULT_RANGE_never_written_witness :
  let cs := [Limit 10; Offset 5; Select [AStr "close"]] in
  let s := default new_Query_state (run_calls cs) in
  (new_Query_state.2 !! 0%nat = Some (OArr [VNum 0; VNum 50]) ∧
   document new_Query_state.2 new_Query_state.1 = Some new_Query_document ∧
   read "range" new_Query_document ≠ DEFAULT_RANGE ∧
   read "symbols" new_Query_document ≠ DEFAULT_RANGE ∧
   invoke_all cs new_Query_state.1 new_Query_state.2 = Some (s.1, s.2)) ∧
  array_field s.2 s.1 "range" = Some [VNum 5; VNum 10] ∧
  spread s.2 DEFAULT_RANGE = Some [VNum 0; VNum 50] ∧
  ∃ fresh h'' l,
    Query_new s.2 = Some (fresh, h'') ∧
    get_prop h'' (query fresh) "range" = Some (VRef l) ∧
    s.2 !! l = None ∧
    array_field h'' fresh "range" = Some [VNum 0; VNum 50].
Proof.
  intros cs s.
  assert (Hrun : invoke_all cs new_Query_state.1 new_Query_state.2
                 = Some (s.1, s.2)) by (vm_compute; reflexivity).
  split; [by split_and!|]. split; [vm_compute; reflexivity|].
  by apply (DEFAULT_RANGE_never_written cs new_Query_state.1
              new_Query_state.2 new_Query_document s.1 s.2).
Defined.

(** X13.  [setProperty] stores the caller's value itself, not a copy: after
    [setProperty('range', r)] with an array [r] of the caller, the document
    holds [r], and [limit(n)] writes [n] into [r].  With the exported
    [DEFAULT_RANGE] as [r], the constant itself changes, and so does the
    range of every builder made afterwards. *)
Theorem setProperty_keeps_reference this (h : heap) ps l a b (n : Z) :
  document h this = Some ps →
  h !! l = Some (OArr [a; b]) →
  ∃ this' h',
    (this1 ←ₘ setProperty "range" (VRef l) this; limit n this1) h
    = Some (this', h') ∧
    get_prop h' (query this') "range" = Some (VRef l) ∧
    h' !! l = Some (OArr [a; VNum n]) ∧
    (VRef l = DEFAULT_RANGE →
     ∃ fresh h'', Query_new h' = Some (fresh, h'') ∧
                  array_field h'' fresh "range" = Some [a; VNum n]).
Proof.
  intros Hdoc Hl. apply document_Some in Hdoc as (q & Hq & Hps & Hlt).
  assert (Hlq : l ≠ q) by congruence.
  assert (Hll : (l < length h)%nat) by by eapply lookup_lt_Some.
  unfold setProperty. cbn [String.eqb Ascii.eqb Bool.eqb].
  unfold bind at 1. unfold bind at 1. rewrite Hq, (setM_run q _ _ ps) by done.
  cbn [ret]. unfold limit.
  rewrite (range_set_run 1 (VNum n) this _ q
             (define "range" (VRef l) ps) l a b); try done.
  - exists this. eexists. split; [done|]. cbn [list_insert].
    assert (Hcell : <[l:=OArr [a; VNum n]]>
                      (<[q:=OObj (define "range" (VRef l) ps)]> h) !! l
                    = Some (OArr [a; VNum n])).
    { rewrite list_lookup_insert_eq; [done|]. by rewrite length_insert. }
    split.
    { unfold get_prop. rewrite Hq.
      rewrite list_lookup_insert_ne by done.
      rewrite list_lookup_insert_eq by done. by rewrite read_define_eq. }
    split; [done|].
    intros [= ->].
    destruct (Query_new_range
                (<[0%nat:=OArr [a; VNum n]]>
                   (<[q:=OObj (define "range" (VRef 0) ps)]> h))
                [a; VNum n])
      as (fresh & h'' & l' & Hnew & _ & _ & _ & Harr).
    { unfold spread, DEFAULT_RANGE. by rewrite Hcell. }
    by exists fresh, h''.
  - by rewrite list_lookup_insert_eq.
  - by rewrite read_define_eq.
  - by rewrite list_lookup_insert_ne.
  - lia.
Qed.

Lemma setProperty_keeps_reference_witness :
  let this := new_Query_state.1 in
  let h := new_Query_state.2 in
  (document h this = Some new_Query_document ∧
   h !! 0%nat = Some (OArr [VNum 0; VNum 50])) ∧
  ∃ this' h',
    (this1 ←ₘ setProperty "range" (VRef 0) this; limit 10 this1) h
    = Some (this', h') ∧
    get_prop h' (query this') "range" = Some (VRef 0) ∧
    h' !! 0%nat = Some (OArr [VNum 0; VNum 10]) ∧
    (VRef 0 = DEFAULT_RANGE →
     ∃ fresh h'', Query_new h' = Some (fresh, h'') ∧
                  array_field h'' fresh "range" = Some [VNum 0; VNum 10]).
Proof.
  intros this h. split; [by split_and!|].
  by apply (setProperty_keeps_reference this h new_Query_document 0
              (VNum 0) (VNum 50) 10).
Defined.

(** ** [getQuery] and [equals] *)

(** X14.  [getQuery()] on a document that serializes returns a snapshot:
    a structure of newly allocated cells that serializes to the same JSON as
    the document.  The snapshot and the document share no cell: a write to
    any cell of the one does not change the JSON of the other. *)
Theorem getQuery_snapshot n this (h : heap) j :
  heap_unique_keys h →
  to_json n h (query this) = Some (Some j) →
  ∃ v ext,
    getQuery n this h = Some (v, h ++ ext) ∧
    to_json n (h ++ ext) v = Some (Some j) ∧
    to_json n (h ++ ext) (query this) = Some (Some j) ∧
    (∀ l, reach (h ++ ext) v l → h !! l = None) ∧
    (∀ l o, reach (h ++ ext) v l →
       to_json n (<[l := o]> (h ++ ext)) (query this) = Some (Some j)) ∧
    (∀ l o, reach h (query this) l →
       to_json n (<[l := o]> (h ++ ext)) v = Some (Some j)).
Proof.
  intros Hunique Hj.
  destruct (to_json_depth_unique h Hunique n _ j Hj) as [Hdepth Hkeys].
  destruct (parse_spec j h) as (v & ext & Hparse & Hv & Hext).
  destruct (parse_roundtrip j Hkeys h v _ Hparse) as [_ Hround].
  apply to_json_fuel with (n' := n) in Hround; [|done].
  exists v, ext. split.
  { unfold getQuery, json_clone. by rewrite Hj. }
  split; [done|]. split; [by apply to_json_extend|].
  assert (Hfresh : ∀ l, reach (h ++ ext) v l → (length h ≤ l)%nat).
  { intros l Hl. by eapply reach_above. }
  split_and!.
  - intros l Hl. apply lookup_ge_None_2. by apply Hfresh.
  - intros l o Hl. apply to_json_agree with h; [done|].
    intros l' Hl'. apply reach_allocated in Hl'. apply Hfresh in Hl.
    rewrite list_lookup_insert_ne by lia. by rewrite lookup_app_l.
  - intros l o Hl. apply to_json_agree with (h ++ ext); [done|].
    intros l' Hl'. apply reach_allocated in Hl. apply Hfresh in Hl'.
    by rewrite list_lookup_insert_ne by lia.
Qed.

Lemma new_Query_unique_keys : heap_unique_keys new_Query_state.2.
Proof.
  unfold heap_unique_keys.
  let h := eval vm_compute in new_Query_state.2 in
  change new_Query_state.2 with h.
  repeat (apply Forall_cons; split;
          [first [exact I|cbn; by apply (bool_decide_unpack _)]|]).
  constructor.
Qed.

Lemma getQuery_snapshot_witness :
  let this := new_Query_state.1 in
  let h := new_Query_state.2 in
  (heap_unique_keys h ∧
   to_json 4 h (query this) = Some (Some new_Query_json)) ∧
  ∃ v ext,
    getQuery 4 this h = Some (v, h ++ ext) ∧
    to_json 4 (h ++ ext) v = Some (Some new_Query_json) ∧
    to_json 4 (h ++ ext) (query this) = Some (Some new_Query_json) ∧
    (∀ l, reach (h ++ ext) v l → h !! l = None) ∧
    (∀ l o, reach (h ++ ext) v l →
       to_json 4 (<[l := o]> (h ++ ext)) (query this)
       = Some (Some new_Query_json)) ∧
    (∀ l o, reach h (query this) l →
       to_json 4 (<[l := o]> (h ++ ext)) v = Some (Some new_Query_json)).
Proof.
  intros this h. split; [split; [apply new_Query_unique_keys|reflexivity]|].
  apply (getQuery_snapshot 4 this h new_Query_json);
    [apply new_Query_unique_keys|reflexivity].
Defined.

(** X15.  A copy equals its original: for a builder whose document
    serializes, [q.copy()] returns a builder [c] for which both
    [q.equals(c)] and [c.equals(q)] are [true]. *)
Theorem copy_equals_original n this (h : heap) j :
  heap_unique_keys h →
  is_Some (spread h DEFAULT_RANGE) →
  to_json n h (query this) = Some (Some j) →
  ∃ c h',
    copy n this h = Some (c, h') ∧
    equals n this c h' = Some true ∧
    equals n c this h' = Some true.
Proof.
  intros Hunique Hdr Hj.
  destruct (to_json_depth_unique h Hunique n _ j Hj) as [Hdepth Hkeys].
  destruct (Query_new_returns h Hdr) as (nq & cells & Hnew).
  destruct (parse_spec j (h ++ cells)) as (v & ext & Hparse & Hv & Hext).
  destruct (parse_roundtrip j Hkeys _ v _ Hparse) as [_ Hround].
  apply to_json_fuel with (n' := n) in Hround; [|done].
  assert (Hj' : to_json n ((h ++ cells) ++ ext) (query this) = Some (Some j))
    by by do 2 apply to_json_extend.
  exists {| query := v; url := url this |}, ((h ++ cells) ++ ext).
  split.
  { unfold copy, bind. rewrite Hnew. unfold json_clone.
    rewrite (to_json_extend _ _ cells _ _ Hj). by rewrite Hparse. }
  unfold equals. cbn [query url]. rewrite Hj', Hround.
  rewrite String.eqb_refl, bool_decide_eq_true_2 by done. done.
Qed.

Lemma copy_equals_original_witness :
  let this := new_Query_state.1 in
  let h := new_Query_state.2 in
  (heap_unique_keys h ∧ is_Some (spread h DEFAULT_RANGE) ∧
   to_json 4 h (query this) = Some (Some new_Query_json)) ∧
  ∃ c h',
    copy 4 this h = Some (c, h') ∧
    equals 4 this c h' = Some true ∧
    equals 4 c this h' = Some true.
Proof.
  intros this h.
  split; [split_and!; [apply new_Query_unique_keys|by eexists|reflexivity]|].
  apply (copy_equals_original 4 this h new_Query_json);
    [apply new_Query_unique_keys|by eexists|reflexivity].
Defined.

(** ** The text of a tree determines the tree *)





















(** ** Expressions nested to any depth *)

Lemma expression_nested_ind (P : expression → Prop) :
  (∀ v, P (Leaf v)) →
  (∀ operator operands, Forall P operands → P (Composite operator operands)) →
  ∀ e, P e.
Proof.
  intros Hleaf Hcomposite. fix IH 1. intros [v|operator operands].
  - apply Hleaf.
  - apply Hcomposite. induction operands as [|e operands IHoperands];
      constructor; [apply IH|exact IHoperands].
Qed.

(** Running [f] over a list, when each run only adds cells and establishes
    a property that adding cells preserves. *)
Lemma seqM_extend {A B} (f : A → M B) (Q : A → B → heap → Prop)
    (l : list A) (h : heap) :
  (∀ x y (h0 e : heap), Q x y h0 → Q x y (h0 ++ e)) →
  Forall (λ x, ∀ e0 : heap, ∃ y e,
            f x (h ++ e0) = Some (y, (h ++ e0) ++ e) ∧
            Q x y ((h ++ e0) ++ e)) l →
  ∀ e0 : heap, ∃ ys e,
    seqM f l (h ++ e0) = Some (ys, (h ++ e0) ++ e) ∧
    Forall2 (λ x y, Q x y ((h ++ e0) ++ e)) l ys.
Proof.
  intros Hstable Hall.
  induction Hall as [|x l Hx _ IH]; intros e0.
  - exists [], []. rewrite app_nil_r. split; [done|constructor].
  - destruct (Hx e0) as (y & e1 & Hrun & Hy).
    destruct (IH (e0 ++ e1)) as (ys & e2 & Hruns & Hys).
    rewrite !app_assoc in Hruns, Hys.
    exists (y :: ys), (e1 ++ e2). rewrite !app_assoc.
    split.
    + cbn [seqM]. unfold bind at 1. rewrite Hrun.
      unfold bind at 1. fold (seqM f). rewrite Hruns. done.
    + constructor; [|done]. by apply Hstable.
Qed.

(** X17.  An expression of [And] and [Or] nested to any depth, over leaves
    that are objects with a [left] key and serialize: evaluating it returns,
    changes no existing cell, and the result serializes to the tree of the
    expression, where every composite is
    [{operation: {operator, operands}}] with its operands in order, each
    leaf operand inside [{expression: ...}] and each composite operand as it
    is. *)
Theorem nested_combinators_serialize n (J : val → json) (e : expression)
    (h : heap) :
  Forall (λ v, has_left h v = Some true ∧
               to_json n h v = Some (Some (J v))) (leaves e) →
  ∃ v ext,
    evaluate e h = Some (v, h ++ ext) ∧
    has_left (h ++ ext) v = Some (is_leaf e) ∧
    to_json (n + 4 * height e) (h ++ ext) v
    = Some (Some (expression_tree_json J e)).
Proof.
  revert h.
  induction e as [v|operator operands IH] using expression_nested_ind;
    intros h Hleaves.
  - apply Forall_cons in Hleaves as [[Hleft Hjson] _].
    exists v, []. rewrite app_nil_r. cbn [height is_leaf].
    rewrite Nat.mul_0_r, Nat.add_0_r. done.
  - set (Q := λ (x : expression) (y : val) (h0 : heap),
           has_left h0 y = Some (is_leaf x) ∧
           to_json (n + 4 * height x) h0 y
           = Some (Some (expression_tree_json J x))).
    destruct (seqM_extend evaluate Q operands h) with (e0 := @nil obj)
      as (vs & e1 & Hruns & Hvs).
    { intros x y h0 e [Hl Hj]. split.
      - by apply has_left_extend.
      - by apply to_json_extend. }
    { cbn [leaves] in Hleaves. subst Q. cbn beta. revert Hleaves.
      induction IH as [|x operands Hx _ IHrest]; intros Hleaves;
        [constructor|].
      cbn [map concat] in Hleaves. apply Forall_app in Hleaves as [Hx' Hrest].
      constructor; [|by apply IHrest].
      intros e0. destruct (Hx (h ++ e0)) as (y & e & Hrun & Hl & Hj).
      { eapply Forall_impl; [exact Hx'|]. intros v [Hl Hj]. split.
        - by apply has_left_extend.
        - by apply to_json_extend. }
      by exists y, e. }
    rewrite app_nil_r in Hruns, Hvs.
    remember (foldr (λ e acc, Nat.max (height e) acc) 0%nat operands) as m
      eqn:Em.
    assert (Hm : Forall (λ x, height x ≤ m)%nat operands)
      by (subst m; by apply foldr_max_le).
    destruct (implAndOrChaining_json operator (n + 4 * m)
                (map (λ x, (is_leaf x, expression_tree_json J x)) operands)
                vs (h ++ e1))
      as (v & e2 & Hrun & Hleft & Hjson).
    { apply Forall2_fmap_r, Forall2_flip. subst Q. cbn beta in Hvs.
      clear Hruns Hleaves IH Em.
      induction Hvs as [|x y l k [Hl Hj] _ IHl]; [constructor|].
      apply Forall_cons in Hm as [Hx Hm]. constructor; [|by apply IHl].
      cbn [fst snd]. split; [done|].
      apply to_json_fuel with (n + 4 * height x)%nat; [done|lia]. }
    exists v, (e1 ++ e2). rewrite app_assoc.
    split.
    { cbn [evaluate]. unfold bind at 1. fold evaluate. by rewrite Hruns. }
    split; [done|].
    cbn [height expression_tree_json]. rewrite <- Em.
    replace (n + 4 * S m)%nat with (4 + (n + 4 * m))%nat by lia.
    rewrite Hjson. do 3 f_equal. by rewrite map_map.
Qed.

Lemma nested_combinators_serialize_witness :
  let a := three_leaves.1.1.1 in
  let b := three_leaves.1.1.2 in
  let c := three_leaves.1.2 in
  let h := three_leaves.2 in
  let J := λ v, default JNull (mjoin (to_json 1 h v)) in
  let e := Composite OpAnd
             [Composite OpOr [Composite OpAnd [Leaf a; Leaf b]; Leaf c]] in
  Forall (λ v, has_left h v = Some true ∧
               to_json 1 h v = Some (Some (J v))) (leaves e) ∧
  ∃ v ext,
    evaluate e h = Some (v, h ++ ext) ∧
    has_left (h ++ ext) v = Some (is_leaf e) ∧
    to_json (1 + 4 * height e) (h ++ ext) v
    = Some (Some
        (operation_json "and"
           [operation_json "or"
              [operation_json "and"
                 [expression_json (leaf_json "type" "equal" (JStr "stock"));
                  expression_json (leaf_json "close" "greater" (JNum 100))];
               expression_json (leaf_json "type" "equal" (JStr "dr"))]])).
Proof.
  intros a b c h J e.
  assert (H : Forall (λ v, has_left h v = Some true ∧
                           to_json 1 h v = Some (Some (J v))) (leaves e)).
  { repeat (constructor; [split; vm_compute; reflexivity|]). constructor. }
  split; [exact H|].
  exact (nested_combinators_serialize 1 J e h H).
Defined.

(** ** The indented text determines the tree too *)










(** "equality": [query1.equals(query2)] is [true] and
    [query1.equals(query3)] is [false]. *)
Example test_equality : equality_test = Some (true, false).
Proof. vm_compute. reflexivity. Qed.

(** The indented text of a small document, line by line. *)
Example test_JSON_pretty :
  JSON_pretty EmptyString
    (JObj [("range", JArr [JNum 0; JNum 50]); ("types", JArr []);
           ("options", JObj [("lang", JStr "en")])])
  = "{" +:+ line_feed
    +:+ "  " +:+ QuoteJSONString "range" +:+ ": [" +:+ line_feed
    +:+ "    0," +:+ line_feed
    +:+ "    50" +:+ line_feed
    +:+ "  ]," +:+ line_feed
    +:+ "  " +:+ QuoteJSONString "types" +:+ ": []," +:+ line_feed
    +:+ "  " +:+ QuoteJSONString "options" +:+ ": {" +:+ line_feed
    +:+ "    " +:+ QuoteJSONString "lang" +:+ ": " +:+ QuoteJSONString "en"
    +:+ line_feed
    +:+ "  }" +:+ line_feed
    +:+ "}".
Proof. vm_compute. reflexivity. Qed.
